(** * moreau-listener: bridging PostgreSQL NOTIFY to RabbitMQ

    A shallow embedding of [moreau-listener.py] and the properties of its
    bridge runtime.  Python functions become functions in a small monad
    that threads the observable history of the process (log records and
    calls to pika / psycopg2) and carries the three ways a Python call can
    end: it returns, it raises, or it leaves through [sys.exit].

    Fault model.  The calls to pika and psycopg2 (opening connections and
    cursors, [LISTEN], opening a channel, declaring, publishing, closing
    a connection) may raise; whether they do is read from a script carried
    by the world.  What [SafeConfigParser] answers about a file, a [get]
    that raises included, is given with the file.  [logging],
    [select.select] and [conn_postgres.poll] are total. *)

From Stdlib Require Import Ascii.
From stdpp Require Import base strings gmap list.
From Equations Require Import Equations.

Local Open Scope string_scope.
Local Open Scope Z_scope.

(** ** Python strings *)

Module Str.

(** The text before and after the first occurrence of [sep], when there
    is one. *)
Fixpoint partition_first (sep : ascii) (s : string) : option (string * string) :=
  match s with
  | EmptyString => None
  | String c rest =>
      if Ascii.eqb c sep then Some (EmptyString, rest)
      else match partition_first sep rest with
           | Some (before, after) => Some (String c before, after)
           | None => None
           end
  end.

(** [s.split(sep, 1)] for a one-character separator: at most one split,
    at the first separator; the whole string alone when there is none. *)
Definition split1 (sep : ascii) (s : string) : list string :=
  match partition_first sep s with
  | Some (before, after) => [before; after]
  | None => [s]
  end.

(** [c in s] *)
Fixpoint contains (c : ascii) (s : string) : bool :=
  match s with
  | EmptyString => false
  | String d rest => Ascii.eqb d c || contains c rest
  end.

(** Truth value of a string: empty is false. *)
Definition truthy (s : string) : bool :=
  match s with EmptyString => false | String _ _ => true end.

(** [needle in s] for strings: some suffix of [s] starts with [needle]. *)
Fixpoint occurs_in (needle s : string) : bool :=
  String.prefix needle s ||
  match s with
  | EmptyString => false
  | String _ rest => occurs_in needle rest
  end.

End Str.

(** ** Observable history *)

Inductive level : Type := DEBUG | INFO | WARNING | CRITICAL.

(** Library calls made by the bridge.  A broker connection is named by the
    number it got when it was opened; a channel by its connection. *)
Inductive call : Type :=
| pika_BlockingConnection (host : string) (port : Z) (virtual_host username password : string)
| conn_channel (h : nat)
| channel_exchange_declare (h : nat) (exchange type : string)
| channel_queue_declare (h : nat) (queue : string)
| channel_basic_publish (h : nat) (exchange routing_key body : string)
| conn_close (h : nat)
| psycopg2_connect (host port database user password : string)
| conn_set_isolation_level_autocommit
| conn_cursor
| curs_execute (sql : string)
| Process_start (name : string).

Inductive event : Type :=
| Log (lvl : level) (msg : string)
| Call (c : call) (ok : bool).

#[global] Instance level_eq_dec : EqDecision level.
Proof. solve_decision. Defined.
#[global] Instance call_eq_dec : EqDecision call.
Proof. solve_decision. Defined.
#[global] Instance event_eq_dec : EqDecision event.
Proof. solve_decision. Defined.

(** The state of one process: what it has done so far, what the outside
    world will answer to its next fallible calls ([true]: the call
    succeeds; an exhausted script answers [true]), how many broker
    connections it has opened, and which of them are still open. *)
Record world : Type := World {
  history : list event;
  script : list bool;
  opened : nat;
  open_conns : gset nat
}.

(** Exceptions.  [sys.exit(status)] raises [SystemExit]; a bare [except]
    catches it like any other.  [ConfigParserError] stands for the errors
    of [configparser] (a file that cannot be parsed, a value that cannot
    be interpolated). *)
Inductive exc : Type :=
| ValueError
| KeyError (key : string)
| LibraryError (c : call)
| SystemExit (status : Z)
| ConfigParserError.

Inductive outcome (A : Type) : Type :=
| Normal (a : A)
| Raised (e : exc).
Arguments Normal {A} a.
Arguments Raised {A} e.

Definition py (A : Type) : Type := world → outcome A * world.

#[global] Instance py_ret : MRet py := λ A a w, (Normal a, w).
#[global] Instance py_bind : MBind py := λ A B f m w,
  match m w with
  | (Normal a, w') => f a w'
  | (Raised e, w') => (Raised e, w')
  end.

Definition raise {A} (e : exc) : py A := λ w, (Raised e, w).

Definition sys_exit {A} (status : Z) : py A := raise (SystemExit status).

(** [try: body  except: handler], the handler being told what it caught
    (so that a bare [raise] in it can raise it again). *)
Definition try_except {A} (body : py A) (handler : exc → py A) : py A := λ w,
  match body w with
  | (Normal a, w') => (Normal a, w')
  | (Raised e, w') => handler e w'
  end.

Definition emit (e : event) : py unit := λ w,
  (Normal (), World (history w ++ [e]) (script w) (opened w) (open_conns w)).

Definition logging (lvl : level) (msg : string) : py unit := emit (Log lvl msg).

(** A library call that may raise: the next entry of the script decides. *)
Definition fallible (c : call) : py unit := λ w,
  match script w with
  | false :: rest =>
      (Raised (LibraryError c),
       World (history w ++ [Call c false]) rest (opened w) (open_conns w))
  | true :: rest =>
      (Normal (), World (history w ++ [Call c true]) rest (opened w) (open_conns w))
  | [] =>
      (Normal (), World (history w ++ [Call c true]) [] (opened w) (open_conns w))
  end.

(** A fresh broker connection object: it is numbered and recorded as open. *)
Definition new_connection : py nat := λ w,
  (Normal (opened w),
   World (history w) (script w) (S (opened w)) ({[opened w]} ∪ open_conns w)).

(** [conn.close()]: like every call to the broker library it may raise
    (it does on a connection that the broker has dropped); when it
    returns, the connection is no longer recorded as open. *)
Definition close (h : nat) : py unit :=
  fallible (conn_close h);;
  (λ w, (Normal (), World (history w) (script w) (opened w) (open_conns w ∖ {[h]})))
    : py unit.

(** [for x in l: body(x)] *)
Fixpoint for_each {A} (l : list A) (body : A → py unit) : py unit :=
  match l with
  | [] => mret ()
  | x :: rest => body x ;; for_each rest body
  end.

(** The double quote character, for the messages that quote a name. *)
Definition dq : string := String "034"%char EmptyString.

(** ** Configuration *)

(** A configuration is a dictionary of sections, each a dictionary of
    options. *)
Abbreviation config_t := (gmap string (gmap string string)).

(** [config[section]] *)
Definition getitem (config : config_t) (section : string) : py (gmap string string) := λ w,
  match config !! section with
  | None => (Raised (KeyError section), w)
  | Some d => (Normal d, w)
  end.

(** [config[section][option]] *)
Definition getitem2 (config : config_t) (section option : string) : py string :=
  d ← getitem config section;
  match d !! option with
  | None => raise (KeyError option)
  | Some v => mret v
  end.

(** The options [parse_config] insists on. *)
Definition checks : list (string * string) :=
  [ ("bridge", "name");
    ("rabbitmq", "host");
    ("rabbitmq", "port");
    ("rabbitmq", "vhost");
    ("rabbitmq", "exchange");
    ("rabbitmq", "exchange_type");
    ("rabbitmq", "username");
    ("rabbitmq", "password");
    ("postgres", "host");
    ("postgres", "port");
    ("postgres", "database");
    ("postgres", "username");
    ("postgres", "password");
    ("postgres", "channel") ].

(** [section in config and option in config[section]] on a dictionary:
    the section is there and has the option, whatever its value. *)
Definition has_option (parsed : config_t) (section option : string) : bool :=
  match parsed !! section with
  | None => false
  | Some d => bool_decide (is_Some (d !! option))
  end.

(** What a [SafeConfigParser] answers once it has read a file:
    [has_option], [sections] and [options] as the library gives them, and
    [get], which interpolates the value and raises when it cannot (a lone
    [%] in the value is enough): [None]. *)
Module ConfigParser.

Record t : Type := Make {
  has_option : string → string → bool;
  sections : list string;
  options : string → list string;
  get : string → string → option string
}.

End ConfigParser.

(** The inner loop of lines 107-108, from any point of the options of the
    section: [config_dict[section][option] = config.get(section, option)];
    [None] when a [get] raises. *)
Fixpoint copy_options (config : ConfigParser.t) (section : string)
    (names : list string) (section_dict : gmap string string)
    : option (gmap string string) :=
  match names with
  | [] => Some section_dict
  | name :: later =>
      value ← ConfigParser.get config section name;
      copy_options config section later (<[name := value]> section_dict)
  end.

(** The outer loop of lines 105-108, from any point of the sections:
    [config_dict[section] = OrderedDict()] and the copy of its options. *)
Fixpoint copy_sections (config : ConfigParser.t) (names : list string)
    (config_dict : config_t) : option config_t :=
  match names with
  | [] => Some config_dict
  | section :: later =>
      section_dict ← copy_options config section (ConfigParser.options config section) ∅;
      copy_sections config later (<[section := section_dict]> config_dict)
  end.

Record Notify : Type := { payload : string }.

(** What [select.select([conn_postgres], [], [], 2)] found: nothing within
    the two seconds, or the connection readable, in which case
    [conn_postgres.poll()] then adds [arrived] to [conn_postgres.notifies]. *)
Inductive select_result : Type :=
| timed_out
| readable (arrived : list Notify).

(** [l.pop()] on a non-empty list: its last item and the list without it. *)
Definition list_pop {A} (l : list A) : option (A * list A) :=
  match last l with
  | Some x => Some (x, removelast l)
  | None => None
  end.

(** Keeps the equation of a case analysis at hand. *)
Definition inspect {A} (a : A) : {b | a = b} := exist _ a eq_refl.

(** [MASTER_CONFIG[name] = value] on an [OrderedDict]: a known key keeps
    its place and takes the new value, a new key goes last. *)
Fixpoint odict_set {V} (k : string) (v : V) (d : list (string * V)) : list (string * V) :=
  match d with
  | [] => [(k, v)]
  | (k', v') :: rest =>
      if decide (k = k') then (k, v) :: rest else (k', v') :: odict_set k v rest
  end.

Record args_t : Type := { config_file : list string; persistent : bool }.

(** ** The program *)

Section Program.

(** Python's [int] on a string ([None]: it raises [ValueError]),
    [glob.glob], and the parser after [config.read(filename)] ([None]: the
    file cannot be parsed and [read] raises; a file that is not there
    gives a parser without sections). *)
Variable int : string → option Z.
Variable glob_glob : string → list string.
Variable config_read : string → option ConfigParser.t.

Definition config_list (args : args_t) : list string :=
  concat (map glob_glob (config_file args)).

Definition parse_config (filename : string) : py config_t :=
  logging DEBUG ("Parsing config file " +:+ filename +:+ ".");;
  config ← match config_read filename with
           | Some config => mret config
           | None => raise ConfigParserError
           end;
  for_each checks (λ check_pair,
    if negb (ConfigParser.has_option config check_pair.1 check_pair.2) then
      logging CRITICAL ("Missing configuration option " +:+ check_pair.1
                        +:+ ":" +:+ check_pair.2 +:+ ".");;
      logging CRITICAL "Unable to continue; exiting.";;
      sys_exit 1
    else mret ());;
  match copy_sections config (ConfigParser.sections config) ∅ with
  | Some config_dict => mret config_dict
  | None => raise ConfigParserError
  end.

Definition connect_rabbitmq (config : config_t) : py nat :=
  logging DEBUG "Connecting to the RabbitMQ broker.";;
  conn ← try_except
    (host ← getitem2 config "rabbitmq" "host";
     port_s ← getitem2 config "rabbitmq" "port";
     port ← match int port_s with
            | Some p => mret p
            | None => raise ValueError
            end;
     vhost ← getitem2 config "rabbitmq" "vhost";
     username ← getitem2 config "rabbitmq" "username";
     password ← getitem2 config "rabbitmq" "password";
     fallible (pika_BlockingConnection host port vhost username password);;
     new_connection)
    (λ _,
     logging CRITICAL "Could not connect to RabbitMQ broker.";;
     logging CRITICAL "Unable to continue; exiting.";;
     sys_exit 1);
  logging INFO "Connection to RabbitMQ established.";;
  mret conn.

Definition connect_postgres (config : config_t) : py unit :=
  logging DEBUG "Connecting to the PostgreSQL server.";;
  try_except
    (host ← getitem2 config "postgres" "host";
     port ← getitem2 config "postgres" "port";
     database ← getitem2 config "postgres" "database";
     username ← getitem2 config "postgres" "username";
     password ← getitem2 config "postgres" "password";
     fallible (psycopg2_connect host port database username password);;
     fallible conn_set_isolation_level_autocommit)
    (λ _,
     logging CRITICAL "Could not connect to PostgreSQL server.";;
     logging CRITICAL "Unable to continue; exiting.";;
     sys_exit 1);;
  logging INFO "Connection to PostgreSQL established.".

Definition register_listen (config : config_t) : py unit :=
  channel ← getitem2 config "postgres" "channel";
  logging DEBUG ("Preparing to start listening on channel " +:+ dq +:+ channel
                 +:+ dq +:+ ".");;
  try_except
    (fallible conn_cursor;;
     fallible (curs_execute ("LISTEN " +:+ channel +:+ ";")))
    (λ e,
     raise (A:=unit) e;;
     logging CRITICAL ("Could not listen on channel " +:+ dq +:+ channel
                       +:+ dq +:+ ".");;
     logging CRITICAL "Unable to continue; exiting.";;
     sys_exit 1);;
  logging INFO ("Listening on channel " +:+ dq +:+ channel +:+ dq +:+ ".").

(** Lines 197-200 of [republish_message]: split at the first colon and
    unpack into two names; when the unpacking raises (there was no
    colon, so one item only) both are [None]. *)
Definition unpack_payload (pg_payload : string) : option string * option string :=
  match Str.split1 ":" pg_payload with
  | [routing_key; message] => (Some routing_key, Some message)
  | _ => (None, None)
  end.

(** [not x] for [x] a string or [None]. *)
Definition falsy (x : option string) : bool :=
  match x with
  | None => true
  | Some s => negb (Str.truthy s)
  end.

(** The body of the second [try] of [republish_message]. *)
Definition publish (conn : nat) (config : config_t)
    (routing_key message : string) : py unit :=
  fallible (conn_channel conn);;
  exchange ← getitem2 config "rabbitmq" "exchange";
  (if Str.truthy exchange then
     exchange ← getitem2 config "rabbitmq" "exchange";
     type ← getitem2 config "rabbitmq" "exchange_type";
     fallible (channel_exchange_declare conn exchange type)
   else mret ());;
  rabbitmq ← getitem config "rabbitmq";
  (if bool_decide (is_Some (rabbitmq !! "queue")) then
     queue ← getitem2 config "rabbitmq" "queue";
     fallible (channel_queue_declare conn queue)
   else mret ());;
  exchange ← getitem2 config "rabbitmq" "exchange";
  fallible (channel_basic_publish conn exchange routing_key message);;
  name ← getitem2 config "bridge" "name";
  logging INFO ("Message republished via " +:+ dq +:+ name +:+ dq +:+ " bridge.");;
  logging DEBUG ("Routing key: " +:+ routing_key);;
  logging DEBUG ("Message: " +:+ message).

(** Lines 192-196 of [republish_message]: the connection to use, and
    whether it is to be closed after the message. *)
Definition acquire_connection (conn : option nat) (config : config_t) : py (bool * nat) :=
  match conn with
  | None => conn ← connect_rabbitmq config; mret (true, conn)
  | Some conn => mret (false, conn)
  end.

Definition republish_message (conn : option nat) (config : config_t)
    (pg_payload : string) : py unit :=
  acquired ← acquire_connection conn config;
  let terminate_after_message : bool := acquired.1 in
  let conn : nat := acquired.2 in
  let '(routing_key, message) := unpack_payload pg_payload in
  if falsy routing_key || falsy message then
    logging WARNING "Improperly formatted message received; discarding.";;
    logging INFO ("Message content: " +:+ pg_payload)
  else
    try_except
      (publish conn config (default EmptyString routing_key)
               (default EmptyString message))
      (λ _,
       name ← getitem2 config "bridge" "name";
       logging WARNING ("Unable to republish message via " +:+ dq +:+ name
                        +:+ dq +:+ " bridge; discarding.");;
       logging INFO ("Message content: " +:+ pg_payload));;
    if terminate_after_message then close conn else mret ().

(** The inner loop of [poll]:
    [while conn_postgres.notifies: notify = conn_postgres.notifies.pop();
     callback(conn_rabbitmq, config, notify.payload)].
    [notifies] is the buffer in arrival order; the result is the buffer
    the loop leaves behind. *)
Equations? drain (callback : option nat → config_t → string → py unit)
    (conn_rabbitmq : option nat) (config : config_t)
    (notifies : list Notify) : py (list Notify) by wf (length notifies) lt :=
  drain callback conn_rabbitmq config notifies with inspect (list_pop notifies) := {
    | exist _ None _ => mret notifies
    | exist _ (Some (notify, rest)) popped =>
        callback conn_rabbitmq config (payload notify);;
        drain callback conn_rabbitmq config rest
  }.
Proof.
  clear drain. unfold list_pop in popped.
  destruct (last notifies) as [x|] eqn:Hlast; [|done].
  injection popped as <- <-.
  apply last_Some in Hlast as [front ->].
  rewrite removelast_last, length_app. simpl. lia.
Qed.

(** One turn of the [while 1] loop of [poll]. *)
Definition poll_iteration (callback : option nat → config_t → string → py unit)
    (conn_rabbitmq : option nat) (config : config_t)
    (selected : select_result) (notifies : list Notify) : py (list Notify) :=
  match selected with
  | timed_out =>
      logging DEBUG "Timed out while polling. (this is normal)";;
      mret notifies
  | readable arrived =>
      drain callback conn_rabbitmq config (notifies ++ arrived)
  end.

(** The [while 1] loop of [poll], for as many turns as [selects] has
    entries; it does not return, so the result is the state of
    [conn_postgres.notifies] when the next turn would start. *)
Fixpoint poll_loop (callback : option nat → config_t → string → py unit)
    (conn_rabbitmq : option nat) (config : config_t)
    (selects : list select_result) (notifies : list Notify) : py (list Notify) :=
  match selects with
  | [] => mret notifies
  | selected :: later =>
      notifies ← poll_iteration callback conn_rabbitmq config selected notifies;
      poll_loop callback conn_rabbitmq config later notifies
  end.

Definition poll (conn_rabbitmq : option nat) (config : config_t)
    (callback : option nat → config_t → string → py unit)
    (selects : list select_result) : py (list Notify) :=
  logging INFO "Beginning polling for messages.";;
  poll_loop callback conn_rabbitmq config selects [].

Definition run (args : args_t) (config : config_t)
    (selects : list select_result) : py (list Notify) :=
  name ← getitem2 config "bridge" "name";
  logging INFO ("Initiating bridge " +:+ dq +:+ name +:+ dq +:+ ".");;
  conn_rabbitmq ←
    (if persistent args return py (option nat) then
       conn ← connect_rabbitmq config; mret (Some conn)
     else mret None);
  connect_postgres config;;
  register_listen config;;
  poll conn_rabbitmq config republish_message selects.

(** The first loop of the main program: every file is parsed, and the
    configurations are kept by bridge name. *)
Fixpoint load_configs (files : list string)
    (master_config : list (string * config_t)) : py (list (string * config_t)) :=
  match files with
  | [] => mret master_config
  | config_file :: later =>
      this_config ← parse_config config_file;
      bridge_name ← getitem2 this_config "bridge" "name";
      load_configs later (odict_set bridge_name this_config master_config)
  end.

(** The main program up to the [join]s: the bridges whose process was
    started, in order. *)
Definition main (args : args_t) : py (list (string * config_t)) :=
  master_config ← load_configs (config_list args) [];
  for_each master_config (λ bridge, emit (Call (Process_start bridge.1) true));;
  mret master_config.

End Program.

(** ** Vocabulary of the properties *)

(** What a call added to the history. *)
Definition new_events (w w' : world) : list event :=
  drop (length (history w)) (history w').

(** A computation only appends to the history, and what it appends
    satisfies [P]. *)
Definition emits {A} (P : event → Prop) (m : py A) : Prop :=
  ∀ w, ∃ evs, history (m w).2 = (history w ++ evs)%list ∧ Forall P evs.

(** A computation neither opens nor closes a broker connection. *)
Definition keeps_conns {A} (m : py A) : Prop :=
  ∀ w, opened (m w).2 = opened w ∧ open_conns (m w).2 = open_conns w.

(** A computation returns normally whatever the outside world answers. *)
Definition returns {A} (m : py A) : Prop :=
  ∀ w, ∃ a w', m w = (Normal a, w').

(** The outside world lets every coming call succeed. *)
Definition cooperative (w : world) : Prop := Forall (eq true) (script w).

(** In a cooperative world the computation returns normally, stays in a
    cooperative world, and its result and new events satisfy [R]. *)
Definition succeeds {A} (m : py A) (R : A → list event → Prop) : Prop :=
  ∀ w, cooperative w →
    ∃ a evs w', m w = (Normal a, w') ∧ history w' = (history w ++ evs)%list
                ∧ cooperative w' ∧ R a evs.

(** A notification that is not of the form [key:body] with both sides
    non-empty: no colon at all, nothing before the first colon, or
    nothing after it. *)
Definition malformed (raw : string) : Prop :=
  Str.contains ":" raw = false
  ∨ (∃ body, raw = ":" +:+ body)
  ∨ (∃ key, Str.contains ":" key = false ∧ raw = key +:+ ":").

(** The calls of the publish path: opening a channel, declaring, and
    publishing. *)
Definition publish_path_call (e : event) : Prop :=
  match e with
  | Call (conn_channel _) _
  | Call (channel_exchange_declare _ _ _) _
  | Call (channel_queue_declare _ _) _
  | Call (channel_basic_publish _ _ _ _) _ => True
  | _ => False
  end.

(** Every [basic_publish] carries this routing key and this body. *)
Definition publishes_only (routing_key body : string) (e : event) : Prop :=
  match e with
  | Call (channel_basic_publish _ _ rk b) _ => rk = routing_key ∧ b = body
  | _ => True
  end.

(** An event of a bridge that keeps to the broker connection [h]: no
    connection is opened or closed, and channels are those of [h]. *)
Definition on_connection (h : nat) (e : event) : Prop :=
  match e with
  | Call (pika_BlockingConnection _ _ _ _ _) _ => False
  | Call (conn_close _) _ => False
  | Call (conn_channel h') _
  | Call (channel_exchange_declare h' _ _) _
  | Call (channel_queue_declare h' _) _
  | Call (channel_basic_publish h' _ _ _) _ => h' = h
  | _ => True
  end.

Definition broker_connected (e : event) : bool :=
  match e with
  | Call (pika_BlockingConnection _ _ _ _ _) true => true
  | _ => false
  end.

Definition broker_closed (e : event) : bool :=
  match e with
  | Call (conn_close _) _ => true
  | _ => false
  end.

Definition is_critical (e : event) : bool :=
  match e with
  | Log CRITICAL _ => true
  | _ => false
  end.

Definition process_started (e : event) : bool :=
  match e with
  | Call (Process_start _) _ => true
  | _ => false
  end.

(** A warning record whose text includes [text]. *)
Definition warning_including (text : string) (e : event) : bool :=
  match e with
  | Log WARNING msg => Str.occurs_in text msg
  | _ => false
  end.

(** Every option of [checks] is there. *)
Definition valid_config (config : config_t) : Prop :=
  Forall (λ check_pair, has_option config check_pair.1 check_pair.2 = true) checks.

(** The first option of [checks] that the parser does not have. *)
Definition first_missing (config : ConfigParser.t) : option (string * string) :=
  find (λ check_pair, negb (ConfigParser.has_option config check_pair.1 check_pair.2))
    checks.

(** What lines 104-108 make of a parser: the dictionary of its sections
    and options, or [None] when a [get] raises. *)
Definition config_dict_of (config : ConfigParser.t) : option config_t :=
  copy_sections config (ConfigParser.sections config) ∅.

(** The parser lists what it has: an option that [has_option] finds in a
    section other than the default one is among the [options] of one of
    the [sections]. *)
Definition coherent (config : ConfigParser.t) : Prop :=
  ∀ section name,
    section ≠ "DEFAULT" → section ≠ EmptyString →
    ConfigParser.has_option config section name = true →
    section ∈ ConfigParser.sections config
    ∧ name ∈ ConfigParser.options config section.

(** The dictionary that [parse_config] makes of a file (the empty one
    standing for the files it does not get through). *)
Definition parsed (config_read : string → option ConfigParser.t) (filename : string)
    : config_t :=
  default ∅ (config_read filename ≫= config_dict_of).

(** A file that [parse_config] gets through: it can be read, it has the
    required options, and every value can be fetched. *)
Definition loads (config_read : string → option ConfigParser.t) (filename : string)
    : Prop :=
  ∃ config, config_read filename = Some config
            ∧ first_missing config = None
            ∧ coherent config
            ∧ is_Some (config_dict_of config).

(** The two records with which [republish_message] gives up a payload it
    cannot split. *)
Definition discard_malformed (pg_payload : string) : py unit :=
  logging WARNING "Improperly formatted message received; discarding.";;
  logging INFO ("Message content: " +:+ pg_payload).

(** The two records with which [republish_message] gives up a payload it
    could not publish. *)
Definition discard_unpublished (name pg_payload : string) : py unit :=
  logging WARNING ("Unable to republish message via " +:+ dq +:+ name
                   +:+ dq +:+ " bridge; discarding.");;
  logging INFO ("Message content: " +:+ pg_payload).

(** The guarded part of [republish_message] on a payload that was split:
    the attempt to publish and, when it raises, the two records. *)
Definition attempt (h : nat) (config : config_t) (key body raw : string) : py unit :=
  try_except (publish h config key body)
    (λ _, name ← getitem2 config "bridge" "name"; discard_unpublished name raw).

(** The callback called once for each buffered notification, the most
    recently arrived first, leaving an empty buffer. *)
Definition most_recent_first (callback : option nat → config_t → string → py unit)
    (conn_rabbitmq : option nat) (config : config_t)
    (notifies : list Notify) : py (list Notify) :=
  for_each (reverse notifies)
    (λ notify, callback conn_rabbitmq config (payload notify));;
  mret [].

(** The part of [run] that comes before [poll]: its result is the broker
    connection handed to [poll]. *)
Definition startup (int : string → option Z) (args : args_t) (config : config_t)
    : py (option nat) :=
  name ← getitem2 config "bridge" "name";
  logging INFO ("Initiating bridge " +:+ dq +:+ name +:+ dq +:+ ".");;
  conn_rabbitmq ←
    (if persistent args return py (option nat) then
       conn ← connect_rabbitmq int config; mret (Some conn)
     else mret None);
  connect_postgres config;;
  register_listen config;;
  mret conn_rabbitmq.

(** The record with which [poll] begins. *)
Definition polling_begins : event := Log INFO "Beginning polling for messages.".

(** How many events of a history satisfy a test. *)
Definition count_where (p : event → bool) (evs : list event) : nat :=
  length (List.filter p evs).

(** An event of the start of a bridge: nothing is closed, polling has not
    begun, and nothing is sent on a channel. *)
Definition quiet (e : event) : Prop :=
  broker_closed e = false ∧ e ≠ polling_begins ∧ ¬ publish_path_call e.

(** A computation that logs critically exactly when it leaves through
    [sys.exit]: then the status is 1, two critical records were logged
    and the last record is the announcement of the exit; in every other
    case no critical record was logged.  Polling does not begin in it. *)
Definition exits_critically {A} (m : py A) : Prop :=
  ∀ w, ∃ evs,
    history (m w).2 = (history w ++ evs)%list
    ∧ polling_begins ∉ evs
    ∧ match (m w).1 with
      | Raised (SystemExit status) =>
          status = 1 ∧ count_where is_critical evs = 2%nat
          ∧ last evs = Some (Log CRITICAL "Unable to continue; exiting.")
      | _ => count_where is_critical evs = 0%nat
      end.

(** The name under which the main program keeps a configuration. *)
Definition bridge_name (config : config_t) : string :=
  default EmptyString (config !! "bridge" ≫= (.!! "name")).

(** [MASTER_CONFIG] after the files have been read in order. *)
Definition master_config_of (config_read : string → config_t) (files : list string)
    (master_config : list (string * config_t)) : list (string * config_t) :=
  fold_left
    (λ master config_file,
       odict_set (bridge_name (config_read config_file)) (config_read config_file) master)
    files master_config.

Definition failed_call (e : event) : bool :=
  match e with
  | Call _ false => true
  | _ => false
  end.

Definition published (e : event) : bool :=
  match e with
  | Call (channel_basic_publish _ _ _ _) _ => true
  | _ => false
  end.

(** A computation that stops at the first library call that fails: no
    call of it failed if it returns or raises something of its own, and
    if it raises what a call raised, that call is the last thing it did,
    the only one that failed, and nothing was published before it. *)
Definition fail_stop {A} (m : py A) : Prop :=
  ∀ w, ∃ evs,
    history (m w).2 = (history w ++ evs)%list
    ∧ match (m w).1 with
      | Raised (LibraryError c) =>
          ∃ before, evs = (before ++ [Call c false])%list
                    ∧ Forall (λ e, failed_call e = false ∧ published e = false) before
      | _ => Forall (λ e, failed_call e = false) evs
      end.

(** A call to the broker library. *)
Definition broker_call (e : event) : bool :=
  match e with
  | Call (pika_BlockingConnection _ _ _ _ _) _
  | Call (conn_channel _) _
  | Call (channel_exchange_declare _ _ _) _
  | Call (channel_queue_declare _ _) _
  | Call (channel_basic_publish _ _ _ _) _
  | Call (conn_close _) _ => true
  | _ => false
  end.

(** A turn of the polling loop that brings no notification. *)
Definition idle (selected : select_result) : Prop :=
  selected = timed_out ∨ selected = readable [].

(** The notifications of the turns in the order in which [poll] hands
    them to the callback: turn by turn, and within a turn the most
    recently arrived first. *)
Definition processing_order (selects : list select_result) : list Notify :=
  flat_map (λ selected,
              match selected with
              | timed_out => []
              | readable arrived => reverse arrived
              end) selects.

(** The successful [basic_publish] on connection [h] that a notification
    is due: none for a notification that is discarded. *)
Definition expected_publish (h : nat) (exchange : string) (notify : Notify) : list event :=
  let '(routing_key, message) := unpack_payload (payload notify) in
  if falsy routing_key || falsy message then []
  else [Call (channel_basic_publish h exchange (default EmptyString routing_key)
                (default EmptyString message)) true].

(** A configuration and a world to try things on. *)
Definition example_config : config_t :=
  {[ "bridge" := {[ "name" := "b1" ]};
     "rabbitmq" := {[ "host" := "mq"; "port" := "5672"; "vhost" := "/";
                      "exchange" := "ex1"; "exchange_type" := "direct";
                      "username" := "guest"; "password" := "guest" ]};
     "postgres" := {[ "host" := "db"; "port" := "5432"; "database" := "app";
                      "username" := "pg"; "password" := "pg";
                      "channel" := "events" ]} ]}.

Definition example_int (s : string) : option Z :=
  if decide (s = "5672") then Some 5672 else None.

Definition fresh_world (script : list bool) : world := World [] script 0 ∅.

Definition persistent_args : args_t := {| config_file := ["b1.conf"]; persistent := true |}.

Definition ephemeral_args : args_t := {| config_file := ["b1.conf"]; persistent := false |}.

(** [d.get(k)] on a list of pairs. *)
Definition assoc {V} (k : string) (l : list (string * V)) : option V :=
  snd <$> find (λ entry, bool_decide (entry.1 = k)) l.

(** The parser of a file without a [DEFAULT] section and without [%] in
    its values: it has the sections and the options of the file, and
    [get] gives the values as they are written. *)
Definition literal (file : list (string * list (string * string))) : ConfigParser.t :=
  ConfigParser.Make
    (λ section name, bool_decide (is_Some (assoc section file ≫= assoc name)))
    (file.*1)
    (λ section, default [] ((λ names : list (string * string), names.*1)
                            <$> assoc section file))
    (λ section name, assoc section file ≫= assoc name).

(** The file of [example_config]. *)
Definition example_file : list (string * list (string * string)) :=
  [ ("bridge", [("name", "b1")]);
    ("rabbitmq", [("host", "mq"); ("port", "5672"); ("vhost", "/");
                  ("exchange", "ex1"); ("exchange_type", "direct");
                  ("username", "guest"); ("password", "guest")]);
    ("postgres", [("host", "db"); ("port", "5432"); ("database", "app");
                  ("username", "pg"); ("password", "pg"); ("channel", "events")]) ].

(** [example_file] with the exchange left empty. *)
Definition empty_exchange_file : list (string * list (string * string)) :=
  [ ("bridge", [("name", "b1")]);
    ("rabbitmq", [("host", "mq"); ("port", "5672"); ("vhost", "/");
                  ("exchange", EmptyString); ("exchange_type", "direct");
                  ("username", "guest"); ("password", "guest")]);
    ("postgres", [("host", "db"); ("port", "5432"); ("database", "app");
                  ("username", "pg"); ("password", "pg"); ("channel", "events")]) ].

(** [example_file] without the option [postgres.channel]. *)
Definition no_channel_file : list (string * list (string * string)) :=
  [ ("bridge", [("name", "b1")]);
    ("rabbitmq", [("host", "mq"); ("port", "5672"); ("vhost", "/");
                  ("exchange", "ex1"); ("exchange_type", "direct");
                  ("username", "guest"); ("password", "guest")]);
    ("postgres", [("host", "db"); ("port", "5432"); ("database", "app");
                  ("username", "pg"); ("password", "pg")]) ].

(** The parser of [example_file] with the password [100%] instead: it has
    every option, and the [get] of the password raises. *)
Definition percent_password : ConfigParser.t :=
  ConfigParser.Make
    (ConfigParser.has_option (literal example_file))
    (ConfigParser.sections (literal example_file))
    (ConfigParser.options (literal example_file))
    (λ section name,
       if decide (section = "rabbitmq" ∧ name = "password") then None
       else ConfigParser.get (literal example_file) section name).

(** [example_config] with the exchange left empty. *)
Definition empty_exchange_config : config_t :=
  <["rabbitmq" := {[ "host" := "mq"; "port" := "5672"; "vhost" := "/";
                     "exchange" := EmptyString; "exchange_type" := "direct";
                     "username" := "guest"; "password" := "guest" ]}]> example_config.

Definition two_malformed : list Notify :=
  [ {| payload := "noseparator" |}; {| payload := ":payload" |} ].

Definition two_notifications : list Notify :=
  [ {| payload := "events.created:hello" |}; {| payload := "orders:item:42" |} ].

(** ** Splitting at the first colon *)

Module StrFacts.
Import Str.

Lemma partition_first_none sep s :
  partition_first sep s = None ↔ contains sep s = false.
Proof.
  induction s as [|c s IH]; simpl; [done|].
  destruct (Ascii.eqb c sep); simpl; [split; discriminate|].
  destruct (partition_first sep s) as [[before after]|].
  - split; [discriminate|]. intros Hc. by apply IH in Hc.
  - split; [|done]. intros _. by apply IH.
Qed.

Lemma partition_first_app sep k m :
  contains sep k = false →
  partition_first sep (k +:+ String sep m) = Some (k, m).
Proof.
  induction k as [|c k IH]; simpl.
  - intros _. by rewrite Ascii.eqb_refl.
  - destruct (Ascii.eqb c sep); simpl; [discriminate|].
    intros Hk. by rewrite IH.
Qed.

Lemma partition_first_some sep s k m :
  partition_first sep s = Some (k, m) →
  s = k +:+ String sep m ∧ contains sep k = false.
Proof.
  revert k. induction s as [|c s IH]; simpl; [discriminate|].
  intros k. destruct (Ascii.eqb c sep) eqn:Hc.
  - apply Ascii.eqb_eq in Hc as ->. by intros [= <- <-].
  - destruct (partition_first sep s) as [[before after]|]; [|discriminate].
    intros [= <- <-]. destruct (IH before eq_refl) as [-> Hb]. simpl.
    by rewrite Hc.
Qed.

Lemma truthy_true s : truthy s = true ↔ s ≠ EmptyString.
Proof. by destruct s. Qed.

End StrFacts.

(** ** Reasoning rules for the monad *)

Lemma bind_unfold {A B} (m : py A) (f : A → py B) w :
  (m ≫= f) w = match m w with
               | (Normal a, w') => f a w'
               | (Raised e, w') => (Raised e, w')
               end.
Proof. reflexivity. Qed.

Lemma bind_normal {A B} (m : py A) (f : A → py B) w a w' :
  m w = (Normal a, w') → (m ≫= f) w = f a w'.
Proof. intros H. by rewrite bind_unfold, H. Qed.

Lemma bind_raised {A B} (m : py A) (f : A → py B) w e w' :
  m w = (Raised e, w') → (m ≫= f) w = (Raised e, w').
Proof. intros H. by rewrite bind_unfold, H. Qed.

Lemma new_events_app w w' evs :
  history w' = (history w ++ evs)%list → new_events w w' = evs.
Proof. unfold new_events. intros ->. by rewrite drop_app_length. Qed.

Section EmitsRules.
Context (P : event → Prop).

Lemma emits_ret {A} (a : A) : emits P (mret a).
Proof. intros w. exists []. simpl. by rewrite app_nil_r. Qed.

Lemma emits_raise {A} e : emits P (raise (A:=A) e).
Proof. intros w. exists []. simpl. by rewrite app_nil_r. Qed.

Lemma emits_sys_exit {A} s : emits P (sys_exit (A:=A) s).
Proof. apply emits_raise. Qed.

Lemma emits_bind {A B} (m : py A) (f : A → py B) :
  emits P m → (∀ a, emits P (f a)) → emits P (m ≫= f).
Proof.
  intros Hm Hf w. rewrite bind_unfold.
  destruct (Hm w) as (evs & Hh & Hevs).
  destruct (m w) as [[a|e] w1]; simpl in *; [|by eauto].
  destruct (Hf a w1) as (evs' & Hh' & Hevs').
  exists (evs ++ evs')%list. split.
  - by rewrite Hh', Hh, app_assoc.
  - by apply Forall_app.
Qed.

Lemma emits_try_except {A} (body : py A) handler :
  emits P body → (∀ e, emits P (handler e)) → emits P (try_except body handler).
Proof.
  intros Hm Hf w. unfold try_except.
  destruct (Hm w) as (evs & Hh & Hevs).
  destruct (body w) as [[a|e] w1]; simpl in *; [by eauto|].
  destruct (Hf e w1) as (evs' & Hh' & Hevs').
  exists (evs ++ evs')%list. split.
  - by rewrite Hh', Hh, app_assoc.
  - by apply Forall_app.
Qed.

Lemma emits_emit e : P e → emits P (emit e).
Proof. intros He w. exists [e]. simpl. split; [done|]. by constructor. Qed.

Lemma emits_logging lvl msg : P (Log lvl msg) → emits P (logging lvl msg).
Proof. apply emits_emit. Qed.

Lemma emits_fallible c : P (Call c true) → P (Call c false) → emits P (fallible c).
Proof.
  intros Ht Hf w. unfold fallible.
  destruct (script w) as [|[] rest]; simpl;
    eexists [_]; (split; [done|]); by constructor.
Qed.

Lemma emits_new_connection : emits P new_connection.
Proof. intros w. exists []. simpl. by rewrite app_nil_r. Qed.

Lemma emits_close h :
  P (Call (conn_close h) true) → P (Call (conn_close h) false) → emits P (close h).
Proof.
  intros Ht Hf w. unfold close. rewrite bind_unfold. unfold fallible.
  destruct (script w) as [|[] rest]; simpl;
    eexists [_]; (split; [done|]); by constructor.
Qed.

Lemma emits_getitem config section : emits P (getitem config section).
Proof.
  intros w. exists []. unfold getitem. rewrite app_nil_r.
  by destruct (config !! section).
Qed.

Lemma emits_getitem2 config section option : emits P (getitem2 config section option).
Proof.
  apply emits_bind; [apply emits_getitem|]. intros d.
  destruct (d !! option); [apply emits_ret | apply emits_raise].
Qed.

Lemma emits_for_each {A} (l : list A) body :
  (∀ x, x ∈ l → emits P (body x)) → emits P (for_each l body).
Proof.
  induction l as [|x l IH]; intros Hbody; simpl; [apply emits_ret|].
  apply emits_bind; [apply Hbody; by left|].
  intros _. apply IH. intros y Hy. apply Hbody. by right.
Qed.

End EmitsRules.

Lemma emits_mono {A} (P Q : event → Prop) (m : py A) :
  (∀ e, P e → Q e) → emits P m → emits Q m.
Proof.
  intros HPQ Hm w. destruct (Hm w) as (evs & Hh & Hevs).
  exists evs. split; [done|]. by eapply Forall_impl.
Qed.

Lemma emits_new_events {A} P (m : py A) w :
  emits P m → Forall P (new_events w (m w).2).
Proof.
  intros Hm. destruct (Hm w) as (evs & Hh & Hevs).
  by rewrite (new_events_app _ _ _ Hh).
Qed.

(** One step of a proof that a computation emits only [P]-events; the
    side conditions on single events are left to [tac]. *)
Ltac emits_step tac :=
  lazymatch goal with
  | |- emits _ (mret _) => apply emits_ret
  | |- emits _ (raise _) => apply emits_raise
  | |- emits _ (sys_exit _) => apply emits_sys_exit
  | |- emits _ (_ ≫= _) => apply emits_bind; [|intros ?]
  | |- emits _ (try_except _ _) => apply emits_try_except; [|intros ?]
  | |- emits _ (logging _ _) => apply emits_logging; tac
  | |- emits _ (emit _) => apply emits_emit; tac
  | |- emits _ (fallible _) => apply emits_fallible; tac
  | |- emits _ new_connection => apply emits_new_connection
  | |- emits _ (close _) => apply emits_close; tac
  | |- emits _ (getitem _ _) => apply emits_getitem
  | |- emits _ (getitem2 _ _ _) => apply emits_getitem2
  | |- emits _ (if ?b then _ else _) => destruct b
  | |- emits _ (match ?x with _ => _ end) => destruct x
  end.

Ltac emits_auto tac := repeat emits_step tac.

Section SucceedsRules.

Lemma succeeds_mono {A} (m : py A) (R R' : A → list event → Prop) :
  (∀ a evs, R a evs → R' a evs) → succeeds m R → succeeds m R'.
Proof.
  intros HR Hm w Hw. destruct (Hm w Hw) as (a & evs & w' & ? & ? & ? & ?).
  exists a, evs, w'. eauto.
Qed.

Lemma succeeds_ret {A} (a : A) : succeeds (mret a) (λ a' evs, a' = a ∧ evs = []).
Proof. intros w Hw. exists a, [], w. by rewrite app_nil_r. Qed.

Lemma succeeds_bind {A B} (m : py A) (f : A → py B) R1 (R : B → list event → Prop) :
  succeeds m R1 →
  (∀ a evs1, R1 a evs1 → succeeds (f a) (λ b evs2, R b (evs1 ++ evs2)%list)) →
  succeeds (m ≫= f) R.
Proof.
  intros Hm Hf w Hw.
  destruct (Hm w Hw) as (a & evs1 & w1 & Hrun & Hh & Hw1 & HR1).
  destruct (Hf a evs1 HR1 w1 Hw1) as (b & evs2 & w2 & Hrun' & Hh' & Hw2 & HR).
  exists b, (evs1 ++ evs2)%list, w2. rewrite (bind_normal _ _ _ _ _ Hrun).
  by rewrite Hh', Hh, app_assoc.
Qed.

Lemma succeeds_try_except {A} (body : py A) handler R :
  succeeds body R → succeeds (try_except body handler) R.
Proof.
  intros Hm w Hw. destruct (Hm w Hw) as (a & evs & w' & Hrun & ?).
  exists a, evs, w'. unfold try_except. by rewrite Hrun.
Qed.

Lemma succeeds_emit e : succeeds (emit e) (λ _ evs, evs = [e]).
Proof. intros w Hw. by exists (), [e], (World (history w ++ [e]) (script w) (opened w) (open_conns w)). Qed.

Lemma succeeds_logging lvl msg : succeeds (logging lvl msg) (λ _ evs, evs = [Log lvl msg]).
Proof. apply succeeds_emit. Qed.

Lemma succeeds_fallible c : succeeds (fallible c) (λ _ evs, evs = [Call c true]).
Proof.
  intros w Hw. unfold fallible, cooperative in *.
  destruct (script w) as [|b rest]; [by eexists (), _, _|].
  apply Forall_cons in Hw as [<- Hrest]. by eexists (), _, _.
Qed.

Lemma succeeds_new_connection : succeeds new_connection (λ _ evs, evs = []).
Proof.
  intros w Hw. eexists _, [], _. unfold new_connection. split; [done|].
  simpl. by rewrite app_nil_r.
Qed.

Lemma succeeds_close h : succeeds (close h) (λ _ evs, evs = [Call (conn_close h) true]).
Proof.
  intros w Hw. unfold close. rewrite bind_unfold. unfold fallible, cooperative in *.
  destruct (script w) as [|b rest]; [by eexists (), _, _|].
  apply Forall_cons in Hw as [<- Hrest]. by eexists (), _, _.
Qed.

Lemma succeeds_getitem (config : config_t) section d :
  config !! section = Some d →
  succeeds (getitem config section) (λ d' evs, d' = d ∧ evs = []).
Proof.
  intros Hd w Hw. exists d, [], w. unfold getitem. by rewrite Hd, app_nil_r.
Qed.

Lemma succeeds_getitem2 (config : config_t) section option d v :
  config !! section = Some d → d !! option = Some v →
  succeeds (getitem2 config section option) (λ v' evs, v' = v ∧ evs = []).
Proof.
  intros Hd Hv. eapply succeeds_bind; [by apply succeeds_getitem|].
  intros ? ? [-> ->]. rewrite Hv. apply succeeds_ret.
Qed.

End SucceedsRules.

Lemma valid_config_lookup config section option :
  valid_config config → (section, option) ∈ checks →
  ∃ d v, config !! section = Some d ∧ d !! option = Some v.
Proof.
  unfold valid_config. rewrite Forall_forall. intros Hall Hin.
  specialize (Hall _ Hin). unfold has_option in Hall. simpl in Hall.
  destruct (config !! section) as [d|]; [|done].
  apply bool_decide_eq_true in Hall as [v Hv]. eauto.
Qed.

Lemma example_config_valid : valid_config example_config.
Proof. unfold valid_config. by repeat constructor. Qed.

(** ** The payload parser *)

Lemma unpack_wellformed key body :
  Str.contains ":" key = false →
  unpack_payload (key +:+ ":" +:+ body) = (Some key, Some body).
Proof.
  intros Hkey. unfold unpack_payload, Str.split1.
  change (":" +:+ body) with (String ":" body).
  by rewrite StrFacts.partition_first_app.
Qed.

Lemma unpack_malformed raw :
  malformed raw →
  falsy (unpack_payload raw).1 || falsy (unpack_payload raw).2 = true.
Proof.
  unfold unpack_payload, Str.split1.
  intros [Hnone | [[body ->] | (key & Hkey & ->)]].
  - apply StrFacts.partition_first_none in Hnone. by rewrite Hnone.
  - reflexivity.
  - change ":" with (String ":" EmptyString) at 2.
    rewrite StrFacts.partition_first_app by done. simpl.
    by rewrite orb_true_r.
Qed.

(** The discard test of [republish_message] fires on malformed payloads
    and on no others. *)
Lemma unpack_discards_iff raw :
  falsy (unpack_payload raw).1 || falsy (unpack_payload raw).2 = true ↔ malformed raw.
Proof.
  split; [|apply unpack_malformed].
  unfold unpack_payload, Str.split1, malformed.
  destruct (Str.partition_first ":" raw) as [[key body]|] eqn:Hsplit.
  - apply StrFacts.partition_first_some in Hsplit as [-> Hkey]. simpl.
    destruct key as [|c key]; simpl.
    + intros _. right. left. by exists body.
    + destruct body; simpl; [|done]. intros _. right. right. eauto.
  - intros _. left. by apply StrFacts.partition_first_none.
Qed.

Lemma republish_malformed int conn config raw :
  malformed raw →
  republish_message int conn config raw
  = (acquire_connection int conn config ≫= λ _, discard_malformed raw).
Proof.
  intros Hraw%unpack_malformed. unfold republish_message.
  destruct (unpack_payload raw) as [routing_key message]. simpl in Hraw.
  by rewrite Hraw.
Qed.

Lemma republish_wellformed int conn config key body :
  key ≠ EmptyString → body ≠ EmptyString → Str.contains ":" key = false →
  republish_message int conn config (key +:+ ":" +:+ body)
  = (acquire_connection int conn config ≫= λ acquired : bool * nat,
     attempt acquired.2 config key body (key +:+ ":" +:+ body);;
     if acquired.1 then close acquired.2 else mret ()).
Proof.
  intros Hkey Hbody Hcolon. unfold republish_message.
  rewrite unpack_wellformed by done. simpl.
  apply StrFacts.truthy_true in Hkey, Hbody. by rewrite Hkey, Hbody.
Qed.

(** ** What the functions of the bridge add to the history *)

Lemma emits_connect_rabbitmq P int config :
  (∀ lvl msg, P (Log lvl msg)) →
  (∀ host port vhost user pass ok,
     P (Call (pika_BlockingConnection host port vhost user pass) ok)) →
  emits P (connect_rabbitmq int config).
Proof. intros Hlog Hconn. unfold connect_rabbitmq. emits_auto ltac:(by auto). Qed.

Lemma emits_acquire_connection P int conn config :
  (∀ lvl msg, P (Log lvl msg)) →
  (∀ host port vhost user pass ok,
     P (Call (pika_BlockingConnection host port vhost user pass) ok)) →
  emits P (acquire_connection int conn config).
Proof.
  intros Hlog Hconn. destruct conn; simpl; [apply emits_ret|].
  apply emits_bind; [by apply emits_connect_rabbitmq|]. intros ?. apply emits_ret.
Qed.

Lemma emits_publish P h config routing_key message :
  (∀ lvl msg, P (Log lvl msg)) →
  (∀ ok, P (Call (conn_channel h) ok)) →
  (∀ exchange type ok, P (Call (channel_exchange_declare h exchange type) ok)) →
  (∀ queue ok, P (Call (channel_queue_declare h queue) ok)) →
  (∀ exchange ok, P (Call (channel_basic_publish h exchange routing_key message) ok)) →
  emits P (publish h config routing_key message).
Proof. intros. unfold publish. emits_auto ltac:(by auto). Qed.

Lemma emits_discard_malformed P raw :
  (∀ lvl msg, P (Log lvl msg)) → emits P (discard_malformed raw).
Proof. intros. unfold discard_malformed. emits_auto ltac:(by auto). Qed.

Lemma emits_discard_unpublished P name raw :
  (∀ lvl msg, P (Log lvl msg)) → emits P (discard_unpublished name raw).
Proof. intros. unfold discard_unpublished. emits_auto ltac:(by auto). Qed.

Lemma emits_attempt P h config key body raw :
  (∀ lvl msg, P (Log lvl msg)) →
  (∀ ok, P (Call (conn_channel h) ok)) →
  (∀ exchange type ok, P (Call (channel_exchange_declare h exchange type) ok)) →
  (∀ queue ok, P (Call (channel_queue_declare h queue) ok)) →
  (∀ exchange ok, P (Call (channel_basic_publish h exchange key body) ok)) →
  emits P (attempt h config key body raw).
Proof.
  intros. unfold attempt. apply emits_try_except; [by apply emits_publish|].
  intros _. apply emits_bind; [apply emits_getitem2|]. intros name.
  by apply emits_discard_unpublished.
Qed.

Lemma succeeds_getitem2_valid config section option :
  valid_config config → (section, option) ∈ checks →
  succeeds (getitem2 config section option) (λ _ evs, evs = []).
Proof.
  intros Hvalid Hin.
  destruct (valid_config_lookup _ _ _ Hvalid Hin) as (d & v & Hd & Hv).
  eapply succeeds_mono; [|by eapply succeeds_getitem2]. by intros ? ? [_ ->].
Qed.

Lemma publish_succeeds h config routing_key message d exchange :
  valid_config config →
  config !! "rabbitmq" = Some d → d !! "exchange" = Some exchange →
  succeeds (publish h config routing_key message)
    (λ _ evs, Call (channel_basic_publish h exchange routing_key message) true ∈ evs).
Proof.
  intros Hvalid Hd Hex. unfold publish.
  eapply succeeds_bind; [apply succeeds_fallible|]. intros _ ? ->.
  eapply succeeds_bind; [by eapply succeeds_getitem2|]. intros ? ? [-> ->].
  eapply (succeeds_bind _ _ (λ _ _, True)).
  { destruct (Str.truthy exchange).
    - eapply succeeds_bind; [by eapply succeeds_getitem2|]. intros ? ? [-> ->].
      eapply succeeds_bind.
      { apply succeeds_getitem2_valid; [done|]. unfold checks. set_solver. }
      intros ? ? ->. eapply succeeds_mono; [|apply succeeds_fallible]. done.
    - eapply succeeds_mono; [|apply succeeds_ret]. done. }
  intros _ evs1 _.
  eapply succeeds_bind; [by eapply succeeds_getitem|]. intros ? ? [-> ->].
  eapply (succeeds_bind _ _ (λ _ _, True)).
  { destruct (bool_decide (is_Some (d !! "queue"))) eqn:Hq.
    - apply bool_decide_eq_true in Hq as [queue Hq].
      eapply succeeds_bind; [by eapply succeeds_getitem2|]. intros ? ? [-> ->].
      eapply succeeds_mono; [|apply succeeds_fallible]. done.
    - eapply succeeds_mono; [|apply succeeds_ret]. done. }
  intros _ evs2 _.
  eapply succeeds_bind; [by eapply succeeds_getitem2|]. intros ? ? [-> ->].
  eapply succeeds_bind; [apply succeeds_fallible|]. intros _ ? ->.
  eapply succeeds_bind.
  { apply succeeds_getitem2_valid; [done|]. unfold checks. set_solver. }
  intros name ? ->.
  eapply succeeds_bind; [apply succeeds_logging|]. intros _ ? ->.
  eapply succeeds_bind; [apply succeeds_logging|]. intros _ ? ->.
  eapply succeeds_mono; [|apply succeeds_logging]. intros _ ? ->.
  rewrite !elem_of_app, !elem_of_cons. tauto.
Qed.

Lemma publish_publishes_once h config routing_key message d exchange :
  valid_config config →
  config !! "rabbitmq" = Some d → d !! "exchange" = Some exchange →
  succeeds (publish h config routing_key message)
    (λ _ evs, List.filter published evs
              = [Call (channel_basic_publish h exchange routing_key message) true]).
Proof.
  intros Hvalid Hd Hex. unfold publish.
  eapply succeeds_bind; [apply succeeds_fallible|]. intros _ ? ->.
  eapply succeeds_bind; [by eapply succeeds_getitem2|]. intros ? ? [-> ->].
  eapply (succeeds_bind _ _ (λ _ evs, List.filter published evs = [])).
  { destruct (Str.truthy exchange).
    - eapply succeeds_bind; [by eapply succeeds_getitem2|]. intros ? ? [-> ->].
      eapply succeeds_bind.
      { apply succeeds_getitem2_valid; [done|]. unfold checks. set_solver. }
      intros ? ? ->. eapply succeeds_mono; [|apply succeeds_fallible]. by intros _ ? ->.
    - eapply succeeds_mono; [|apply succeeds_ret]. by intros _ ? [_ ->]. }
  intros _ evs1 Hevs1.
  eapply succeeds_bind; [by eapply succeeds_getitem|]. intros ? ? [-> ->].
  eapply (succeeds_bind _ _ (λ _ evs, List.filter published evs = [])).
  { destruct (bool_decide (is_Some (d !! "queue"))) eqn:Hq.
    - apply bool_decide_eq_true in Hq as [queue Hq].
      eapply succeeds_bind; [by eapply succeeds_getitem2|]. intros ? ? [-> ->].
      eapply succeeds_mono; [|apply succeeds_fallible]. by intros _ ? ->.
    - eapply succeeds_mono; [|apply succeeds_ret]. by intros _ ? [_ ->]. }
  intros _ evs2 Hevs2.
  eapply succeeds_bind; [by eapply succeeds_getitem2|]. intros ? ? [-> ->].
  eapply succeeds_bind; [apply succeeds_fallible|]. intros _ ? ->.
  eapply succeeds_bind.
  { apply succeeds_getitem2_valid; [done|]. unfold checks. set_solver. }
  intros name ? ->.
  eapply succeeds_bind; [apply succeeds_logging|]. intros _ ? ->.
  eapply succeeds_bind; [apply succeeds_logging|]. intros _ ? ->.
  eapply succeeds_mono; [|apply succeeds_logging]. intros _ ? ->.
  rewrite !List.filter_app, Hevs1, Hevs2. reflexivity.
Qed.

(** C1.  A notification [key:body] whose key (the text before the first
    colon) and body are not empty is split into exactly that routing key
    and that body, colons of the body included; every [basic_publish]
    that [republish_message] then makes carries this routing key and this
    body; and once it holds its broker connection, in a world that lets
    the calls succeed and with a valid configuration, it does publish
    them to the configured exchange. *)
Theorem wellformed_payload_published int conn config key body w :
  key ≠ EmptyString → body ≠ EmptyString → Str.contains ":" key = false →
  unpack_payload (key +:+ ":" +:+ body) = (Some key, Some body)
  ∧ Forall (publishes_only key body)
      (new_events w (republish_message int conn config (key +:+ ":" +:+ body) w).2)
  ∧ ∀ closing h w1 d exchange,
      acquire_connection int conn config w = (Normal (closing, h), w1) →
      cooperative w1 → valid_config config →
      config !! "rabbitmq" = Some d → d !! "exchange" = Some exchange →
      Call (channel_basic_publish h exchange key body) true
        ∈ new_events w (republish_message int conn config (key +:+ ":" +:+ body) w).2.
Proof.
  intros Hkey Hbody Hcolon. split; [by apply unpack_wellformed|].
  rewrite republish_wellformed by done. split.
  - apply emits_new_events.
    apply emits_bind; [by apply emits_acquire_connection|]. intros [closing h].
    apply emits_bind.
    + apply emits_attempt; by simpl.
    + intros _. simpl. destruct closing; [by apply emits_close | apply emits_ret].
  - intros closing h w1 d exchange Hacq Hcoop Hvalid Hd Hex.
    rewrite (bind_normal _ _ _ _ _ Hacq). simpl.
    destruct (emits_acquire_connection (λ _, True) int conn config
                ltac:(done) ltac:(done) w) as (evs0 & Hh0 & _).
    rewrite Hacq in Hh0. simpl in Hh0.
    destruct (publish_succeeds h config key body d exchange Hvalid Hd Hex w1 Hcoop)
      as ([] & evs & w2 & Hrun & Hh & _ & Hin).
    rewrite bind_unfold. unfold attempt, try_except. rewrite Hrun.
    assert (∃ evs', history ((if closing then close h else mret ()) w2).2
                    = (history w2 ++ evs')%list) as [evs' Hh'].
    { destruct closing; simpl; [|exists []; by rewrite app_nil_r].
      destruct (emits_close (λ _, True) h I I w2) as (evs' & Hh' & _). by exists evs'. }
    destruct ((if closing then close h else mret ()) w2) as [r w3]. simpl in *.
    erewrite new_events_app.
    2:{ rewrite Hh', Hh, Hh0, <- !app_assoc. reflexivity. }
    rewrite !elem_of_app. tauto.
Qed.

Lemma wellformed_payload_published_witness :
  unpack_payload "orders:item:42" = (Some "orders", Some "item:42")
  ∧ Call (channel_basic_publish 0 "ex1" "orders" "item:42") true
      ∈ new_events (fresh_world [])
          (republish_message example_int (Some 0%nat) example_config
             "orders:item:42" (fresh_world [])).2.
Proof.
  destruct (wellformed_payload_published example_int (Some 0%nat) example_config
              "orders" "item:42" (fresh_world []))
    as (Hparse & _ & Hpublish); [done | done | reflexivity |].
  split; [exact Hparse|].
  eapply (Hpublish false 0%nat (fresh_world [])).
  - reflexivity.
  - constructor.
  - apply example_config_valid.
  - reflexivity.
  - reflexivity.
Defined.

Lemma discard_malformed_run raw w :
  discard_malformed raw w
  = (Normal (),
     World (history w ++ [Log WARNING "Improperly formatted message received; discarding.";
                          Log INFO ("Message content: " +:+ raw)])
           (script w) (opened w) (open_conns w)).
Proof.
  unfold discard_malformed, logging, emit. rewrite bind_unfold. simpl.
  by rewrite <- app_assoc.
Qed.

(** C2.  On a notification without a colon, or with nothing before or
    nothing after its first colon, [republish_message] obtains its
    connection as for any message (the handle it was given in persistent
    mode, a new connection in ephemeral mode) and then logs the warning,
    logs the payload, and returns: with a persistent handle, and in
    ephemeral mode once the connection is made, the result is the normal
    return and the history grows by exactly these two records (and the
    connect records before them).  In no case is a channel opened, an
    exchange or queue declared, or anything published. *)
Theorem malformed_payload_discarded int conn config raw w :
  malformed raw →
  republish_message int conn config raw w
    = (acquire_connection int conn config ≫= λ _, discard_malformed raw) w
  ∧ (∀ h, conn = Some h →
       republish_message int conn config raw w
       = (Normal (),
          World (history w ++ [Log WARNING "Improperly formatted message received; discarding.";
                               Log INFO ("Message content: " +:+ raw)])
                (script w) (opened w) (open_conns w)))
  ∧ (∀ h w1, conn = None → connect_rabbitmq int config w = (Normal h, w1) →
       republish_message int conn config raw w
       = (Normal (),
          World (history w1 ++ [Log WARNING "Improperly formatted message received; discarding.";
                                Log INFO ("Message content: " +:+ raw)])
                (script w1) (opened w1) (open_conns w1)))
  ∧ Forall (λ e, ¬ publish_path_call e)
      (new_events w (republish_message int conn config raw w).2).
Proof.
  intros Hraw. rewrite republish_malformed by done. repeat split.
  - intros h ->. simpl. rewrite bind_unfold. simpl. apply discard_malformed_run.
  - intros h w1 -> Hconn. simpl. rewrite !bind_unfold, Hconn. simpl.
    apply discard_malformed_run.
  - apply emits_new_events. apply emits_bind.
    + apply emits_acquire_connection; by auto.
    + intros _. apply emits_discard_malformed. by auto.
Qed.

Lemma malformed_payload_discarded_witness :
  republish_message example_int (Some 0%nat) example_config "noseparator" (fresh_world [])
  = (Normal (),
     World [Log WARNING "Improperly formatted message received; discarding.";
            Log INFO "Message content: noseparator"] [] 0 ∅)
  ∧ Forall (λ e, ¬ publish_path_call e)
      (new_events (fresh_world [])
         (republish_message example_int None example_config ":payload" (fresh_world [])).2).
Proof.
  split.
  - refine (proj1 (proj2 (malformed_payload_discarded example_int (Some 0%nat)
                            example_config "noseparator" (fresh_world []) _)) 0%nat eq_refl).
    left. reflexivity.
  - refine (proj2 (proj2 (proj2 (malformed_payload_discarded example_int None
                            example_config ":payload" (fresh_world []) _)))).
    right. left. by exists "payload".
Defined.

(** ** Opening the broker connection *)

Ltac py_unfold :=
  unfold sys_exit, getitem2, logging in *;
  unfold try_except, getitem, emit, fallible, new_connection,
    close, raise, mbind, py_bind, mret, py_ret in *.

Lemma getitem2_cases config section option w :
  (∃ v, getitem2 config section option w = (Normal v, w))
  ∨ (∃ key, getitem2 config section option w = (Raised (KeyError key), w)).
Proof.
  unfold getitem2, getitem. rewrite bind_unfold.
  destruct (config !! section) as [d|]; [|by eauto].
  destruct (d !! option); by eauto.
Qed.

Lemma fallible_cases c w :
  (∃ rest, fallible c w
           = (Normal (), World (history w ++ [Call c true]) rest (opened w) (open_conns w)))
  ∨ (∃ rest, fallible c w
             = (Raised (LibraryError c),
                World (history w ++ [Call c false]) rest (opened w) (open_conns w))).
Proof. unfold fallible. destruct (script w) as [|[] rest]; by eauto. Qed.

(** [close] returns unless the world makes it raise. *)
Lemma close_cases h w :
  (head (script w) ≠ Some false
   ∧ close h w = (Normal (),
                  World (history w ++ [Call (conn_close h) true]) (tail (script w))
                        (opened w) (open_conns w ∖ {[h]})))
  ∨ (head (script w) = Some false
     ∧ close h w = (Raised (LibraryError (conn_close h)),
                    World (history w ++ [Call (conn_close h) false]) (tail (script w))
                          (opened w) (open_conns w))).
Proof.
  unfold close. rewrite bind_unfold. unfold fallible.
  destruct (script w) as [|[] rest]; simpl; [left | left | right]; by split.
Qed.

(** One step of a case analysis along a computation: the next lookup or
    library call either goes through or raises. *)
Ltac py_case :=
  rewrite ?bind_unfold;
  lazymatch goal with
  | |- context [getitem2 ?c ?s ?o ?w] =>
      let v := fresh "v" in let k := fresh "k" in let H := fresh "H" in
      destruct (getitem2_cases c s o w) as [[v H] | [k H]]; rewrite H; clear H;
      cbv beta iota
  | |- context [fallible ?c ?w] =>
      let r := fresh "rest" in let H := fresh "H" in
      destruct (fallible_cases c w) as [[r H] | [r H]]; rewrite H; clear H;
      cbv beta iota
  end.

Lemma connect_rabbitmq_normal int config w h w1 :
  connect_rabbitmq int config w = (Normal h, w1) →
  h = opened w ∧ opened w1 = S (opened w) ∧ open_conns w1 = {[h]} ∪ open_conns w
  ∧ ∃ c, broker_connected (Call c true) = true
       ∧ history w1 = (history w ++ [Log DEBUG "Connecting to the RabbitMQ broker.";
                                     Call c true;
                                     Log INFO "Connection to RabbitMQ established."])%list.
Proof.
  unfold connect_rabbitmq. rewrite bind_unfold. unfold logging, emit. cbv beta iota.
  unfold try_except, sys_exit, raise, new_connection.
  do 2 (try py_case);
    try (rewrite ?bind_unfold;
         match goal with |- context [int ?x] => destruct (int x) end;
         rewrite ?bind_unfold; cbv beta iota delta [mret py_ret]);
    do 4 (try py_case); rewrite ?bind_unfold; cbv beta iota;
    intros [=]; subst; simpl;
    (split_and!; [done..|]);
    eexists (pika_BlockingConnection _ _ _ _ _);
    (split; [done|]); by rewrite <- !app_assoc.
Qed.

Lemma connect_rabbitmq_raised int config w e w1 :
  connect_rabbitmq int config w = (Raised e, w1) →
  e = SystemExit 1 ∧ opened w1 = opened w ∧ open_conns w1 = open_conns w
  ∧ ∃ evs, history w1 = (history w ++ evs
                         ++ [Log CRITICAL "Could not connect to RabbitMQ broker.";
                             Log CRITICAL "Unable to continue; exiting."])%list
         ∧ Forall (λ e, broker_connected e = false ∧ ¬ publish_path_call e
                        ∧ broker_closed e = false) evs.
Proof.
  unfold connect_rabbitmq. rewrite bind_unfold. unfold logging, emit. cbv beta iota.
  unfold try_except, sys_exit, raise, new_connection.
  do 2 (try py_case);
    try (rewrite ?bind_unfold;
         match goal with |- context [int ?x] => destruct (int x) end;
         rewrite ?bind_unfold; cbv beta iota delta [mret py_ret]);
    do 4 (try py_case); rewrite ?bind_unfold; cbv beta iota;
    intros [=]; subst; simpl;
    (split_and!; [done..|]);
    first [ exists [Log DEBUG "Connecting to the RabbitMQ broker."];
            split; [by rewrite <- !app_assoc|]
          | eexists [Log DEBUG "Connecting to the RabbitMQ broker."; Call _ false];
            split; [by rewrite <- !app_assoc|] ];
    rewrite ?Forall_cons, Forall_nil; simpl; tauto.
Qed.

(** ** Rules for the connection frame and for normal return *)

Section KeepsRules.

Lemma keeps_ret {A} (a : A) : keeps_conns (mret a).
Proof. by intros w. Qed.

Lemma keeps_raise {A} e : keeps_conns (raise (A:=A) e).
Proof. by intros w. Qed.

Lemma keeps_bind {A B} (m : py A) (f : A → py B) :
  keeps_conns m → (∀ a, keeps_conns (f a)) → keeps_conns (m ≫= f).
Proof.
  intros Hm Hf w. rewrite bind_unfold. destruct (Hm w) as [Ho Hc].
  destruct (m w) as [[a|e] w1]; simpl in *; [|done].
  destruct (Hf a w1) as [Ho' Hc']. by rewrite Ho', Hc'.
Qed.

Lemma keeps_try_except {A} (body : py A) handler :
  keeps_conns body → (∀ e, keeps_conns (handler e)) →
  keeps_conns (try_except body handler).
Proof.
  intros Hm Hf w. unfold try_except. destruct (Hm w) as [Ho Hc].
  destruct (body w) as [[a|e] w1]; simpl in *; [done|].
  destruct (Hf e w1) as [Ho' Hc']. by rewrite Ho', Hc'.
Qed.

Lemma keeps_emit e : keeps_conns (emit e).
Proof. by intros w. Qed.

Lemma keeps_logging lvl msg : keeps_conns (logging lvl msg).
Proof. by intros w. Qed.

Lemma keeps_fallible c : keeps_conns (fallible c).
Proof. intros w. unfold fallible. by destruct (script w) as [|[] ?]. Qed.

Lemma keeps_getitem config section : keeps_conns (getitem config section).
Proof. intros w. unfold getitem. by destruct (config !! section). Qed.

Lemma keeps_getitem2 config section option : keeps_conns (getitem2 config section option).
Proof.
  apply keeps_bind; [apply keeps_getitem|]. intros d.
  destruct (d !! option); [apply keeps_ret | apply keeps_raise].
Qed.

End KeepsRules.

Ltac keeps_step :=
  lazymatch goal with
  | |- keeps_conns (mret _) => apply keeps_ret
  | |- keeps_conns (raise _) => apply keeps_raise
  | |- keeps_conns (sys_exit _) => apply keeps_raise
  | |- keeps_conns (_ ≫= _) => apply keeps_bind; [|intros ?]
  | |- keeps_conns (try_except _ _) => apply keeps_try_except; [|intros ?]
  | |- keeps_conns (logging _ _) => apply keeps_logging
  | |- keeps_conns (emit _) => apply keeps_emit
  | |- keeps_conns (fallible _) => apply keeps_fallible
  | |- keeps_conns (getitem _ _) => apply keeps_getitem
  | |- keeps_conns (getitem2 _ _ _) => apply keeps_getitem2
  | |- keeps_conns (if ?b then _ else _) => destruct b
  | |- keeps_conns (match ?x with _ => _ end) => destruct x
  end.

Section ReturnsRules.

Lemma returns_ret {A} (a : A) : returns (mret a).
Proof. intros w. by exists a, w. Qed.

Lemma returns_bind {A B} (m : py A) (f : A → py B) :
  returns m → (∀ a, returns (f a)) → returns (m ≫= f).
Proof.
  intros Hm Hf w. destruct (Hm w) as (a & w1 & Hrun).
  rewrite (bind_normal _ _ _ _ _ Hrun). apply Hf.
Qed.

Lemma returns_try_except {A} (body : py A) handler :
  (∀ e, returns (handler e)) → returns (try_except body handler).
Proof.
  intros Hh w. unfold try_except.
  destruct (body w) as [[a|e] w1]; [by exists a, w1 | apply Hh].
Qed.

Lemma returns_logging lvl msg : returns (logging lvl msg).
Proof. intros w. by eexists _, _. Qed.

Lemma returns_getitem2 (config : config_t) section option d v :
  config !! section = Some d → d !! option = Some v →
  returns (getitem2 config section option).
Proof.
  intros Hd Hv w. exists v, w. unfold getitem2, getitem.
  rewrite bind_unfold. by rewrite Hd, Hv.
Qed.

End ReturnsRules.

Lemma keeps_publish h config routing_key message :
  keeps_conns (publish h config routing_key message).
Proof. unfold publish. repeat keeps_step. Qed.

Lemma keeps_discard_unpublished name raw : keeps_conns (discard_unpublished name raw).
Proof. unfold discard_unpublished. repeat keeps_step. Qed.

Lemma returns_discard_unpublished name raw : returns (discard_unpublished name raw).
Proof.
  unfold discard_unpublished.
  apply returns_bind; [apply returns_logging|]. intros _. apply returns_logging.
Qed.

Lemma keeps_attempt h config key body raw : keeps_conns (attempt h config key body raw).
Proof.
  unfold attempt. apply keeps_try_except; [apply keeps_publish|]. intros _.
  apply keeps_bind; [apply keeps_getitem2|]. intros ?.
  apply keeps_discard_unpublished.
Qed.

Lemma returns_attempt h (config : config_t) key body raw d name :
  config !! "bridge" = Some d → d !! "name" = Some name →
  returns (attempt h config key body raw).
Proof.
  intros Hd Hname. unfold attempt. apply returns_try_except. intros _.
  apply returns_bind; [by eapply returns_getitem2|]. intros ?.
  apply returns_discard_unpublished.
Qed.

(** ** Ephemeral mode: the connection of one message *)

(** A payload that is not split leaves the connection made for it open:
    the early return comes before the [close]. *)
Lemma ephemeral_malformed_leaves_open int config raw w h w1 :
  malformed raw →
  connect_rabbitmq int config w = (Normal h, w1) →
  ∃ w', republish_message int None config raw w = (Normal (), w')
        ∧ h ∈ open_conns w'
        ∧ Forall (λ e, broker_closed e = false) (new_events w w').
Proof.
  intros Hraw Hconn. rewrite republish_malformed by done. simpl.
  rewrite !bind_unfold, Hconn. simpl. rewrite discard_malformed_run.
  eexists. split; [done|]. simpl.
  apply connect_rabbitmq_normal in Hconn as (-> & _ & Hopen1 & c & Hc & Hh).
  split; [rewrite Hopen1; set_solver|].
  erewrite new_events_app; [|simpl; rewrite Hh, <- app_assoc; reflexivity].
  rewrite !Forall_app, !Forall_cons, Forall_nil. simpl.
  destruct c; simpl in *; try done.
Qed.

(** C3 (the code departs from it).  In ephemeral mode, with the broker
    reachable, the notification [noseparator] makes [republish_message]
    open a connection, log the discard and return, with that connection
    still open and no [close] in the history. *)
Theorem ephemeral_malformed_connection_leak :
  republish_message example_int None example_config "noseparator" (fresh_world [])
  = (Normal (),
     World [Log DEBUG "Connecting to the RabbitMQ broker.";
            Call (pika_BlockingConnection "mq" 5672 "/" "guest" "guest") true;
            Log INFO "Connection to RabbitMQ established.";
            Log WARNING "Improperly formatted message received; discarding.";
            Log INFO "Message content: noseparator"]
           [] 1 {[0%nat]}).
Proof. reflexivity. Qed.

(** ** The drain loop *)

Lemma list_pop_nil {A} : list_pop (@nil A) = None.
Proof. reflexivity. Qed.

Lemma list_pop_snoc {A} (l : list A) x : list_pop (l ++ [x]) = Some (x, l).
Proof. unfold list_pop. by rewrite last_snoc, removelast_last. Qed.

Lemma drain_nil callback conn_rabbitmq config :
  drain callback conn_rabbitmq config [] = mret [].
Proof. by rewrite drain_equation_1. Qed.

Lemma drain_snoc callback conn_rabbitmq config notifies notify w :
  drain callback conn_rabbitmq config (notifies ++ [notify]) w
  = (callback conn_rabbitmq config (payload notify);;
     drain callback conn_rabbitmq config notifies) w.
Proof.
  rewrite drain_equation_1. unfold drain_unfold_clause_1.
  destruct (inspect (list_pop (notifies ++ [notify]))) as [popped Hpop].
  pose proof (list_pop_snoc notifies notify) as Hsnoc.
  destruct popped as [[n rest]|]; [|congruence].
  assert (n = notify ∧ rest = notifies) as [-> ->] by (split; congruence).
  reflexivity.
Qed.

Lemma bind_assoc {A B C} (m : py A) (f : A → py B) (g : B → py C) w :
  ((m ≫= f) ≫= g) w = (m ≫= λ a, f a ≫= g) w.
Proof. rewrite !bind_unfold. by destruct (m w) as [[a|e] w1]. Qed.

(** The drain loop calls the callback once for each buffered
    notification, the most recent first, and leaves the buffer empty. *)
Lemma drain_for_each callback conn_rabbitmq config notifies w :
  drain callback conn_rabbitmq config notifies w
  = most_recent_first callback conn_rabbitmq config notifies w.
Proof.
  unfold most_recent_first.
  revert w. induction notifies as [|notify notifies IH] using rev_ind; intros w.
  - by rewrite drain_nil.
  - rewrite drain_snoc, reverse_snoc. simpl. rewrite bind_assoc, !bind_unfold.
    destruct (callback conn_rabbitmq config (payload notify) w) as [[[]|e] w1]; [|done].
    apply IH.
Qed.

Lemma emits_drain P callback conn_rabbitmq config notifies :
  (∀ pg_payload, emits P (callback conn_rabbitmq config pg_payload)) →
  emits P (drain callback conn_rabbitmq config notifies).
Proof.
  intros Hcb w. rewrite drain_for_each.
  revert w. change (emits P (most_recent_first callback conn_rabbitmq config notifies)).
  apply emits_bind; [|intros; apply emits_ret].
  apply emits_for_each. intros; apply Hcb.
Qed.

Lemma emits_poll_loop P callback conn_rabbitmq config selects notifies :
  (∀ lvl msg, P (Log lvl msg)) →
  (∀ pg_payload, emits P (callback conn_rabbitmq config pg_payload)) →
  emits P (poll_loop callback conn_rabbitmq config selects notifies).
Proof.
  intros Hlog Hcb. revert notifies.
  induction selects as [|selected later IH]; intros notifies; simpl.
  - apply emits_ret.
  - apply emits_bind; [|intros; apply IH].
    destruct selected; simpl.
    + apply emits_bind; [by apply emits_logging | intros; apply emits_ret].
    + by apply emits_drain.
Qed.

Lemma keeps_for_each {A} (l : list A) body :
  (∀ x, keeps_conns (body x)) → keeps_conns (for_each l body).
Proof.
  intros Hbody. induction l as [|x l IH]; simpl; [apply keeps_ret|].
  apply keeps_bind; [apply Hbody | intros; apply IH].
Qed.

Lemma keeps_drain callback conn_rabbitmq config notifies :
  (∀ pg_payload, keeps_conns (callback conn_rabbitmq config pg_payload)) →
  keeps_conns (drain callback conn_rabbitmq config notifies).
Proof.
  intros Hcb w. rewrite drain_for_each.
  revert w. change (keeps_conns (most_recent_first callback conn_rabbitmq config notifies)).
  apply keeps_bind; [|intros; apply keeps_ret].
  apply keeps_for_each. intros; apply Hcb.
Qed.

Lemma keeps_poll_loop callback conn_rabbitmq config selects notifies :
  (∀ pg_payload, keeps_conns (callback conn_rabbitmq config pg_payload)) →
  keeps_conns (poll_loop callback conn_rabbitmq config selects notifies).
Proof.
  intros Hcb. revert notifies.
  induction selects as [|selected later IH]; intros notifies; simpl.
  - apply keeps_ret.
  - apply keeps_bind; [|intros; apply IH].
    destruct selected; simpl.
    + apply keeps_bind; [apply keeps_logging | intros; apply keeps_ret].
    + by apply keeps_drain.
Qed.

(** ** Starting a bridge *)

Lemma count_where_app p evs evs' :
  count_where p (evs ++ evs') = (count_where p evs + count_where p evs')%nat.
Proof. unfold count_where. by rewrite List.filter_app, length_app. Qed.

Lemma count_where_none p evs :
  Forall (λ e, p e = false) evs → count_where p evs = 0%nat.
Proof.
  unfold count_where. induction 1 as [|e evs He _ IH]; simpl; [done|].
  by rewrite He.
Qed.

Lemma run_startup int args config selects w :
  run int args config selects w
  = (startup int args config ≫= λ conn_rabbitmq,
     poll conn_rabbitmq config (republish_message int) selects) w.
Proof.
  unfold run, startup. rewrite !bind_unfold.
  destruct (getitem2 config "bridge" "name" w) as [[name|e] w0]; [|done].
  rewrite !bind_unfold.
  destruct (logging INFO _ w0) as [[[]|e] w1]; [|done].
  rewrite !bind_unfold.
  destruct ((if persistent args return py (option nat) then _ else _) w1)
    as [[c|e] w2]; [|done].
  rewrite !bind_unfold.
  destruct (connect_postgres config w2) as [[[]|e] w3]; [|done].
  rewrite !bind_unfold.
  by destruct (register_listen config w3) as [[[]|e] w4].
Qed.

Lemma emits_connect_postgres P config :
  (∀ lvl msg, P (Log lvl msg)) →
  (∀ host port database user pass ok,
     P (Call (psycopg2_connect host port database user pass) ok)) →
  (∀ ok, P (Call conn_set_isolation_level_autocommit ok)) →
  emits P (connect_postgres config).
Proof. intros. unfold connect_postgres. emits_auto ltac:(by auto). Qed.

Lemma emits_register_listen P config :
  (∀ lvl msg, lvl ≠ CRITICAL → P (Log lvl msg)) →
  (∀ ok, P (Call conn_cursor ok)) →
  (∀ sql ok, P (Call (curs_execute sql) ok)) →
  emits P (register_listen config).
Proof.
  intros Hlog Hcur Hexe. unfold register_listen.
  apply emits_bind; [apply emits_getitem2|]. intros channel.
  apply emits_bind; [by apply emits_logging, Hlog|]. intros _.
  apply emits_bind; [|intros _; by apply emits_logging, Hlog].
  apply emits_try_except.
  - apply emits_bind; [by apply emits_fallible|]. intros _. by apply emits_fallible.
  - intros e w. exists []. by rewrite bind_unfold, app_nil_r.
Qed.

Lemma keeps_connect_postgres config : keeps_conns (connect_postgres config).
Proof. unfold connect_postgres. repeat keeps_step. Qed.

Lemma keeps_register_listen config : keeps_conns (register_listen config).
Proof. unfold register_listen. repeat keeps_step. Qed.

Ltac checked := first [done | unfold checks; set_solver].

Lemma succeeds_connect_rabbitmq int (config : config_t) d port p :
  valid_config config →
  config !! "rabbitmq" = Some d → d !! "port" = Some port → int port = Some p →
  succeeds (connect_rabbitmq int config) (λ _ _, True).
Proof.
  intros Hvalid Hd Hport Hint. unfold connect_rabbitmq.
  eapply succeeds_bind; [apply succeeds_logging|]. intros _ ? _.
  eapply succeeds_bind; [|intros conn ? _].
  - apply (succeeds_try_except _ _ (λ _ _, True)).
    eapply succeeds_bind; [apply succeeds_getitem2_valid; checked|]. intros host ? _.
    eapply succeeds_bind; [by eapply succeeds_getitem2|]. intros ? ? [-> ->].
    rewrite Hint.
    eapply succeeds_bind; [apply succeeds_ret|]. intros ? ? [-> ->].
    eapply succeeds_bind; [apply succeeds_getitem2_valid; checked|]. intros vhost ? _.
    eapply succeeds_bind; [apply succeeds_getitem2_valid; checked|]. intros username ? _.
    eapply succeeds_bind; [apply succeeds_getitem2_valid; checked|]. intros password ? _.
    eapply succeeds_bind; [apply succeeds_fallible|]. intros _ ? _.
    eapply succeeds_mono; [|apply succeeds_new_connection]. done.
  - eapply succeeds_bind; [apply succeeds_logging|]. intros _ ? _.
    eapply succeeds_mono; [|apply succeeds_ret]. done.
Qed.

Lemma succeeds_connect_postgres config :
  valid_config config → succeeds (connect_postgres config) (λ _ _, True).
Proof.
  intros Hvalid. unfold connect_postgres.
  eapply succeeds_bind; [apply succeeds_logging|]. intros _ ? _.
  eapply succeeds_bind; [|intros _ ? _].
  - apply (succeeds_try_except _ _ (λ _ _, True)).
    eapply succeeds_bind; [apply succeeds_getitem2_valid; checked|]. intros host ? _.
    eapply succeeds_bind; [apply succeeds_getitem2_valid; checked|]. intros port ? _.
    eapply succeeds_bind; [apply succeeds_getitem2_valid; checked|]. intros database ? _.
    eapply succeeds_bind; [apply succeeds_getitem2_valid; checked|]. intros username ? _.
    eapply succeeds_bind; [apply succeeds_getitem2_valid; checked|]. intros password ? _.
    eapply succeeds_bind; [apply succeeds_fallible|]. intros _ ? _.
    eapply succeeds_mono; [|apply succeeds_fallible]. done.
  - eapply succeeds_mono; [|apply succeeds_logging]. done.
Qed.

Lemma succeeds_register_listen config :
  valid_config config → succeeds (register_listen config) (λ _ _, True).
Proof.
  intros Hvalid. unfold register_listen.
  eapply succeeds_bind; [apply succeeds_getitem2_valid; checked|]. intros channel ? _.
  eapply succeeds_bind; [apply succeeds_logging|]. intros _ ? _.
  eapply succeeds_bind; [|intros _ ? _].
  - apply (succeeds_try_except _ _ (λ _ _, True)).
    eapply succeeds_bind; [apply succeeds_fallible|]. intros _ ? _.
    eapply succeeds_mono; [|apply succeeds_fallible]. done.
  - eapply succeeds_mono; [|apply succeeds_logging]. done.
Qed.

(** ** Persistent mode *)

Lemma malformed_or_wellformed raw :
  malformed raw
  ∨ ∃ key body, key ≠ EmptyString ∧ body ≠ EmptyString
                ∧ Str.contains ":" key = false ∧ raw = key +:+ ":" +:+ body.
Proof.
  destruct (Str.partition_first ":" raw) as [[key body]|] eqn:Hsplit.
  - apply StrFacts.partition_first_some in Hsplit as [-> Hkey].
    destruct key as [|c key]; [left; right; left; by eexists|].
    destruct body as [|c' body]; [left; right; right; by eexists|].
    right. by exists (String c key), (String c' body).
  - left. left. by apply StrFacts.partition_first_none.
Qed.

Lemma republish_persistent_wellformed int h config key body w :
  key ≠ EmptyString → body ≠ EmptyString → Str.contains ":" key = false →
  republish_message int (Some h) config (key +:+ ":" +:+ body) w
  = (attempt h config key body (key +:+ ":" +:+ body);; mret ()) w.
Proof. intros. by rewrite republish_wellformed. Qed.

Lemma emits_republish_persistent int h config pg_payload :
  emits (on_connection h) (republish_message int (Some h) config pg_payload).
Proof.
  destruct (malformed_or_wellformed pg_payload)
    as [Hraw | (key & body & Hkey & Hbody & Hcolon & ->)].
  - rewrite republish_malformed by done. simpl.
    apply emits_bind; [apply emits_ret|]. intros _.
    by apply emits_discard_malformed.
  - intros w. rewrite (republish_persistent_wellformed _ _ _ _ _ _ Hkey Hbody Hcolon).
    revert w. apply emits_bind; [by apply emits_attempt|].
    intros _. apply emits_ret.
Qed.

Lemma keeps_republish_persistent int h config pg_payload :
  keeps_conns (republish_message int (Some h) config pg_payload).
Proof.
  destruct (malformed_or_wellformed pg_payload)
    as [Hraw | (key & body & Hkey & Hbody & Hcolon & ->)].
  - rewrite republish_malformed by done. simpl.
    apply keeps_bind; [apply keeps_ret|]. intros _.
    unfold discard_malformed. repeat keeps_step.
  - intros w. rewrite (republish_persistent_wellformed _ _ _ _ _ _ Hkey Hbody Hcolon).
    revert w. apply keeps_bind; [by apply keeps_attempt|].
    intros _. apply keeps_ret.
Qed.

(** With the bridge name in the configuration, [republish_message] on a
    persistent connection returns normally whatever the notification and
    whatever the broker does. *)
Lemma returns_republish_persistent int h (config : config_t) pg_payload d name :
  config !! "bridge" = Some d → d !! "name" = Some name →
  returns (republish_message int (Some h) config pg_payload).
Proof.
  intros Hd Hname.
  destruct (malformed_or_wellformed pg_payload)
    as [Hraw | (key & body & Hkey & Hbody & Hcolon & ->)].
  - rewrite republish_malformed by done. simpl.
    apply returns_bind; [apply returns_ret|]. intros _.
    unfold discard_malformed.
    apply returns_bind; [apply returns_logging|]. intros _. apply returns_logging.
  - intros w. rewrite (republish_persistent_wellformed _ _ _ _ _ _ Hkey Hbody Hcolon).
    revert w. apply returns_bind; [by eapply returns_attempt|].
    intros _. apply returns_ret.
Qed.

Ltac quiet_tac :=
  unfold quiet, polling_begins; simpl; split_and?;
  first [done | tauto | by intros [=] | by intros ?; simplify_eq].

Lemma emits_startup int args config :
  emits quiet (startup int args config).
Proof.
  unfold startup, connect_rabbitmq, connect_postgres, register_listen.
  apply emits_bind; [apply emits_getitem2|]. intros name.
  apply emits_bind; [apply emits_logging; quiet_tac|]. intros _.
  apply emits_bind.
  { destruct (persistent args); emits_auto quiet_tac. }
  intros c. apply emits_bind; [emits_auto quiet_tac|]. intros _.
  emits_auto quiet_tac.
Qed.

Lemma getitem2_world config section option w :
  (getitem2 config section option w).2 = w.
Proof.
  unfold getitem2, getitem. rewrite bind_unfold.
  destruct (config !! section) as [d|]; [|done]. by destruct (d !! option).
Qed.

Lemma emits_after_connect config (c : option nat) :
  emits (λ e, broker_connected e = false)
    (connect_postgres config;; register_listen config;; mret c).
Proof.
  unfold connect_postgres, register_listen. emits_auto ltac:(by simpl).
Qed.

Lemma keeps_after_connect config (c : option nat) :
  keeps_conns (connect_postgres config;; register_listen config;; mret c).
Proof.
  apply keeps_bind; [apply keeps_connect_postgres|]. intros _.
  apply keeps_bind; [apply keeps_register_listen|]. intros _. apply keeps_ret.
Qed.

Lemma after_connect_result config (c : option nat) w :
  match (connect_postgres config;; register_listen config;; mret c) w with
  | (Normal c', _) => c' = c
  | (Raised _, _) => True
  end.
Proof.
  rewrite bind_unfold. destruct (connect_postgres config w) as [[[]|e] w1]; [|done].
  rewrite bind_unfold. by destruct (register_listen config w1) as [[[]|e] w2].
Qed.

Lemma startup_connects int args config w :
  persistent args = true →
  match startup int args config w with
  | (Normal c, w') =>
      c = Some (opened w) ∧ open_conns w' = {[opened w]} ∪ open_conns w
      ∧ count_where broker_connected (new_events w w') = 1%nat
  | (Raised _, w') => (count_where broker_connected (new_events w w') ≤ 1)%nat
  end.
Proof.
  intros Hp. unfold startup. rewrite Hp, bind_unfold.
  pose proof (getitem2_world config "bridge" "name" w) as Hw0.
  destruct (getitem2 config "bridge" "name" w) as [[name|e] w0]; simpl in Hw0; subst w0.
  2:{ unfold new_events, count_where. rewrite drop_all. simpl. lia. }
  rewrite bind_unfold. unfold logging at 1, emit at 1.
  set (w0 := World _ _ _ _).
  rewrite bind_assoc, bind_unfold.
  destruct (connect_rabbitmq int config w0) as [[h|e] w1] eqn:Hconn.
  - apply connect_rabbitmq_normal in Hconn as (-> & Hopened & Hopen & c & Hc & Hh).
    rewrite bind_unfold. unfold mret at 1, py_ret at 1.
    pose proof (emits_after_connect config (Some (opened w0)) w1) as (evs & Hh2 & Hevs).
    pose proof (keeps_after_connect config (Some (opened w0)) w1) as [_ Hopen2].
    pose proof (after_connect_result config (Some (opened w0)) w1) as Hres.
    destruct ((connect_postgres config;; register_listen config;;
               mret (Some (opened w0))) w1) as [[c'|e] w2]; simpl in *.
    + subst c'. split; [done|]. split; [by rewrite Hopen2, Hopen|].
      erewrite new_events_app; [|rewrite Hh2, Hh; simpl; rewrite <- !app_assoc; done].
      rewrite !count_where_app, (count_where_none _ evs) by done.
      unfold count_where. simpl. by rewrite Hc.
    + erewrite new_events_app; [|rewrite Hh2, Hh; simpl; rewrite <- !app_assoc; done].
      rewrite !count_where_app, (count_where_none _ evs) by done.
      unfold count_where. simpl. by rewrite Hc.
  - apply connect_rabbitmq_raised in Hconn as (-> & _ & _ & evs & Hh & Hevs).
    erewrite new_events_app; [|rewrite Hh; simpl; rewrite <- !app_assoc; done].
    rewrite !count_where_app, (count_where_none _ evs).
    + unfold count_where. simpl. lia.
    + eapply Forall_impl; [done|]. by intros ? [? _].
Qed.

Lemma on_connection_steady h e :
  on_connection h e → broker_connected e = false ∧ broker_closed e = false.
Proof. destruct e as [|[] ?]; simpl; tauto. Qed.

Lemma poll_unfold conn_rabbitmq config callback selects w :
  poll conn_rabbitmq config callback selects w
  = poll_loop callback conn_rabbitmq config selects []
      (World (history w ++ [polling_begins]) (script w) (opened w) (open_conns w)).
Proof. reflexivity. Qed.

Lemma emits_poll_persistent int h config selects :
  emits (on_connection h) (poll_loop (republish_message int) (Some h) config selects []).
Proof.
  apply emits_poll_loop; [done|]. intros. apply emits_republish_persistent.
Qed.

Lemma keeps_poll_persistent int h config selects :
  keeps_conns (poll_loop (republish_message int) (Some h) config selects []).
Proof. apply keeps_poll_loop. intros. apply keeps_republish_persistent. Qed.

(** In persistent mode, whatever the broker answers: at most one
    connect, no close, and after the start only events on the connection
    made at start. *)
Lemma persistent_frame int args config selects w :
  persistent args = true →
  (count_where broker_connected
     (new_events w (run int args config selects w).2) ≤ 1)%nat
  ∧ count_where broker_closed (new_events w (run int args config selects w).2) = 0%nat
  ∧ (∀ c w1, startup int args config w = (Normal c, w1) →
       c = Some (opened w)
       ∧ run int args config selects w
         = poll (Some (opened w)) config (republish_message int) selects w1)
  ∧ (polling_begins ∈ new_events w (run int args config selects w).2 →
     ∃ before after,
       new_events w (run int args config selects w).2
         = (before ++ polling_begins :: after)%list
       ∧ count_where broker_connected before = 1%nat
       ∧ polling_begins ∉ before
       ∧ Forall (on_connection (opened w)) after
       ∧ opened w ∈ open_conns (run int args config selects w).2).
Proof.
  intros Hp. rewrite run_startup, bind_unfold.
  pose proof (startup_connects int args config w Hp) as Hconn.
  destruct (emits_startup int args config w) as (evs1 & Hh1 & Hquiet).
  destruct (startup int args config w) as [[c|e] w1]; simpl in Hh1.
  - destruct Hconn as (-> & Hopen & Hcount).
    rewrite (new_events_app _ _ _ Hh1) in Hcount.
    rewrite poll_unfold.
    set (w2 := World _ _ _ _).
    destruct (emits_poll_persistent int (opened w) config selects w2) as (evs2 & Hh2 & Hon).
    destruct (keeps_poll_persistent int (opened w) config selects w2) as [_ Hopen2].
    assert (new_events w (poll_loop (republish_message int) (Some (opened w)) config
                            selects [] w2).2 = (evs1 ++ polling_begins :: evs2)%list) as Hnew.
    { apply new_events_app. rewrite Hh2. unfold w2. simpl.
      by rewrite Hh1, <- !app_assoc. }
    rewrite Hnew.
    assert (count_where broker_connected evs2 = 0%nat) as Hc2.
    { apply count_where_none. eapply Forall_impl; [done|].
      intros e He. by apply on_connection_steady in He as [? _]. }
    assert (count_where broker_closed evs2 = 0%nat) as Hd2.
    { apply count_where_none. eapply Forall_impl; [done|].
      intros e He. by apply on_connection_steady in He as [_ ?]. }
    assert (count_where broker_closed evs1 = 0%nat) as Hd1.
    { apply count_where_none. eapply Forall_impl; [done|]. by intros e [? _]. }
    assert (polling_begins ∉ evs1) as Hnot.
    { intros Hin. rewrite Forall_forall in Hquiet.
      by destruct (Hquiet _ Hin) as (_ & Hne & _). }
    split_and!.
    + change (polling_begins :: evs2) with ([polling_begins] ++ evs2)%list.
      rewrite !count_where_app, Hc2, Hcount. unfold count_where. simpl. lia.
    + change (polling_begins :: evs2) with ([polling_begins] ++ evs2)%list.
      rewrite !count_where_app, Hd1, Hd2. reflexivity.
    + intros c w1' [= <- <-]. split; [done|]. by rewrite poll_unfold.
    + intros _. exists evs1, evs2. split_and!; try done.
      rewrite Hopen2. unfold w2. simpl. rewrite Hopen. set_solver.
  - simpl. rewrite (new_events_app _ _ _ Hh1) in *. split_and!.
    + exact Hconn.
    + apply count_where_none. eapply Forall_impl; [done|]. by intros ? [? _].
    + by intros c w1' [=].
    + intros Hin. rewrite Forall_forall in Hquiet.
      by destruct (Hquiet _ Hin) as (_ & Hne & _).
Qed.

(** A readable turn hands the connection it was given to the callback,
    once for every notification of the turn. *)
Lemma poll_loop_readable callback conn_rabbitmq config arrived later w :
  poll_loop callback conn_rabbitmq config (readable arrived :: later) [] w
  = (for_each (reverse arrived)
       (λ notify, callback conn_rabbitmq config (payload notify));;
     poll_loop callback conn_rabbitmq config later []) w.
Proof.
  cbn [poll_loop poll_iteration app]. rewrite bind_unfold, drain_for_each.
  unfold most_recent_first. rewrite !bind_unfold.
  by destruct (for_each _ _ w) as [[[]|e] w1].
Qed.

(** On the persistent connection, with the broker answering, a
    notification is published exactly when it is not discarded, once, on
    that connection. *)
Lemma succeeds_republish_persistent int h (config : config_t) d exchange raw :
  valid_config config →
  config !! "rabbitmq" = Some d → d !! "exchange" = Some exchange →
  succeeds (republish_message int (Some h) config raw)
    (λ _ evs, List.filter published evs = expected_publish h exchange {| payload := raw |}).
Proof.
  intros Hvalid Hd Hex.
  destruct (malformed_or_wellformed raw)
    as [Hraw | (key & body & Hkey & Hbody & Hcolon & ->)].
  - rewrite republish_malformed by done. unfold expected_publish. cbn [payload].
    apply unpack_malformed in Hraw.
    destruct (unpack_payload raw) as [routing_key message]. simpl in Hraw. rewrite Hraw.
    cbn [acquire_connection].
    eapply succeeds_bind; [apply succeeds_ret|]. intros ? ? [-> ->].
    unfold discard_malformed.
    eapply succeeds_bind; [apply succeeds_logging|]. intros _ ? ->.
    eapply succeeds_mono; [|apply succeeds_logging]. by intros _ ? ->.
  - intros w Hw. rewrite (republish_persistent_wellformed _ _ _ _ _ _ Hkey Hbody Hcolon).
    revert w Hw. unfold expected_publish. cbn [payload].
    rewrite unpack_wellformed by done.
    apply StrFacts.truthy_true in Hkey as Hk. apply StrFacts.truthy_true in Hbody as Hb.
    cbn [falsy default]. rewrite Hk, Hb. cbn [negb orb].
    eapply succeeds_bind.
    { unfold attempt. apply succeeds_try_except. by eapply publish_publishes_once. }
    intros [] evs Hevs.
    eapply succeeds_mono; [|apply succeeds_ret]. intros _ ? [_ ->].
    by rewrite app_nil_r.
Qed.

Lemma succeeds_for_each_republish int h (config : config_t) d exchange
    (notifies : list Notify) :
  valid_config config →
  config !! "rabbitmq" = Some d → d !! "exchange" = Some exchange →
  succeeds (for_each notifies
              (λ notify, republish_message int (Some h) config (payload notify)))
    (λ _ evs, List.filter published evs = flat_map (expected_publish h exchange) notifies).
Proof.
  intros Hvalid Hd Hex. induction notifies as [|[raw] notifies IH]; simpl.
  - eapply succeeds_mono; [|apply succeeds_ret]. by intros _ ? [_ ->].
  - eapply succeeds_bind; [by eapply succeeds_republish_persistent|]. intros [] evs1 Hevs1.
    eapply succeeds_mono; [|apply IH]. intros [] evs2 Hevs2. simpl in *.
    by rewrite List.filter_app, Hevs1, Hevs2.
Qed.

Lemma succeeds_poll_loop_persistent int h (config : config_t) d exchange selects :
  valid_config config →
  config !! "rabbitmq" = Some d → d !! "exchange" = Some exchange →
  succeeds (poll_loop (republish_message int) (Some h) config selects [])
    (λ notifies evs,
       notifies = []
       ∧ List.filter published evs
         = flat_map (expected_publish h exchange) (processing_order selects)).
Proof.
  intros Hvalid Hd Hex. induction selects as [|selected selects IH].
  - eapply succeeds_mono; [|apply succeeds_ret]. by intros ? ? [-> ->].
  - destruct selected as [|arrived].
    + cbn [poll_loop poll_iteration].
      eapply succeeds_bind.
      { eapply succeeds_bind; [apply succeeds_logging|]. intros _ ? ->.
        eapply succeeds_mono; [|apply succeeds_ret]. intros ? ? [-> ->].
        instantiate (1 := λ notifies evs,
          notifies = [] ∧ evs = [Log DEBUG "Timed out while polling. (this is normal)"]).
        done. }
      intros ? ? [-> ->]. eapply succeeds_mono; [|apply IH].
      intros ? evs [-> Hpub]. split; [done|]. exact Hpub.
    + intros w Hw. rewrite poll_loop_readable. revert w Hw.
      eapply succeeds_bind; [by eapply succeeds_for_each_republish|].
      intros [] evs1 Hevs1. eapply succeeds_mono; [|apply IH].
      intros ? evs2 [-> Hevs2]. split; [done|]. unfold processing_order in *.
      cbn [flat_map]. by rewrite List.filter_app, flat_map_app, Hevs1, Hevs2.
Qed.

(** In persistent mode, with a valid configuration and everything
    answering, [run] publishes what the notifications are due, in the
    order of processing, all on the connection made at start. *)
Lemma persistent_run_publishes int args (config : config_t) d port p exchange selects w :
  persistent args = true → valid_config config →
  config !! "rabbitmq" = Some d → d !! "port" = Some port → int port = Some p →
  d !! "exchange" = Some exchange → cooperative w →
  ∃ w', run int args config selects w = (Normal [], w')
        ∧ count_where broker_connected (new_events w w') = 1%nat
        ∧ List.filter published (new_events w w')
          = flat_map (expected_publish (opened w) exchange) (processing_order selects).
Proof.
  intros Hp Hvalid Hd Hport Hint Hex Hw.
  assert (succeeds (startup int args config) (λ _ _, True)) as Hstart.
  { unfold startup. rewrite Hp.
    eapply succeeds_bind; [apply succeeds_getitem2_valid; checked|]. intros name ? _.
    eapply succeeds_bind; [apply succeeds_logging|]. intros _ ? _.
    eapply (succeeds_bind _ _ (λ _ _, True)).
    { eapply succeeds_bind; [by eapply succeeds_connect_rabbitmq|]. intros h ? _.
      eapply succeeds_mono; [|apply succeeds_ret]. done. }
    intros conn_rabbitmq ? _.
    eapply succeeds_bind; [by apply succeeds_connect_postgres|]. intros _ ? _.
    eapply succeeds_bind; [by apply succeeds_register_listen|]. intros _ ? _.
    eapply succeeds_mono; [|apply succeeds_ret]. done. }
  destruct (Hstart w Hw) as (c & evs1 & w1 & Hrun1 & Hh1 & Hw1 & _).
  pose proof (startup_connects int args config w Hp) as Hconn.
  destruct (emits_startup int args config w) as (evs1' & Hh1' & Hquiet).
  rewrite Hrun1 in Hconn, Hh1'. simpl in Hh1'.
  assert (evs1' = evs1) as -> by (rewrite Hh1 in Hh1'; by apply app_inv_head in Hh1').
  destruct Hconn as (-> & _ & Hcount). rewrite (new_events_app _ _ _ Hh1) in Hcount.
  rewrite run_startup, (bind_normal _ _ _ _ _ Hrun1), poll_unfold.
  set (w2 := World _ _ _ _).
  destruct (succeeds_poll_loop_persistent int (opened w) config d exchange selects
              Hvalid Hd Hex w2 Hw1) as (ns & evs2 & w' & Hrun2 & Hh2 & _ & -> & Hpub).
  exists w'. split; [done|].
  assert (new_events w w' = (evs1 ++ polling_begins :: evs2)%list) as ->.
  { apply new_events_app. rewrite Hh2. unfold w2. simpl. by rewrite Hh1, <- !app_assoc. }
  pose proof (emits_new_events _ _ w2 (emits_poll_persistent int (opened w) config selects))
    as Hon.
  rewrite Hrun2 in Hon. simpl in Hon. rewrite (new_events_app _ _ _ Hh2) in Hon.
  split.
  - change (polling_begins :: evs2) with ([polling_begins] ++ evs2)%list.
    rewrite !count_where_app, Hcount, (count_where_none _ evs2); [done|].
    eapply Forall_impl; [done|]. intros e He. by apply on_connection_steady in He as [? _].
  - change (polling_begins :: evs2) with ([polling_begins] ++ evs2)%list.
    rewrite !List.filter_app, Hpub.
    assert (List.filter published evs1 = []) as ->; [|done].
    clear -Hquiet. induction Hquiet as [|e evs [_ [_ He]] _ IH]; [done|]. simpl.
    rewrite IH. by destruct e as [|[] ?].
Qed.

(** C4.  In persistent mode [run] opens at most one broker connection and
    closes none.  Once polling has begun, the history of the bridge is:
    a start in which the connection was opened exactly once, the record
    that polling begins, and then only events on that one connection (no
    connect, no close, every channel that of the handle made at start),
    which is still open; [run] is then [poll] on that handle, and every
    readable turn of [poll] calls [republish_message] with that handle,
    once for each notification.  With a valid configuration and the
    broker and the database answering, [run] makes exactly one connection
    and publishes on it, one after the other and without connecting
    again, every notification that is not discarded. *)
Theorem persistent_connection_reused int args config selects w :
  persistent args = true →
  (count_where broker_connected
     (new_events w (run int args config selects w).2) ≤ 1)%nat
  ∧ count_where broker_closed (new_events w (run int args config selects w).2) = 0%nat
  ∧ (∀ c w1, startup int args config w = (Normal c, w1) →
       c = Some (opened w)
       ∧ run int args config selects w
         = poll (Some (opened w)) config (republish_message int) selects w1)
  ∧ (polling_begins ∈ new_events w (run int args config selects w).2 →
     ∃ before after,
       new_events w (run int args config selects w).2
         = (before ++ polling_begins :: after)%list
       ∧ count_where broker_connected before = 1%nat
       ∧ polling_begins ∉ before
       ∧ Forall (on_connection (opened w)) after
       ∧ opened w ∈ open_conns (run int args config selects w).2)
  ∧ (∀ arrived later w0,
       poll_loop (republish_message int) (Some (opened w)) config
         (readable arrived :: later) [] w0
       = (for_each (reverse arrived)
            (λ notify, republish_message int (Some (opened w)) config (payload notify));;
          poll_loop (republish_message int) (Some (opened w)) config later []) w0)
  ∧ (∀ d port p exchange,
       valid_config config →
       config !! "rabbitmq" = Some d → d !! "port" = Some port → int port = Some p →
       d !! "exchange" = Some exchange → cooperative w →
       ∃ w', run int args config selects w = (Normal [], w')
             ∧ count_where broker_connected (new_events w w') = 1%nat
             ∧ List.filter published (new_events w w')
               = flat_map (expected_publish (opened w) exchange)
                   (processing_order selects)).
Proof.
  intros Hp.
  destruct (persistent_frame int args config selects w Hp) as (H1 & H2 & H3 & H4).
  split_and!; try done.
  - intros. apply poll_loop_readable.
  - intros. by eapply persistent_run_publishes.
Qed.

Lemma persistent_connection_reused_witness :
  ∃ w',
    run example_int persistent_args example_config
      [readable two_notifications; timed_out; readable two_malformed] (fresh_world [])
    = (Normal [], w')
    ∧ count_where broker_connected (new_events (fresh_world []) w') = 1%nat
    ∧ count_where broker_closed (new_events (fresh_world []) w') = 0%nat
    ∧ List.filter published (new_events (fresh_world []) w')
      = [Call (channel_basic_publish 0 "ex1" "orders" "item:42") true;
         Call (channel_basic_publish 0 "ex1" "events.created" "hello") true].
Proof.
  destruct (persistent_connection_reused example_int persistent_args example_config
              [readable two_notifications; timed_out; readable two_malformed]
              (fresh_world []) eq_refl)
    as (_ & Hclosed & _ & _ & _ & Hpublishes).
  destruct (Hpublishes _ "5672" 5672 "ex1" example_config_valid eq_refl eq_refl eq_refl
              eq_refl ltac:(constructor)) as (w' & Hrun & Hone & Hpub).
  exists w'. rewrite Hrun in Hclosed. by split_and!.
Defined.

(** In persistent mode two notifications of one cycle are published on
    the one connection made at start. *)
Example persistent_two_publishes :
  new_events (fresh_world [])
    (run example_int persistent_args example_config
       [readable two_notifications] (fresh_world [])).2
  = [ Log INFO ("Initiating bridge " +:+ dq +:+ "b1" +:+ dq +:+ ".");
      Log DEBUG "Connecting to the RabbitMQ broker.";
      Call (pika_BlockingConnection "mq" 5672 "/" "guest" "guest") true;
      Log INFO "Connection to RabbitMQ established.";
      Log DEBUG "Connecting to the PostgreSQL server.";
      Call (psycopg2_connect "db" "5432" "app" "pg" "pg") true;
      Call conn_set_isolation_level_autocommit true;
      Log INFO "Connection to PostgreSQL established.";
      Log DEBUG ("Preparing to start listening on channel " +:+ dq +:+ "events" +:+ dq +:+ ".");
      Call conn_cursor true;
      Call (curs_execute "LISTEN events;") true;
      Log INFO ("Listening on channel " +:+ dq +:+ "events" +:+ dq +:+ ".");
      Log INFO "Beginning polling for messages.";
      Call (conn_channel 0) true;
      Call (channel_exchange_declare 0 "ex1" "direct") true;
      Call (channel_basic_publish 0 "ex1" "orders" "item:42") true;
      Log INFO ("Message republished via " +:+ dq +:+ "b1" +:+ dq +:+ " bridge.");
      Log DEBUG "Routing key: orders";
      Log DEBUG "Message: item:42";
      Call (conn_channel 0) true;
      Call (channel_exchange_declare 0 "ex1" "direct") true;
      Call (channel_basic_publish 0 "ex1" "events.created" "hello") true;
      Log INFO ("Message republished via " +:+ dq +:+ "b1" +:+ dq +:+ " bridge.");
      Log DEBUG "Routing key: events.created";
      Log DEBUG "Message: hello" ].
Proof. vm_compute. reflexivity. Qed.

(** ** A publish that fails *)

Lemma discard_unpublished_run name raw w :
  discard_unpublished name raw w
  = (Normal (),
     World (history w ++ [Log WARNING ("Unable to republish message via " +:+ dq +:+ name
                                       +:+ dq +:+ " bridge; discarding.");
                          Log INFO ("Message content: " +:+ raw)])
           (script w) (opened w) (open_conns w)).
Proof.
  unfold discard_unpublished, logging, emit. rewrite bind_unfold. simpl.
  by rewrite <- app_assoc.
Qed.

Lemma attempt_raised h (config : config_t) key body raw w e w2 d name :
  config !! "bridge" = Some d → d !! "name" = Some name →
  publish h config key body w = (Raised e, w2) →
  attempt h config key body raw w
  = (Normal (),
     World (history w2 ++ [Log WARNING ("Unable to republish message via " +:+ dq +:+ name
                                        +:+ dq +:+ " bridge; discarding.");
                           Log INFO ("Message content: " +:+ raw)])
           (script w2) (opened w2) (open_conns w2)).
Proof.
  intros Hd Hname Hrun. unfold attempt, try_except. rewrite Hrun.
  unfold getitem2, getitem. rewrite !bind_unfold, Hd, Hname.
  apply discard_unpublished_run.
Qed.

(** C5, as the code has it.  When the publish path of a notification
    raises (opening the channel, a declaration, [basic_publish] or a
    configuration lookup), the handler logs a warning that names the
    bridge and then logs the original payload at info level; the
    exception of the publish path goes no further.  In persistent mode
    [republish_message] then returns, and the polling loop goes on with
    the other notifications of the cycle and with the later turns.  In
    ephemeral mode it then closes the connection it made for the message,
    outside any handler: when the [close] returns, so does
    [republish_message], and the loop goes on; when the [close] raises,
    its exception leaves [republish_message] and the polling loop, and
    neither the rest of the cycle nor any later turn is processed. *)
Theorem publish_failure_swallowed int conn (config : config_t) key body
    w closing h w1 e w2 d name :
  key ≠ EmptyString → body ≠ EmptyString → Str.contains ":" key = false →
  config !! "bridge" = Some d → d !! "name" = Some name →
  acquire_connection int conn config w = (Normal (closing, h), w1) →
  publish h config key body w1 = (Raised e, w2) →
  let raw := key +:+ ":" +:+ body in
  let logged :=
    World (history w2 ++ [Log WARNING ("Unable to republish message via " +:+ dq +:+ name
                                       +:+ dq +:+ " bridge; discarding.");
                          Log INFO ("Message content: " +:+ raw)])
          (script w2) (opened w2) (open_conns w2) in
  attempt h config key body raw w1 = (Normal (), logged)
  ∧ republish_message int conn config raw w
    = (if closing then close h logged else (Normal (), logged))
  ∧ match republish_message int conn config raw w with
    | (Normal _, after) =>
        (closing = true →
         history after = (history logged ++ [Call (conn_close h) true])%list)
        ∧ ∀ arrived later,
            poll_loop (republish_message int) conn config
              (readable (arrived ++ [{| payload := raw |}]) :: later) [] w
            = (drain (republish_message int) conn config arrived
               ≫= poll_loop (republish_message int) conn config later) after
    | (Raised e', after) =>
        closing = true ∧ e' = LibraryError (conn_close h)
        ∧ history after = (history logged ++ [Call (conn_close h) false])%list
        ∧ ∀ arrived later,
            poll_loop (republish_message int) conn config
              (readable (arrived ++ [{| payload := raw |}]) :: later) [] w
            = (Raised e', after)
    end
  ∧ (closing = false ∨ head (script w2) ≠ Some false →
     ∃ after, republish_message int conn config raw w = (Normal (), after)).
Proof.
  intros Hkey Hbody Hcolon Hd Hname Hacq Hpub raw logged.
  pose proof (attempt_raised h config key body raw w1 e w2 d name Hd Hname Hpub) as Hatt.
  fold logged in Hatt.
  assert (republish_message int conn config raw w
          = (if closing then close h logged else (Normal (), logged))) as Hrun.
  { unfold raw. rewrite republish_wellformed by done.
    rewrite (bind_normal _ _ _ _ _ Hacq). cbn [fst snd].
    rewrite (bind_normal _ _ _ _ _ Hatt). by destruct closing. }
  assert (∀ after, republish_message int conn config raw w = (Normal (), after) →
          ∀ arrived later,
            poll_loop (republish_message int) conn config
              (readable (arrived ++ [{| payload := raw |}]) :: later) [] w
            = (drain (republish_message int) conn config arrived
               ≫= poll_loop (republish_message int) conn config later) after) as Hgo.
  { intros after Hres arrived later. cbn [poll_loop poll_iteration app].
    rewrite bind_unfold, drain_snoc, (bind_normal _ _ _ _ _ Hres).
    by rewrite bind_unfold. }
  assert (∀ e' after, republish_message int conn config raw w = (Raised e', after) →
          ∀ arrived later,
            poll_loop (republish_message int) conn config
              (readable (arrived ++ [{| payload := raw |}]) :: later) [] w
            = (Raised e', after)) as Hstop.
  { intros e' after Hres arrived later. cbn [poll_loop poll_iteration app].
    by rewrite bind_unfold, drain_snoc, (bind_raised _ _ _ _ _ Hres). }
  split; [done|]. split; [done|]. split.
  - destruct closing.
    + destruct (close_cases h logged) as [[_ Hc]|[_ Hc]]; rewrite Hc in Hrun; rewrite Hrun.
      * split; [done|]. by apply Hgo.
      * split_and!; try done. by apply Hstop.
    + rewrite Hrun. split; [done|]. by apply Hgo.
  - intros [-> | Hhead]; [by eauto|]. destruct closing; [|by eauto].
    destruct (close_cases h logged) as [[_ Hc]|[Hc _]]; [|done].
    rewrite Hrun, Hc. by eauto.
Qed.

Lemma publish_failure_swallowed_witness :
  republish_message example_int (Some 0%nat) example_config "events.created:hello"
    (fresh_world [false])
  = (Normal (),
     World [Call (conn_channel 0) false;
            Log WARNING ("Unable to republish message via " +:+ dq +:+ "b1"
                         +:+ dq +:+ " bridge; discarding.");
            Log INFO "Message content: events.created:hello"] [] 0 ∅)
  ∧ republish_message example_int None example_config "events.created:hello"
      (fresh_world [true; false; false])
    = (Raised (LibraryError (conn_close 0)),
       World [Log DEBUG "Connecting to the RabbitMQ broker.";
              Call (pika_BlockingConnection "mq" 5672 "/" "guest" "guest") true;
              Log INFO "Connection to RabbitMQ established.";
              Call (conn_channel 0) false;
              Log WARNING ("Unable to republish message via " +:+ dq +:+ "b1"
                           +:+ dq +:+ " bridge; discarding.");
              Log INFO "Message content: events.created:hello";
              Call (conn_close 0) false] [] 1 {[0%nat]}).
Proof.
  split.
  - refine (proj1 (proj2 (publish_failure_swallowed example_int (Some 0%nat) example_config
                   "events.created" "hello" (fresh_world [false]) false 0%nat
                   (fresh_world [false]) (LibraryError (conn_channel 0))
                   (World [Call (conn_channel 0) false] [] 0 ∅)
                   {[ "name" := "b1" ]} "b1" _ _ _ _ _ _ _))); done.
  - refine (proj1 (proj2 (publish_failure_swallowed example_int None example_config
                   "events.created" "hello" (fresh_world [true; false; false]) true 0%nat
                   (World [Log DEBUG "Connecting to the RabbitMQ broker.";
                           Call (pika_BlockingConnection "mq" 5672 "/" "guest" "guest") true;
                           Log INFO "Connection to RabbitMQ established."]
                      [false; false] 1 {[0%nat]})
                   (LibraryError (conn_channel 0))
                   (World [Log DEBUG "Connecting to the RabbitMQ broker.";
                           Call (pika_BlockingConnection "mq" 5672 "/" "guest" "guest") true;
                           Log INFO "Connection to RabbitMQ established.";
                           Call (conn_channel 0) false] [false] 1 {[0%nat]})
                   {[ "name" := "b1" ]} "b1" _ _ _ _ _ _ _))); done.
Defined.

(** The claim as worded asks for the payload in the warning; it is in the
    info record that follows.  It also has [republish_message] return
    normally after every publish failure; in ephemeral mode a [close] that
    raises after the failure (the broker has dropped the connection) ends
    [republish_message] and the polling loop with that exception, and the
    notification that was waiting behind is not processed. *)
Lemma publish_failure_warning_lacks_payload :
  (publish 0 example_config "events.created" "hello" (fresh_world [false])).1
    = Raised (LibraryError (conn_channel 0))
  ∧ Forall (λ e, warning_including "events.created:hello" e = false)
      (new_events (fresh_world [false])
         (republish_message example_int (Some 0%nat) example_config
            "events.created:hello" (fresh_world [false])).2)
  ∧ Log INFO "Message content: events.created:hello"
      ∈ new_events (fresh_world [false])
          (republish_message example_int (Some 0%nat) example_config
             "events.created:hello" (fresh_world [false])).2
  ∧ (republish_message example_int None example_config "orders:item:42"
       (fresh_world [true; false; false])).1
    = Raised (LibraryError (conn_close 0))
  ∧ (poll_loop (republish_message example_int) None example_config
       [readable two_notifications; timed_out] [] (fresh_world [true; false; false])).1
    = Raised (LibraryError (conn_close 0))
  ∧ Forall (λ e, e ≠ Log INFO "Message content: events.created:hello"
                 ∧ e ≠ Log DEBUG "Message: hello")
      (history (poll_loop (republish_message example_int) None example_config
                  [readable two_notifications; timed_out] []
                  (fresh_world [true; false; false])).2).
Proof.
  split; [reflexivity|]. split; [|split; [|split; [|split]]].
  - vm_compute. repeat constructor.
  - apply list_elem_of_In. vm_compute. repeat first [left; reflexivity | right].
  - vm_compute. reflexivity.
  - vm_compute. reflexivity.
  - vm_compute. repeat (constructor; [split; discriminate|]). constructor.
Qed.

(** ** Drain cycles and idle turns *)

Lemma returns_for_each {A} (l : list A) body :
  (∀ x, returns (body x)) → returns (for_each l body).
Proof.
  intros Hbody. induction l as [|x l IH]; simpl; [apply returns_ret|].
  apply returns_bind; [apply Hbody | intros; apply IH].
Qed.




(** C10.  A turn of the polling loop in which the two-second wait times
    out calls no callback, leaves the buffer and the connections as they
    are, raises nothing, and adds one debug record to the history; the
    loop then takes its next turn, so that any number of idle turns adds
    that many debug records and nothing else. *)
Theorem idle_turn_is_silent callback conn_rabbitmq config notifies later n w :
  poll_iteration callback conn_rabbitmq config timed_out notifies w
    = (Normal notifies,
       World (history w ++ [Log DEBUG "Timed out while polling. (this is normal)"])
             (script w) (opened w) (open_conns w))
  ∧ poll_loop callback conn_rabbitmq config (replicate n timed_out ++ later) notifies w
    = poll_loop callback conn_rabbitmq config later notifies
        (World (history w
                ++ replicate n (Log DEBUG "Timed out while polling. (this is normal)"))
               (script w) (opened w) (open_conns w)).
Proof.
  split; [reflexivity|].
  revert w. induction n as [|n IH]; intros w; simpl.
  - rewrite app_nil_r. by destruct w.
  - rewrite bind_unfold. simpl. rewrite IH. simpl.
    by rewrite <- app_assoc.
Qed.

(** ** Checking a configuration *)

(** The loop over [checks], from any point of the list. *)
Lemma checks_pass (config : ConfigParser.t) (l : list (string * string)) w :
  find (λ check_pair, negb (ConfigParser.has_option config check_pair.1 check_pair.2)) l
    = None →
  for_each l (λ check_pair,
    if negb (ConfigParser.has_option config check_pair.1 check_pair.2) then
      logging CRITICAL ("Missing configuration option " +:+ check_pair.1
                        +:+ ":" +:+ check_pair.2 +:+ ".");;
      logging CRITICAL "Unable to continue; exiting.";;
      sys_exit 1
    else mret ()) w
  = (Normal (), w).
Proof.
  induction l as [|[section name] l IH]; simpl; [done|].
  destruct (negb (ConfigParser.has_option config section name)); [done|]. intros Hfind.
  rewrite bind_unfold. simpl. by apply IH.
Qed.

Lemma checks_fail (config : ConfigParser.t) (l : list (string * string)) section name w :
  find (λ check_pair, negb (ConfigParser.has_option config check_pair.1 check_pair.2)) l
    = Some (section, name) →
  for_each l (λ check_pair,
    if negb (ConfigParser.has_option config check_pair.1 check_pair.2) then
      logging CRITICAL ("Missing configuration option " +:+ check_pair.1
                        +:+ ":" +:+ check_pair.2 +:+ ".");;
      logging CRITICAL "Unable to continue; exiting.";;
      sys_exit 1
    else mret ()) w
  = (Raised (SystemExit 1),
     World (history w ++ [Log CRITICAL ("Missing configuration option " +:+ section
                                        +:+ ":" +:+ name +:+ ".");
                          Log CRITICAL "Unable to continue; exiting."])
           (script w) (opened w) (open_conns w)).
Proof.
  induction l as [|[section' name'] l IH]; simpl; [done|].
  destruct (negb (ConfigParser.has_option config section' name')).
  - intros [= -> ->]. rewrite bind_unfold. unfold logging, emit. simpl.
    by rewrite <- app_assoc.
  - intros Hfind. rewrite bind_unfold. simpl. by apply IH.
Qed.

Lemma first_missing_some config :
  (∃ check_pair, check_pair ∈ checks
                 ∧ ConfigParser.has_option config check_pair.1 check_pair.2 = false)
  ↔ is_Some (first_missing config).
Proof.
  unfold first_missing. generalize checks as l.
  induction l as [|[section name] l IH]; simpl.
  - split; [by intros (? & ?%elem_of_nil & _) | by intros []].
  - destruct (ConfigParser.has_option config section name) eqn:Hhas; simpl.
    + rewrite <- IH. split.
      * intros (p & [->|Hin]%elem_of_cons & Hp); [simpl in Hp; congruence | eauto].
      * intros (p & Hin & Hp). exists p. split; [by right | done].
    + split; [by eauto|]. intros _. exists (section, name). split; [by left | done].
Qed.

Lemma first_missing_none config section name :
  first_missing config = None → (section, name) ∈ checks →
  ConfigParser.has_option config section name = true.
Proof.
  intros Hnone Hin%list_elem_of_In.
  apply (List.find_none _ _ Hnone) in Hin. simpl in Hin.
  by destruct (ConfigParser.has_option config section name).
Qed.

(** *** The copy of lines 104-108 *)

Lemma copy_options_lookup config section names d0 d :
  copy_options config section names d0 = Some d →
  (∀ name, name ∈ names → is_Some (ConfigParser.get config section name))
  ∧ ∀ name, d !! name = if decide (name ∈ names)
                        then ConfigParser.get config section name else d0 !! name.
Proof.
  revert d0. induction names as [|o names IH]; intros d0; cbn [copy_options].
  - intros [= ->]. split; [by intros ? ?%elem_of_nil|]. intros name.
    destruct (decide (name ∈ [])) as [Hin|_]; [by apply elem_of_nil in Hin | done].
  - destruct (ConfigParser.get config section o) as [v|] eqn:Hget; [|done].
    cbn [mbind option_bind]. intros [Hsome Hlook]%IH. split.
    + intros name [->|Hin]%elem_of_cons; [by rewrite Hget | by apply Hsome].
    + intros name. rewrite Hlook.
      destruct (decide (name ∈ names)) as [Hin|Hnin];
        destruct (decide (name ∈ o :: names)) as [Hin'|Hnin']; try done.
      * destruct Hnin'. by right.
      * apply elem_of_cons in Hin' as [->|Hin']; [|done].
        by rewrite lookup_insert_eq.
      * rewrite lookup_insert_ne; [done|]. intros ->. apply Hnin'. by left.
Qed.

Lemma copy_sections_lookup config names c0 c :
  copy_sections config names c0 = Some c →
  (∀ section, section ∈ names →
     is_Some (copy_options config section (ConfigParser.options config section) ∅))
  ∧ ∀ section,
      c !! section
      = if decide (section ∈ names)
        then copy_options config section (ConfigParser.options config section) ∅
        else c0 !! section.
Proof.
  revert c0. induction names as [|s names IH]; intros c0; cbn [copy_sections].
  - intros [= ->]. split; [by intros ? ?%elem_of_nil|]. intros section.
    destruct (decide (section ∈ [])) as [Hin|_]; [by apply elem_of_nil in Hin | done].
  - destruct (copy_options config s (ConfigParser.options config s) ∅) as [d|] eqn:Hcopy;
      [|done].
    cbn [mbind option_bind]. intros [Hsome Hlook]%IH. split.
    + intros section [->|Hin]%elem_of_cons; [by rewrite Hcopy | by apply Hsome].
    + intros section. rewrite Hlook.
      destruct (decide (section ∈ names)) as [Hin|Hnin];
        destruct (decide (section ∈ s :: names)) as [Hin'|Hnin']; try done.
      * destruct Hnin'. by right.
      * apply elem_of_cons in Hin' as [->|Hin']; [|done].
        by rewrite lookup_insert_eq.
      * rewrite lookup_insert_ne; [done|]. intros ->. apply Hnin'. by left.
Qed.

(** The dictionary that [parse_config] returns holds, for the sections of
    the parser and their options, what [get] gave, and nothing else; and
    every such [get] did return. *)
Lemma config_dict_lookup config config_dict section name :
  config_dict_of config = Some config_dict →
  config_dict !! section ≫= (.!! name)
  = (if decide (section ∈ ConfigParser.sections config
                ∧ name ∈ ConfigParser.options config section)
     then ConfigParser.get config section name else None)
  ∧ (section ∈ ConfigParser.sections config →
     name ∈ ConfigParser.options config section →
     is_Some (ConfigParser.get config section name)).
Proof.
  intros [Hsome Hlook]%copy_sections_lookup. rewrite Hlook.
  destruct (decide (section ∈ ConfigParser.sections config)) as [Hs|Hs].
  - destruct (Hsome section Hs) as [d Hd]. rewrite Hd.
    apply copy_options_lookup in Hd as [Hget Hd]. simpl. rewrite Hd.
    split; [|by auto].
    destruct (decide (name ∈ ConfigParser.options config section)) as [Ho|Ho].
    + by rewrite decide_True.
    + rewrite lookup_empty, decide_False; [done | tauto].
  - rewrite lookup_empty. simpl. split; [|done]. rewrite decide_False; [done | tauto].
Qed.

(** A parser that passes the checks and lists what it has gives a
    dictionary with the required options. *)
Lemma config_dict_valid config config_dict :
  first_missing config = None → coherent config →
  config_dict_of config = Some config_dict → valid_config config_dict.
Proof.
  intros Hnone Hcoh Hcopy. unfold valid_config. apply Forall_forall.
  intros [section name] Hin. simpl.
  pose proof (first_missing_none _ _ _ Hnone Hin) as Hhas.
  assert (section ≠ "DEFAULT" ∧ section ≠ EmptyString) as [Hdefault Hempty].
  { unfold checks in Hin.
    repeat (apply elem_of_cons in Hin as [[= -> ->]|Hin]; [done|]).
    by apply elem_of_nil in Hin. }
  destruct (Hcoh _ _ Hdefault Hempty Hhas) as [Hs Ho].
  destruct (config_dict_lookup config config_dict section name Hcopy) as [Hlook Hget].
  rewrite decide_True in Hlook by done.
  destruct (Hget Hs Ho) as [v Hv]. rewrite Hv in Hlook.
  unfold has_option. destruct (config_dict !! section) as [d|]; [|done].
  simpl in Hlook. apply bool_decide_eq_true. by exists v.
Qed.

Section ParseConfig.
Context (config_read : string → option ConfigParser.t).

Lemma parse_config_unread filename w :
  config_read filename = None →
  parse_config config_read filename w
  = (Raised ConfigParserError,
     World (history w ++ [Log DEBUG ("Parsing config file " +:+ filename +:+ ".")])
           (script w) (opened w) (open_conns w)).
Proof.
  intros Hread. unfold parse_config. rewrite bind_unfold.
  unfold logging at 1, emit. by rewrite bind_unfold, Hread.
Qed.

Lemma parse_config_ok filename config w :
  config_read filename = Some config → first_missing config = None →
  parse_config config_read filename w
  = (match config_dict_of config with
     | Some config_dict => Normal config_dict
     | None => Raised ConfigParserError
     end,
     World (history w ++ [Log DEBUG ("Parsing config file " +:+ filename +:+ ".")])
           (script w) (opened w) (open_conns w)).
Proof.
  intros Hread Hnone. unfold parse_config. rewrite bind_unfold.
  unfold logging at 1, emit. rewrite bind_unfold, Hread.
  cbv beta iota delta [mret py_ret]. rewrite bind_unfold.
  rewrite (checks_pass _ _ _ Hnone). unfold config_dict_of.
  by destruct (copy_sections config (ConfigParser.sections config) ∅).
Qed.

Lemma parse_config_missing filename config section name w :
  config_read filename = Some config →
  first_missing config = Some (section, name) →
  parse_config config_read filename w
  = (Raised (SystemExit 1),
     World (history w ++ [Log DEBUG ("Parsing config file " +:+ filename +:+ ".");
                          Log CRITICAL ("Missing configuration option " +:+ section
                                        +:+ ":" +:+ name +:+ ".");
                          Log CRITICAL "Unable to continue; exiting."])
           (script w) (opened w) (open_conns w)).
Proof.
  intros Hread Hsome. unfold parse_config. rewrite bind_unfold.
  unfold logging at 1, emit. rewrite bind_unfold, Hread.
  cbv beta iota delta [mret py_ret]. rewrite bind_unfold.
  rewrite (checks_fail _ _ _ _ _ Hsome). simpl. by rewrite <- app_assoc.
Qed.

(** A file that [parse_config] gets through. *)
Lemma parse_config_loads filename w :
  loads config_read filename →
  parse_config config_read filename w
  = (Normal (parsed config_read filename),
     World (history w ++ [Log DEBUG ("Parsing config file " +:+ filename +:+ ".")])
           (script w) (opened w) (open_conns w))
  ∧ valid_config (parsed config_read filename).
Proof.
  intros (config & Hread & Hnone & Hcoh & [config_dict Hcopy]).
  rewrite (parse_config_ok _ _ _ Hread Hnone). unfold parsed.
  rewrite Hread. simpl. rewrite Hcopy. simpl. split; [done|].
  by eapply config_dict_valid.
Qed.

(** Whatever the file, [parse_config] starts no process. *)
Lemma emits_parse_config filename :
  emits (λ e, process_started e = false) (parse_config config_read filename).
Proof.
  unfold parse_config.
  apply emits_bind; [by apply emits_logging|]. intros _.
  apply emits_bind.
  { destruct (config_read filename); [apply emits_ret | apply emits_raise]. }
  intros config. apply emits_bind.
  - apply emits_for_each. intros [section name] _. simpl.
    destruct (negb _); [|apply emits_ret].
    apply emits_bind; [by apply emits_logging|]. intros _.
    apply emits_bind; [by apply emits_logging|]. intros _. apply emits_sys_exit.
  - intros _. destruct (copy_sections _ _ _); [apply emits_ret | apply emits_raise].
Qed.


(** X18.  [parse_config] ends in one of three ways only, after its debug
    record.  It returns the dictionary that holds, for the sections of
    the parser and their options, what [get] gave, and nothing else: then
    the file was read and has every required option.  Or it leaves
    through [sys.exit(1)] after two critical records, the first naming
    the first required option that is missing.  Or an error of the
    parser leaves it as it is, with no critical record: the file could
    not be read, or it has every required option and a [get] of the copy
    raised. *)
Theorem parse_config_outcomes filename w :
  ∃ evs,
    history (parse_config config_read filename w).2
    = (history w ++ Log DEBUG ("Parsing config file " +:+ filename +:+ ".") :: evs)%list
    ∧ match (parse_config config_read filename w).1 with
      | Normal config_dict =>
          evs = []
          ∧ ∃ config,
              config_read filename = Some config ∧ first_missing config = None
              ∧ ∀ section name,
                  config_dict !! section ≫= (.!! name)
                  = if decide (section ∈ ConfigParser.sections config
                               ∧ name ∈ ConfigParser.options config section)
                    then ConfigParser.get config section name else None
      | Raised (SystemExit status) =>
          status = 1
          ∧ ∃ config section name,
              config_read filename = Some config
              ∧ first_missing config = Some (section, name)
              ∧ evs = [Log CRITICAL ("Missing configuration option " +:+ section
                                     +:+ ":" +:+ name +:+ ".");
                       Log CRITICAL "Unable to continue; exiting."]
      | Raised ConfigParserError =>
          evs = []
          ∧ (config_read filename = None
             ∨ ∃ config, config_read filename = Some config
                         ∧ first_missing config = None
                         ∧ config_dict_of config = None)
      | Raised _ => False
      end.
Proof.
  destruct (config_read filename) as [config|] eqn:Hread.
  - destruct (first_missing config) as [[section name]|] eqn:Hmiss.
    + rewrite (parse_config_missing _ _ _ _ _ Hread Hmiss). eexists. split; [done|].
      simpl. split; [done|]. by exists config, section, name.
    + rewrite (parse_config_ok _ _ _ Hread Hmiss). exists []. split; [done|].
      destruct (config_dict_of config) as [config_dict|] eqn:Hcopy; simpl.
      * split; [done|]. exists config. split_and!; try done.
        intros section name. by apply config_dict_lookup.
      * split; [done|]. right. by exists config.
  - rewrite (parse_config_unread _ _ Hread). exists []. split; [done|].
    simpl. split; [done|]. by left.
Qed.

End ParseConfig.

Section Main.
Context (glob_glob : string → list string) (config_read : string → option ConfigParser.t).

Lemma emits_load_configs files master_config :
  emits (λ e, process_started e = false) (load_configs config_read files master_config).
Proof.
  revert master_config. induction files as [|f files IH]; intros master_config; simpl.
  - apply emits_ret.
  - apply emits_bind; [apply emits_parse_config|]. intros this_config.
    apply emits_bind; [apply emits_getitem2|]. intros name. apply IH.
Qed.

(** The files that load are read one after the other. *)
Lemma load_configs_app before later master_config w :
  Forall (loads config_read) before →
  load_configs config_read (before ++ later) master_config w
  = load_configs config_read later
      (master_config_of (parsed config_read) before master_config)
      (World (history w ++ map (λ f, Log DEBUG ("Parsing config file " +:+ f +:+ "."))
                             before)
             (script w) (opened w) (open_conns w)).
Proof.
  clear glob_glob. intros Hloads. revert master_config w.
  induction Hloads as [|f before Hf _ IH]; intros master_config w; simpl.
  - rewrite app_nil_r. by destruct w.
  - destruct (parse_config_loads config_read f w Hf) as [Hrun Hvalid].
    rewrite bind_unfold, Hrun.
    destruct (valid_config_lookup _ "bridge" "name" Hvalid) as (d & name & Hd & Hname).
    { unfold checks. set_solver. }
    unfold getitem2, getitem. rewrite !bind_unfold, Hd, Hname.
    cbv beta iota delta [mret py_ret]. rewrite IH. simpl.
    unfold bridge_name. rewrite Hd. simpl. rewrite Hname. simpl.
    by rewrite <- app_assoc.
Qed.

Lemma count_critical_map_debug (files : list string) :
  count_where is_critical
    (map (λ f, Log DEBUG ("Parsing config file " +:+ f +:+ ".")) files) = 0%nat.
Proof. apply count_where_none, Forall_forall. by intros e (f & <- & _)%list_elem_of_In%in_map_iff. Qed.

(** C7, as the code has it.  A configuration unit from which one of the
    required options is missing makes [parse_config] log the first
    missing option critically and leave with [sys.exit(1)]; in the main
    program this happens while the files are still being read, so that,
    the files before it having been parsed, the process ends with status
    1 and no bridge process has been started; and whatever ends the
    reading of the files, no bridge process has been started by then.
    An option that is present passes the check whatever its value, the
    empty one included, and [rabbitmq.queue] is not asked for: a unit
    with all the required options gets no critical record and no
    [sys.exit]; [parse_config] returns the copy of its options, unless a
    [get] of the copy raises, and then that exception is what leaves
    [parse_config]. *)
Theorem missing_option_is_fatal args filename config w :
  config_read filename = Some config →
  (∀ section name,
     first_missing config = Some (section, name) →
     parse_config config_read filename w
     = (Raised (SystemExit 1),
        World (history w ++ [Log DEBUG ("Parsing config file " +:+ filename +:+ ".");
                             Log CRITICAL ("Missing configuration option " +:+ section
                                           +:+ ":" +:+ name +:+ ".");
                             Log CRITICAL "Unable to continue; exiting."])
              (script w) (opened w) (open_conns w)))
  ∧ ((∃ check_pair, check_pair ∈ checks
                    ∧ ConfigParser.has_option config check_pair.1 check_pair.2 = false) →
     is_Some (first_missing config))
  ∧ (∀ before later,
       config_list glob_glob args = (before ++ filename :: later)%list →
       Forall (loads config_read) before →
       is_Some (first_missing config) →
       ∃ w', main glob_glob config_read args w = (Raised (SystemExit 1), w')
             ∧ count_where process_started (new_events w w') = 0%nat
             ∧ count_where is_critical (new_events w w') = 2%nat)
  ∧ (∀ e w', main glob_glob config_read args w = (Raised e, w') →
             count_where process_started (new_events w w') = 0%nat)
  ∧ (first_missing config = None →
     parse_config config_read filename w
     = (match config_dict_of config with
        | Some config_dict => Normal config_dict
        | None => Raised ConfigParserError
        end,
        World (history w ++ [Log DEBUG ("Parsing config file " +:+ filename +:+ ".")])
              (script w) (opened w) (open_conns w))).
Proof.
  intros Hread. split_and!.
  - intros section name. by apply parse_config_missing.
  - apply first_missing_some.
  - intros before later Hfiles Hloads [[section name] Hmiss].
    unfold main. rewrite Hfiles, bind_unfold, (load_configs_app _ _ _ _ Hloads).
    cbn [load_configs]. rewrite bind_unfold.
    rewrite (parse_config_missing _ _ _ _ _ _ Hread Hmiss).
    eexists. split; [done|]. unfold new_events. cbn [history].
    rewrite <- !app_assoc, drop_app_length, !count_where_app.
    rewrite count_critical_map_debug. split; [|done].
    rewrite (count_where_none process_started (map _ _)); [done|].
    apply Forall_forall. by intros e (f & <- & _)%list_elem_of_In%in_map_iff.
  - intros e w' Hrun. unfold main in Hrun. rewrite bind_unfold in Hrun.
    destruct (emits_load_configs (config_list glob_glob args) [] w) as (evs & Hh & Hevs).
    destruct (load_configs config_read (config_list glob_glob args) [] w)
      as [[master_config|e'] w1] eqn:Hload; simpl in Hh.
    + rewrite bind_unfold in Hrun.
      destruct (for_each master_config _ w1) as [[[]|e''] w2] eqn:Hstart; [done|].
      exfalso. clear -Hstart. revert w1 Hstart.
      induction master_config as [|bridge master_config IH]; intros w1; simpl; [done|].
      rewrite bind_unfold. unfold emit at 1. apply IH.
    + injection Hrun as -> <-. rewrite (new_events_app _ _ _ Hh).
      by apply count_where_none.
  - intros Hnone. by apply parse_config_ok.
Qed.

End Main.

Lemma literal_coherent file : coherent (literal file).
Proof.
  intros section name _ _. unfold literal, assoc. simpl.
  intros [v Hv]%bool_decide_eq_true.
  destruct (find (λ entry, bool_decide (entry.1 = section)) file)
    as [[section' names]|] eqn:Hs; [|done].
  apply List.find_some in Hs as [Hin Heq%bool_decide_eq_true]. simpl in *. subst section'.
  destruct (find (λ entry, bool_decide (entry.1 = name)) names)
    as [[name' v']|] eqn:Ho; [|done].
  apply List.find_some in Ho as [Hin' Heq%bool_decide_eq_true]. simpl in *. subst name'.
  split.
  - apply list_elem_of_fmap. exists (section, names). split; [done|].
    by apply list_elem_of_In.
  - apply list_elem_of_fmap. exists (name, v'). split; [done|].
    by apply list_elem_of_In.
Qed.

Lemma example_file_loads (config_read : string → option ConfigParser.t) filename :
  config_read filename = Some (literal example_file) → loads config_read filename.
Proof.
  intros Hread. exists (literal example_file). split; [done|].
  split; [reflexivity|]. split; [apply literal_coherent|]. by eexists.
Qed.

Lemma missing_option_is_fatal_witness :
  parse_config (λ _, Some (literal no_channel_file)) "b1.conf" (fresh_world [])
  = (Raised (SystemExit 1),
     World [Log DEBUG "Parsing config file b1.conf.";
            Log CRITICAL "Missing configuration option postgres:channel.";
            Log CRITICAL "Unable to continue; exiting."] [] 0 ∅)
  ∧ (∃ w', main (λ pattern, [pattern])
             (λ f, if decide (f = "a.conf") then Some (literal example_file)
                   else Some (literal no_channel_file))
             {| config_file := ["a.conf"; "b1.conf"]; persistent := true |}
             (fresh_world []) = (Raised (SystemExit 1), w')
           ∧ count_where process_started (new_events (fresh_world []) w') = 0%nat
           ∧ count_where is_critical (new_events (fresh_world []) w') = 2%nat)
  ∧ parse_config (λ _, Some (literal example_file)) "b1.conf" (fresh_world [])
    = (Normal example_config, World [Log DEBUG "Parsing config file b1.conf."] [] 0 ∅)
  ∧ parse_config (λ _, Some percent_password) "b1.conf" (fresh_world [])
    = (Raised ConfigParserError, World [Log DEBUG "Parsing config file b1.conf."] [] 0 ∅).
Proof.
  split; [|split; [|split]].
  - refine (proj1 (missing_option_is_fatal (λ pattern, [pattern])
                     (λ _, Some (literal no_channel_file))
                     persistent_args "b1.conf" (literal no_channel_file) (fresh_world [])
                     eq_refl) "postgres" "channel" _).
    reflexivity.
  - refine (proj1 (proj2 (proj2 (missing_option_is_fatal (λ pattern, [pattern])
                     (λ f, if decide (f = "a.conf") then Some (literal example_file)
                           else Some (literal no_channel_file))
                     {| config_file := ["a.conf"; "b1.conf"]; persistent := true |}
                     "b1.conf" (literal no_channel_file) (fresh_world []) eq_refl)))
              ["a.conf"] [] eq_refl _ _).
    + constructor; [|constructor]. by apply example_file_loads.
    + by eexists.
  - refine (proj2 (proj2 (proj2 (proj2 (missing_option_is_fatal (λ pattern, [pattern])
                     (λ _, Some (literal example_file)) persistent_args "b1.conf"
                     (literal example_file) (fresh_world []) eq_refl)))) _).
    reflexivity.
  - refine (proj2 (proj2 (proj2 (proj2 (missing_option_is_fatal (λ pattern, [pattern])
                     (λ _, Some percent_password) persistent_args "b1.conf"
                     percent_password (fresh_world []) eq_refl)))) _).
    reflexivity.
Defined.

(** The claim as worded also refuses a required option that is present
    but empty; the check is [has_option], which does not look at the
    value. *)
Lemma empty_required_value_accepted :
  ConfigParser.get (literal empty_exchange_file) "rabbitmq" "exchange" = Some EmptyString
  ∧ parse_config (λ _, Some (literal empty_exchange_file)) "b1.conf" (fresh_world [])
    = (Normal empty_exchange_config,
       World [Log DEBUG "Parsing config file b1.conf."] [] 0 ∅)
  ∧ ∃ w', main (λ pattern, [pattern]) (λ _, Some (literal empty_exchange_file))
            persistent_args (fresh_world [])
          = (Normal [("b1", empty_exchange_config)], w')
          ∧ count_where process_started (new_events (fresh_world []) w') = 1%nat.
Proof.
  split; [reflexivity|]. split; [vm_compute; reflexivity|].
  eexists. split; vm_compute; reflexivity.
Qed.

(** ** A LISTEN that fails *)

(** C9 (the code departs from it).  When the [LISTEN] command fails, the
    handler of [register_listen] begins with a bare [raise]: the exception
    of the cursor leaves [run] as it is, polling never begins, and the two
    critical records and the [sys.exit(1)] that follow the [raise] are
    never reached. *)
Theorem listen_failure_not_logged :
  run example_int ephemeral_args example_config [readable two_notifications]
    (fresh_world [true; true; true; false])
  = (Raised (LibraryError (curs_execute "LISTEN events;")),
     World [ Log INFO ("Initiating bridge " +:+ dq +:+ "b1" +:+ dq +:+ ".");
             Log DEBUG "Connecting to the PostgreSQL server.";
             Call (psycopg2_connect "db" "5432" "app" "pg" "pg") true;
             Call conn_set_isolation_level_autocommit true;
             Log INFO "Connection to PostgreSQL established.";
             Log DEBUG ("Preparing to start listening on channel " +:+ dq +:+ "events"
                        +:+ dq +:+ ".");
             Call conn_cursor true;
             Call (curs_execute "LISTEN events;") false ]
           [] 0 ∅).
Proof. vm_compute. reflexivity. Qed.


(** * Further properties of the code *)

(** ** The payload parser, read backwards *)

(** X1.  Whatever [unpack_payload] returns tells the payload apart: two
    strings only when the payload is the first joined to the second by a
    colon, the first without a colon (nothing is lost or reordered); two
    [None] only when the payload has no colon; never one of each. *)
Theorem unpack_payload_inverse raw :
  match unpack_payload raw with
  | (Some key, Some body) => raw = key +:+ ":" +:+ body ∧ Str.contains ":" key = false
  | (None, None) => Str.contains ":" raw = false
  | _ => False
  end.
Proof.
  unfold unpack_payload, Str.split1.
  destruct (Str.partition_first ":" raw) as [[key body]|] eqn:Hsplit.
  - by apply StrFacts.partition_first_some in Hsplit.
  - by apply StrFacts.partition_first_none.
Qed.

Lemma wellformed_not_malformed key body :
  key ≠ EmptyString → body ≠ EmptyString → Str.contains ":" key = false →
  ¬ malformed (key +:+ ":" +:+ body).
Proof.
  intros Hkey Hbody Hcolon Hbad%unpack_discards_iff.
  rewrite unpack_wellformed in Hbad by done. simpl in Hbad.
  apply StrFacts.truthy_true in Hkey, Hbody. by rewrite Hkey, Hbody in Hbad.
Qed.

Lemma first_event_of_bind {B} c (f : unit → py B) w :
  (∀ u, emits (λ _, True) (f u)) →
  ∃ ok evs, history ((fallible c ≫= f) w).2 = (history w ++ Call c ok :: evs)%list.
Proof.
  intros Hf. rewrite bind_unfold. unfold fallible.
  destruct (script w) as [|[] rest].
  - destruct (Hf () (World (history w ++ [Call c true]) [] (opened w) (open_conns w)))
      as (evs & Hh & _).
    exists true, evs. rewrite Hh. simpl. by rewrite <- app_assoc.
  - destruct (Hf () (World (history w ++ [Call c true]) rest (opened w) (open_conns w)))
      as (evs & Hh & _).
    exists true, evs. rewrite Hh. simpl. by rewrite <- app_assoc.
  - by exists false, [].
Qed.

Lemma attempt_opens_channel h config key body raw w :
  ∃ ok evs, history (attempt h config key body raw w).2
            = (history w ++ Call (conn_channel h) ok :: evs)%list.
Proof.
  unfold attempt, try_except.
  destruct (first_event_of_bind (conn_channel h)
              (λ _, exchange ← getitem2 config "rabbitmq" "exchange";
                    (if Str.truthy exchange then
                       exchange ← getitem2 config "rabbitmq" "exchange";
                       type ← getitem2 config "rabbitmq" "exchange_type";
                       fallible (channel_exchange_declare h exchange type)
                     else mret ());;
                    rabbitmq ← getitem config "rabbitmq";
                    (if bool_decide (is_Some (rabbitmq !! "queue")) then
                       queue ← getitem2 config "rabbitmq" "queue";
                       fallible (channel_queue_declare h queue)
                     else mret ());;
                    exchange ← getitem2 config "rabbitmq" "exchange";
                    fallible (channel_basic_publish h exchange key body);;
                    name ← getitem2 config "bridge" "name";
                    logging INFO ("Message republished via " +:+ dq +:+ name
                                  +:+ dq +:+ " bridge.");;
                    logging DEBUG ("Routing key: " +:+ key);;
                    logging DEBUG ("Message: " +:+ body)) w)
    as (ok & evs & Hh).
  { intros _. emits_auto ltac:(exact I). }
  change (fallible (conn_channel h) ≫= _) with (publish h config key body) in Hh.
  destruct (publish h config key body w) as [[[]|e] w1]; simpl in Hh.
  - by exists ok, evs.
  - assert (emits (λ _, True)
              (name ← getitem2 config "bridge" "name"; discard_unpublished name raw))
      as Hhandler.
    { apply emits_bind; [apply emits_getitem2|]. intros name.
      by apply emits_discard_unpublished. }
    destruct (Hhandler w1) as (evs' & Hh' & _).
    exists ok, (evs ++ evs')%list. rewrite Hh', Hh. by rewrite <- app_assoc.
Qed.

(** X2.  On a persistent connection [republish_message] opens a channel
    exactly for the payloads that are not malformed: a malformed payload
    never reaches the broker, and every other payload does, whatever the
    broker then answers. *)
Theorem channel_opened_iff_wellformed int h config raw w :
  (∃ ok, Call (conn_channel h) ok
           ∈ new_events w (republish_message int (Some h) config raw w).2)
  ↔ ¬ malformed raw.
Proof.
  destruct (malformed_or_wellformed raw)
    as [Hraw | (key & body & Hkey & Hbody & Hcolon & ->)].
  - split; [|done]. intros [ok Hin] _.
    assert (emits (λ e, ¬ publish_path_call e)
              (republish_message int (Some h) config raw)) as Hemits.
    { rewrite republish_malformed by done.
      apply emits_bind; [by apply emits_acquire_connection; auto|].
      intros _. apply emits_discard_malformed. by auto. }
    apply (emits_new_events _ _ w) in Hemits. rewrite Forall_forall in Hemits.
    by apply (Hemits _ Hin).
  - split; [intros _; by apply wellformed_not_malformed|]. intros _.
    rewrite republish_persistent_wellformed by done.
    rewrite bind_unfold.
    destruct (attempt_opens_channel h config key body (key +:+ ":" +:+ body) w)
      as (ok & evs & Hh).
    destruct (attempt h config key body (key +:+ ":" +:+ body) w) as [[[]|e] w1];
      simpl in *; exists ok; rewrite (new_events_app _ _ _ Hh); by left.
Qed.

(** ** The connections *)

(** X3.  [connect_rabbitmq] ends in one of two ways only.  Either it
    returns a connection that was not there before, now open, after
    exactly the records: debug, the successful connect, info.  Or it
    leaves through [sys.exit(1)], whatever went wrong inside its [try]
    (a missing option, a port that is not a number, the broker), with the
    two critical records last, no connection made and the open
    connections as they were. *)
Theorem connect_rabbitmq_outcomes int config w :
  match connect_rabbitmq int config w with
  | (Normal h, w') =>
      h = opened w ∧ opened w' = S (opened w) ∧ open_conns w' = {[h]} ∪ open_conns w
      ∧ ∃ c, broker_connected (Call c true) = true
           ∧ new_events w w' = [Log DEBUG "Connecting to the RabbitMQ broker.";
                                Call c true;
                                Log INFO "Connection to RabbitMQ established."]
  | (Raised e, w') =>
      e = SystemExit 1 ∧ opened w' = opened w ∧ open_conns w' = open_conns w
      ∧ count_where broker_connected (new_events w w') = 0%nat
      ∧ ∃ evs, new_events w w'
               = (evs ++ [Log CRITICAL "Could not connect to RabbitMQ broker.";
                          Log CRITICAL "Unable to continue; exiting."])%list
  end.
Proof.
  destruct (connect_rabbitmq int config w) as [[h|e] w'] eqn:Hrun.
  - apply connect_rabbitmq_normal in Hrun as (? & ? & ? & c & ? & Hh).
    split_and!; try done. exists c. split; [done|]. by apply new_events_app.
  - apply connect_rabbitmq_raised in Hrun as (? & ? & ? & evs & Hh & Hevs).
    rewrite (new_events_app _ _ _ Hh). split_and!; try done; [|by exists evs].
    rewrite count_where_app, (count_where_none _ evs); [done|].
    eapply Forall_impl; [done|]. by intros ? [? _].
Qed.

(** X4.  A port that [int] refuses ends [connect_rabbitmq] with the
    critical records and [sys.exit(1)] before pika is called at all. *)
Theorem connect_rabbitmq_bad_port int (config : config_t) d host port w :
  config !! "rabbitmq" = Some d → d !! "host" = Some host → d !! "port" = Some port →
  int port = None →
  connect_rabbitmq int config w
  = (Raised (SystemExit 1),
     World (history w ++ [Log DEBUG "Connecting to the RabbitMQ broker.";
                          Log CRITICAL "Could not connect to RabbitMQ broker.";
                          Log CRITICAL "Unable to continue; exiting."])
           (script w) (opened w) (open_conns w)).
Proof.
  intros Hd Hhost Hport Hint. unfold connect_rabbitmq. py_unfold. simpl.
  rewrite Hd, Hhost, Hport, Hint. simpl. by rewrite <- !app_assoc.
Qed.

Lemma connect_rabbitmq_bad_port_witness :
  connect_rabbitmq example_int
    (<["rabbitmq" := {[ "host" := "mq"; "port" := "amqp" ]}]> example_config)
    (fresh_world [])
  = (Raised (SystemExit 1),
     World [Log DEBUG "Connecting to the RabbitMQ broker.";
            Log CRITICAL "Could not connect to RabbitMQ broker.";
            Log CRITICAL "Unable to continue; exiting."] [] 0 ∅).
Proof.
  by apply (connect_rabbitmq_bad_port example_int _
              {[ "host" := "mq"; "port" := "amqp" ]} "mq" "amqp" (fresh_world [])).
Defined.

Lemma connect_postgres_normal config w w1 :
  connect_postgres config w = (Normal (), w1) →
  opened w1 = opened w ∧ open_conns w1 = open_conns w
  ∧ ∃ host port database user pass,
      history w1
      = (history w ++ [Log DEBUG "Connecting to the PostgreSQL server.";
                       Call (psycopg2_connect host port database user pass) true;
                       Call conn_set_isolation_level_autocommit true;
                       Log INFO "Connection to PostgreSQL established."])%list.
Proof.
  unfold connect_postgres. rewrite bind_unfold. unfold logging, emit. cbv beta iota.
  unfold try_except, sys_exit, raise.
  do 7 (try py_case); rewrite ?bind_unfold; cbv beta iota; intros [=]; subst; simpl;
    (split_and!; [done..|]); eexists _, _, _, _, _; by rewrite <- !app_assoc.
Qed.

Lemma connect_postgres_raised config w e w1 :
  connect_postgres config w = (Raised e, w1) →
  e = SystemExit 1 ∧ opened w1 = opened w ∧ open_conns w1 = open_conns w
  ∧ ∃ evs, history w1
           = (history w ++ evs
              ++ [Log CRITICAL "Could not connect to PostgreSQL server.";
                  Log CRITICAL "Unable to continue; exiting."])%list
         ∧ Forall (λ e, is_critical e = false ∧ quiet e ∧ broker_connected e = false) evs.
Proof.
  unfold connect_postgres. rewrite bind_unfold. unfold logging, emit. cbv beta iota.
  unfold try_except, sys_exit, raise.
  do 7 (try py_case); rewrite ?bind_unfold; cbv beta iota; intros [=]; subst; simpl;
    (split_and!; [done..|]);
    first [ exists [Log DEBUG "Connecting to the PostgreSQL server."];
            split; [by rewrite <- !app_assoc|]
          | eexists [Log DEBUG "Connecting to the PostgreSQL server."; Call _ false];
            split; [by rewrite <- !app_assoc|]
          | eexists [Log DEBUG "Connecting to the PostgreSQL server."; Call _ true;
                     Call _ false];
            split; [by rewrite <- !app_assoc|] ];
    rewrite ?Forall_cons, Forall_nil; unfold quiet, polling_begins; simpl;
    split_and!; first [done | tauto | by intros [=]].
Qed.

(** X5.  [connect_postgres] ends in one of two ways only: it returns
    after the records debug, connect, autocommit, info; or, whatever went
    wrong inside its [try] (a missing option, the connect, the switch to
    autocommit), it leaves through [sys.exit(1)] with its two critical
    records last and none before.  It never touches the broker
    connections. *)
Theorem connect_postgres_outcomes config w :
  match connect_postgres config w with
  | (Normal _, w') =>
      open_conns w' = open_conns w
      ∧ ∃ host port database user pass,
          new_events w w'
          = [Log DEBUG "Connecting to the PostgreSQL server.";
             Call (psycopg2_connect host port database user pass) true;
             Call conn_set_isolation_level_autocommit true;
             Log INFO "Connection to PostgreSQL established."]
  | (Raised e, w') =>
      e = SystemExit 1 ∧ open_conns w' = open_conns w
      ∧ ∃ evs, new_events w w'
               = (evs ++ [Log CRITICAL "Could not connect to PostgreSQL server.";
                          Log CRITICAL "Unable to continue; exiting."])%list
             ∧ count_where is_critical evs = 0%nat
  end.
Proof.
  destruct (connect_postgres config w) as [[[]|e] w'] eqn:Hrun.
  - apply connect_postgres_normal in Hrun
      as (_ & ? & host & port & database & user & pass & Hh).
    split; [done|]. exists host, port, database, user, pass. by apply new_events_app.
  - apply connect_postgres_raised in Hrun as (? & _ & ? & evs & Hh & Hevs).
    split_and!; try done. exists evs. split; [by apply new_events_app|].
    apply count_where_none. eapply Forall_impl; [done|]. by intros ? [? _].
Qed.

Lemma getitem2_normal_inv (config : config_t) section option w v w' :
  getitem2 config section option w = (Normal v, w') →
  ∃ d, config !! section = Some d ∧ d !! option = Some v ∧ w' = w.
Proof.
  unfold getitem2, getitem. rewrite bind_unfold.
  destruct (config !! section) as [d|]; [|done].
  destruct (d !! option) as [v'|] eqn:Hv; [|done].
  intros [= <- <-]. by exists d.
Qed.

Lemma getitem2_raised_inv (config : config_t) section option w e w' :
  getitem2 config section option w = (Raised e, w') →
  (∃ key, e = KeyError key) ∧ w' = w.
Proof.
  unfold getitem2, getitem. rewrite bind_unfold.
  destruct (config !! section) as [d|]; [|intros [= <- <-]; by eauto].
  destruct (d !! option); [done|]. intros [= <- <-]. by eauto.
Qed.

Lemma register_listen_cases config w :
  match register_listen config w with
  | (Normal _, w') =>
      ∃ d channel,
        config !! "postgres" = Some d ∧ d !! "channel" = Some channel
        ∧ history w'
          = (history w
             ++ [Log DEBUG ("Preparing to start listening on channel " +:+ dq +:+ channel
                            +:+ dq +:+ ".");
                 Call conn_cursor true;
                 Call (curs_execute ("LISTEN " +:+ channel +:+ ";")) true;
                 Log INFO ("Listening on channel " +:+ dq +:+ channel +:+ dq +:+ ".")])%list
  | (Raised e, w') =>
      (∀ status, e ≠ SystemExit status)
      ∧ ∃ evs, history w' = (history w ++ evs)%list
               ∧ Forall (λ e, is_critical e = false ∧ quiet e ∧ broker_connected e = false) evs
  end.
Proof.
  unfold register_listen. rewrite bind_unfold.
  destruct (getitem2 config "postgres" "channel" w) as [[channel|e] w0] eqn:Hget.
  2:{ apply getitem2_raised_inv in Hget as ([key ->] & ->).
      split; [done|]. exists []. by rewrite app_nil_r. }
  apply getitem2_normal_inv in Hget as (d & Hd & Hchannel & ->).
  rewrite bind_unfold. unfold logging, emit. cbv beta iota.
  unfold try_except, raise.
  do 2 (try py_case); rewrite ?bind_unfold; cbv beta iota.
  - exists d, channel. simpl. by rewrite <- !app_assoc.
  - split; [done|]. eexists [_; _; _]. simpl. split; [by rewrite <- !app_assoc|].
    rewrite ?Forall_cons, Forall_nil; unfold quiet, polling_begins; simpl;
      split_and!; first [done | tauto | by intros [=]].
  - split; [done|]. eexists [_; _]. simpl. split; [by rewrite <- !app_assoc|].
    rewrite ?Forall_cons, Forall_nil; unfold quiet, polling_begins; simpl;
      split_and!; first [done | tauto | by intros [=]].
Qed.


(** ** Starting up *)

Lemma exits_critically_bind {A B} (m : py A) (f : A → py B) :
  exits_critically m → (∀ a, exits_critically (f a)) → exits_critically (m ≫= f).
Proof.
  intros Hm Hf w. rewrite bind_unfold.
  destruct (Hm w) as (evs1 & Hh1 & Hp1 & Hc1).
  destruct (m w) as [[a|e] w1]; simpl in *.
  - destruct (Hf a w1) as (evs2 & Hh2 & Hp2 & Hc2).
    exists (evs1 ++ evs2)%list. split; [by rewrite Hh2, Hh1, app_assoc|].
    split; [rewrite elem_of_app; tauto|].
    rewrite count_where_app, Hc1. simpl.
    destruct (f a w1) as [[b|[| | |status|]] w2]; simpl in *; try done.
    destruct Hc2 as (-> & Hc2 & Hlast). split_and!; try done.
    destruct evs2 as [|e2 evs2 _] using rev_ind; [done|].
    by rewrite app_assoc, !last_snoc in *.
  - exists evs1. by split_and!.
Qed.

Lemma exits_critically_quiet {A} (m : py A) :
  emits (λ e, is_critical e = false ∧ e ≠ polling_begins) m →
  (∀ w status, (m w).1 ≠ Raised (SystemExit status)) →
  exits_critically m.
Proof.
  intros Hm Hexit w. destruct (Hm w) as (evs & Hh & Hevs).
  exists evs. split; [done|]. split.
  - intros Hin. rewrite Forall_forall in Hevs. by destruct (Hevs _ Hin).
  - assert (count_where is_critical evs = 0%nat) as Hcount.
    { apply count_where_none. eapply Forall_impl; [done|]. by intros ? [? _]. }
    specialize (Hexit w). destruct ((m w).1) as [a|[| | |status|]]; try done.
    by destruct (Hexit status).
Qed.

Lemma count_critical_two evs :
  Forall (λ e, is_critical e = false) evs →
  ∀ msg,
    count_where is_critical
      (evs ++ [Log CRITICAL msg; Log CRITICAL "Unable to continue; exiting."]) = 2%nat
    ∧ last (evs ++ [Log CRITICAL msg; Log CRITICAL "Unable to continue; exiting."])
      = Some (Log CRITICAL "Unable to continue; exiting.").
Proof.
  intros Hevs msg. rewrite count_where_app, (count_where_none _ _ Hevs). split; [done|].
  change [Log CRITICAL msg; Log CRITICAL "Unable to continue; exiting."]
    with ([Log CRITICAL msg] ++ [Log CRITICAL "Unable to continue; exiting."])%list.
  by rewrite app_assoc, last_snoc.
Qed.

Lemma connect_rabbitmq_critical int config w e w1 :
  connect_rabbitmq int config w = (Raised e, w1) →
  ∃ evs, history w1 = (history w ++ evs
                       ++ [Log CRITICAL "Could not connect to RabbitMQ broker.";
                           Log CRITICAL "Unable to continue; exiting."])%list
       ∧ Forall (λ e, is_critical e = false ∧ e ≠ polling_begins) evs.
Proof.
  unfold connect_rabbitmq. rewrite bind_unfold. unfold logging, emit. cbv beta iota.
  unfold try_except, sys_exit, raise, new_connection.
  do 2 (try py_case);
    try (rewrite ?bind_unfold;
         match goal with |- context [int ?x] => destruct (int x) end;
         rewrite ?bind_unfold; cbv beta iota delta [mret py_ret]);
    do 4 (try py_case); rewrite ?bind_unfold; cbv beta iota;
    intros [=]; subst; simpl;
    first [ exists [Log DEBUG "Connecting to the RabbitMQ broker."];
            split; [by rewrite <- !app_assoc|]
          | eexists [Log DEBUG "Connecting to the RabbitMQ broker."; Call _ false];
            split; [by rewrite <- !app_assoc|] ];
    rewrite ?Forall_cons, Forall_nil; unfold polling_begins; simpl;
    split_and!; first [done | tauto | by intros [=]].
Qed.

Lemma exits_critically_connect_rabbitmq int config :
  exits_critically (connect_rabbitmq int config).
Proof.
  intros w. destruct (connect_rabbitmq int config w) as [[h|e] w1] eqn:Hrun; simpl.
  - apply connect_rabbitmq_normal in Hrun as (_ & _ & _ & c & Hc & Hh).
    eexists. split; [done|]. destruct c; try done.
    split; [|done]. rewrite !elem_of_cons, elem_of_nil. unfold polling_begins.
    intros [[=]|[[=]|[[=]|[]]]].
  - pose proof (connect_rabbitmq_raised _ _ _ _ _ Hrun) as (-> & _).
    apply connect_rabbitmq_critical in Hrun as (evs & Hh & Hevs).
    eexists. split; [done|].
    assert (Forall (λ e, is_critical e = false) evs) as Hnone.
    { eapply Forall_impl; [done|]. by intros ? [? _]. }
    split; [|split; [done | by apply count_critical_two]].
    rewrite elem_of_app, !elem_of_cons, elem_of_nil. unfold polling_begins.
    intros [Hin|[[=]|[[=]|[]]]]. rewrite Forall_forall in Hevs.
    by destruct (Hevs _ Hin).
Qed.

Lemma exits_critically_connect_postgres config :
  exits_critically (connect_postgres config).
Proof.
  intros w. destruct (connect_postgres config w) as [[[]|e] w1] eqn:Hrun; simpl.
  - apply connect_postgres_normal in Hrun as (_ & _ & ? & ? & ? & ? & ? & Hh).
    eexists. split; [done|]. split; [|done].
    rewrite !elem_of_cons, elem_of_nil. unfold polling_begins.
    intros [[=]|[[=]|[[=]|[[=]|[]]]]].
  - apply connect_postgres_raised in Hrun as (-> & _ & _ & evs & Hh & Hevs).
    eexists. split; [done|].
    assert (Forall (λ e, is_critical e = false) evs) as Hnone.
    { eapply Forall_impl; [done|]. by intros ? [? _]. }
    split; [|split; [done | by apply count_critical_two]].
    rewrite elem_of_app, !elem_of_cons, elem_of_nil. unfold polling_begins.
    intros [Hin|[[=]|[[=]|[]]]]. rewrite Forall_forall in Hevs.
    by destruct (Hevs _ Hin) as (_ & (_ & ? & _) & _).
Qed.

Lemma exits_critically_register_listen config :
  exits_critically (register_listen config).
Proof.
  intros w. pose proof (register_listen_cases config w) as Hcases.
  destruct (register_listen config w) as [[[]|e] w1]; simpl.
  - destruct Hcases as (d & channel & _ & _ & Hh).
    eexists. split; [done|]. split; [|done].
    rewrite !elem_of_cons, elem_of_nil. unfold polling_begins.
    intros [[=]|[[=]|[[=]|[[=]|[]]]]].
  - destruct Hcases as (Hexit & evs & Hh & Hevs).
    exists evs. split; [done|]. split.
    + intros Hin. rewrite Forall_forall in Hevs.
      by destruct (Hevs _ Hin) as (_ & (_ & ? & _) & _).
    + assert (count_where is_critical evs = 0%nat) as Hcount.
      { apply count_where_none. eapply Forall_impl; [done|]. by intros ? [? _]. }
      destruct e as [| | |status|]; try done. by destruct (Hexit status).
Qed.

Lemma exits_critically_startup int args config :
  exits_critically (startup int args config).
Proof.
  unfold startup.
  apply exits_critically_bind.
  { apply exits_critically_quiet; [apply emits_getitem2|].
    intros w status Heq.
    destruct (getitem2_cases config "bridge" "name" w) as [[v Hv]|[k Hk]];
      [rewrite Hv in Heq | rewrite Hk in Heq]; done. }
  intros name. apply exits_critically_bind.
  { apply exits_critically_quiet; [|done].
    apply emits_logging. split; [done|]. unfold polling_begins. by intros [=]. }
  intros _. apply exits_critically_bind.
  { destruct (persistent args).
    - apply exits_critically_bind; [apply exits_critically_connect_rabbitmq|].
      intros conn. apply exits_critically_quiet; [apply emits_ret | done].
    - apply exits_critically_quiet; [apply emits_ret | done]. }
  intros c. apply exits_critically_bind; [apply exits_critically_connect_postgres|].
  intros _. apply exits_critically_bind; [apply exits_critically_register_listen|].
  intros _. apply exits_critically_quiet; [apply emits_ret | done].
Qed.

(** X7.  Until polling begins, [run] logs critically exactly when it
    leaves through [sys.exit]: a connection to the broker (persistent
    mode) or to the database that cannot be made ends [run] with status 1
    after two critical records, the announcement of the exit last; any
    other end of the start ([LISTEN] failing, an option missing from the
    dictionary) passes the exception on with no critical record; and a
    start that succeeds has logged none either and goes on to [poll].
    In none of these has polling begun. *)
Theorem start_exits_critically int args config selects w :
  ∃ evs,
    history (startup int args config w).2 = (history w ++ evs)%list
    ∧ polling_begins ∉ evs
    ∧ match startup int args config w with
      | (Normal c, w1) =>
          run int args config selects w = poll c config (republish_message int) selects w1
          ∧ count_where is_critical evs = 0%nat
      | (Raised e, w1) =>
          run int args config selects w = (Raised e, w1)
          ∧ match e with
            | SystemExit status =>
                status = 1 ∧ count_where is_critical evs = 2%nat
                ∧ last evs = Some (Log CRITICAL "Unable to continue; exiting.")
            | _ => count_where is_critical evs = 0%nat
            end
      end.
Proof.
  destruct (exits_critically_startup int args config w) as (evs & Hh & Hp & Hc).
  exists evs. split; [done|]. split; [done|]. rewrite run_startup, bind_unfold.
  destruct (startup int args config w) as [[c|e] w1]; simpl in *; [done|].
  split; [done|]. by destruct e.
Qed.

(** ** The main program *)

Lemma odict_set_keys {V} k (v : V) d :
  (odict_set k v d).*1 = if decide (k ∈ d.*1) then d.*1 else (d.*1 ++ [k])%list.
Proof.
  induction d as [|[k' v'] d IH]; [done|].
  cbn [odict_set]. destruct (decide (k = k')) as [->|Hne]; rewrite !fmap_cons; cbn [fst].
  - rewrite decide_True; [done | by left].
  - rewrite IH. destruct (decide (k ∈ d.*1)) as [Hin|Hnin].
    + rewrite decide_True; [done | by right].
    + rewrite decide_False; [done|]. rewrite elem_of_cons. tauto.
Qed.

Lemma odict_set_nodup {V} k (v : V) d : NoDup d.*1 → NoDup (odict_set k v d).*1.
Proof.
  intros Hd. rewrite odict_set_keys. destruct (decide (k ∈ d.*1)); [done|].
  apply NoDup_app. split; [done|]. split; [|apply NoDup_singleton].
  intros x Hx ->%list_elem_of_singleton. done.
Qed.

Lemma odict_set_elem {V} k (v : V) d : (k, v) ∈ odict_set k v d.
Proof.
  induction d as [|[k' v'] d IH]; simpl; [by left|].
  destruct (decide (k = k')); [by left | by right].
Qed.

Lemma odict_set_other {V} k (v : V) d k' v' :
  k' ≠ k → (k', v') ∈ odict_set k v d ↔ (k', v') ∈ d.
Proof.
  intros Hne. induction d as [|[k'' v''] d IH]; simpl.
  - rewrite list_elem_of_singleton, elem_of_nil. split; [by intros [= ? ?] | done].
  - destruct (decide (k = k'')) as [->|Hne'].
    + rewrite !elem_of_cons. split; (intros [[= ? ?]|?]; [done | by right]).
    + rewrite !elem_of_cons, IH. tauto.
Qed.

Lemma odict_set_origin {V} k (v : V) d k' v' :
  (k', v') ∈ odict_set k v d → (k' = k ∧ v' = v) ∨ (k', v') ∈ d.
Proof.
  induction d as [|[k'' v''] d IH]; simpl.
  - rewrite list_elem_of_singleton. intros [= -> ->]. by left.
  - destruct (decide (k = k'')) as [->|Hne]; rewrite !elem_of_cons.
    + intros [[= -> ->]|?]; [by left | right; by right].
    + intros [?|Hin]; [right; by left|]. destruct (IH Hin); [by left | right; by right].
Qed.

Section MasterConfig.
Context (config_read : string → config_t).

Lemma master_config_nodup files master_config :
  NoDup master_config.*1 → NoDup (master_config_of config_read files master_config).*1.
Proof.
  revert master_config. induction files as [|f files IH]; intros master_config Hd; [done|].
  simpl. by apply IH, odict_set_nodup.
Qed.

Lemma master_config_last_wins before f after master_config :
  Forall (λ g, bridge_name (config_read g) ≠ bridge_name (config_read f)) after →
  (bridge_name (config_read f), config_read f)
    ∈ master_config_of config_read (before ++ f :: after) master_config.
Proof.
  intros Hafter. unfold master_config_of. rewrite fold_left_app. simpl.
  generalize (fold_left
    (λ master config_file,
       odict_set (bridge_name (config_read config_file)) (config_read config_file) master)
    before master_config) as d. intros d.
  assert ((bridge_name (config_read f), config_read f)
            ∈ odict_set (bridge_name (config_read f)) (config_read f) d) as Hin
    by apply odict_set_elem.
  revert Hin. generalize (odict_set (bridge_name (config_read f)) (config_read f) d).
  induction Hafter as [|g after Hg _ IH]; intros d' Hin; simpl; [done|].
  apply IH. by apply odict_set_other.
Qed.

Lemma master_config_origin files master_config name config :
  (name, config) ∈ master_config_of config_read files master_config →
  (name, config) ∈ master_config
  ∨ ∃ f, f ∈ files ∧ config = config_read f ∧ name = bridge_name config.
Proof.
  revert master_config. induction files as [|f files IH]; intros master_config; simpl.
  - by left.
  - intros [Hin|(g & Hg & ? & ?)]%IH.
    + apply odict_set_origin in Hin as [[-> ->]|Hin]; [|by left].
      right. exists f. split; [by left | done].
    + right. exists g. split; [by right | done].
Qed.

Lemma master_config_keys_grow files master_config :
  ∃ later, (master_config_of config_read files master_config).*1
           = (master_config.*1 ++ later)%list.
Proof.
  revert master_config. induction files as [|f files IH]; intros master_config.
  - exists []. simpl. by rewrite app_nil_r.
  - destruct (IH (odict_set (bridge_name (config_read f)) (config_read f) master_config))
      as (later & Hlater).
    cbn [master_config_of fold_left] in *. unfold master_config_of in Hlater.
    rewrite Hlater, odict_set_keys.
    destruct (decide (bridge_name (config_read f) ∈ master_config.*1)).
    + by exists later.
    + exists (bridge_name (config_read f) :: later). by rewrite <- app_assoc.
Qed.

Lemma master_config_first_appearance before f after :
  Forall (λ g, bridge_name (config_read g) ≠ bridge_name (config_read f)) before →
  ∃ later, (master_config_of config_read (before ++ f :: after) []).*1
           = ((master_config_of config_read before []).*1
              ++ bridge_name (config_read f) :: later)%list.
Proof.
  intros Hbefore. unfold master_config_of at 1. rewrite fold_left_app.
  fold (master_config_of config_read before []). cbn [fold_left].
  destruct (master_config_keys_grow after
              (odict_set (bridge_name (config_read f)) (config_read f)
                 (master_config_of config_read before []))) as (later & Hlater).
  unfold master_config_of at 1 in Hlater. rewrite Hlater, odict_set_keys.
  destruct (decide (bridge_name (config_read f)
                      ∈ (master_config_of config_read before []).*1)) as [Hin|_].
  - apply list_elem_of_fmap in Hin as ([name config] & Hname & Hin). simpl in Hname.
    apply master_config_origin in Hin as [Hin|(g & Hg & -> & ->)].
    + by apply elem_of_nil in Hin.
    + rewrite Forall_forall in Hbefore. by destruct (Hbefore g Hg).
  - exists later. by rewrite <- app_assoc.
Qed.

End MasterConfig.

Section MainValid.
Context (glob_glob : string → list string) (config_read : string → option ConfigParser.t).

Lemma start_all (master_config : list (string * config_t)) w :
  for_each master_config (λ bridge, emit (Call (Process_start bridge.1) true)) w
  = (Normal (),
     World (history w ++ map (λ name, Call (Process_start name) true) master_config.*1)
           (script w) (opened w) (open_conns w)).
Proof.
  revert w. induction master_config as [|bridge master_config IH]; intros w; simpl.
  - rewrite app_nil_r. by destruct w.
  - rewrite bind_unfold. unfold emit at 1. rewrite IH. simpl. by rewrite <- app_assoc.
Qed.

(** X8.  When [parse_config] gets through every file (each can be read,
    has the required options, and every value can be fetched), the main
    program starts exactly one process for each bridge name, after
    having read all the files; of several files with one bridge name the
    last read gives the configuration (the earlier ones are dropped
    without a word); every process runs a configuration that was made
    from one of the files, under that configuration's own name, and that
    has the required options; and the processes start in the order in
    which the names first appear (a file with a new name puts it right
    behind the names of the files before it). *)
Theorem main_one_process_per_name args w :
  Forall (loads config_read) (config_list glob_glob args) →
  main glob_glob config_read args w
  = (Normal (master_config_of (parsed config_read) (config_list glob_glob args) []),
     World (history w
            ++ map (λ f, Log DEBUG ("Parsing config file " +:+ f +:+ "."))
                 (config_list glob_glob args)
            ++ map (λ name, Call (Process_start name) true)
                 (master_config_of (parsed config_read) (config_list glob_glob args) []).*1)
           (script w) (opened w) (open_conns w))
  ∧ NoDup (master_config_of (parsed config_read) (config_list glob_glob args) []).*1
  ∧ (∀ before f after,
       config_list glob_glob args = (before ++ f :: after)%list →
       Forall (λ g, bridge_name (parsed config_read g) ≠ bridge_name (parsed config_read f))
         after →
       (bridge_name (parsed config_read f), parsed config_read f)
         ∈ master_config_of (parsed config_read) (config_list glob_glob args) [])
  ∧ (∀ name config,
       (name, config)
         ∈ master_config_of (parsed config_read) (config_list glob_glob args) [] →
       ∃ f, f ∈ config_list glob_glob args ∧ config = parsed config_read f
            ∧ name = bridge_name config ∧ valid_config config)
  ∧ (∀ before f after,
       config_list glob_glob args = (before ++ f :: after)%list →
       Forall (λ g, bridge_name (parsed config_read g) ≠ bridge_name (parsed config_read f))
         before →
       ∃ later,
         (master_config_of (parsed config_read) (config_list glob_glob args) []).*1
         = ((master_config_of (parsed config_read) before []).*1
            ++ bridge_name (parsed config_read f) :: later)%list).
Proof.
  intros Hloads. split_and!.
  - unfold main. rewrite bind_unfold.
    pose proof (load_configs_app config_read _ [] [] w Hloads) as Hrun.
    rewrite app_nil_r in Hrun. rewrite Hrun. cbn [load_configs].
    cbv beta iota delta [mret py_ret].
    rewrite bind_unfold, start_all. simpl. by rewrite <- app_assoc.
  - apply master_config_nodup. constructor.
  - intros before f after -> Hafter. by apply master_config_last_wins.
  - intros name config [Hin|(f & Hf & -> & ->)]%master_config_origin.
    { by apply elem_of_nil in Hin. }
    exists f. split_and!; try done.
    rewrite Forall_forall in Hloads.
    by destruct (parse_config_loads config_read f w (Hloads f Hf)) as [_ Hvalid].
  - intros before f after -> Hbefore. by apply master_config_first_appearance.
Qed.

End MainValid.

Lemma main_one_process_per_name_witness :
  main (λ pattern, [pattern])
    (λ f, if decide (f = "a.conf") then Some (literal example_file)
          else Some (literal empty_exchange_file))
    {| config_file := ["a.conf"; "b.conf"]; persistent := false |} (fresh_world [])
  = (Normal [("b1", empty_exchange_config)],
     World [Log DEBUG "Parsing config file a.conf.";
            Log DEBUG "Parsing config file b.conf.";
            Call (Process_start "b1") true] [] 0 ∅).
Proof.
  refine (eq_trans (proj1 (main_one_process_per_name (λ pattern, [pattern])
    (λ f, if decide (f = "a.conf") then Some (literal example_file)
          else Some (literal empty_exchange_file))
    {| config_file := ["a.conf"; "b.conf"]; persistent := false |} (fresh_world []) _)) _).
  - repeat constructor; simpl;
      (eexists; split; [reflexivity|]; split; [reflexivity|];
       split; [apply literal_coherent|]; by eexists).
  - vm_compute. reflexivity.
Defined.

(** ** Ephemeral mode, message by message *)

(** X9.  In ephemeral mode a broker that cannot be reached when a
    notification is to be republished ends the bridge: [republish_message]
    leaves through [sys.exit(1)] from its connect, before it looks at the
    payload; the older notifications of the cycle are not processed and
    the later turns of the polling loop do not happen; nothing is sent on
    a channel. *)
Theorem ephemeral_connect_failure_ends_polling int config raw arrived later w e w1 :
  connect_rabbitmq int config w = (Raised e, w1) →
  republish_message int None config raw w = (Raised (SystemExit 1), w1)
  ∧ poll_loop (republish_message int) None config
      (readable (arrived ++ [{| payload := raw |}]) :: later) [] w
    = (Raised (SystemExit 1), w1)
  ∧ Forall (λ e, ¬ publish_path_call e) (new_events w w1)
  ∧ last (history w1) = Some (Log CRITICAL "Unable to continue; exiting.").
Proof.
  intros Hconn.
  pose proof (connect_rabbitmq_raised _ _ _ _ _ Hconn) as (-> & _ & _ & evs & Hh & Hevs).
  assert (republish_message int None config raw w = (Raised (SystemExit 1), w1)) as Hrun.
  { unfold republish_message, acquire_connection. by rewrite bind_assoc, !bind_unfold, Hconn. }
  split_and!.
  - done.
  - simpl. rewrite bind_unfold, drain_snoc.
    by rewrite (bind_raised _ _ _ _ _ Hrun).
  - rewrite (new_events_app _ _ _ Hh), !Forall_app, !Forall_cons, Forall_nil. simpl.
    split_and!; try tauto. eapply Forall_impl; [done|]. by intros ? (_ & ? & _).
  - rewrite Hh.
    change [Log CRITICAL "Could not connect to RabbitMQ broker.";
            Log CRITICAL "Unable to continue; exiting."]
      with ([Log CRITICAL "Could not connect to RabbitMQ broker."]
            ++ [Log CRITICAL "Unable to continue; exiting."])%list.
    by rewrite !app_assoc, last_snoc.
Qed.

Lemma ephemeral_connect_failure_ends_polling_witness :
  poll_loop (republish_message example_int) None example_config
    [readable two_notifications; readable two_notifications] [] (fresh_world [false])
  = (Raised (SystemExit 1),
     World [Log DEBUG "Connecting to the RabbitMQ broker.";
            Call (pika_BlockingConnection "mq" 5672 "/" "guest" "guest") false;
            Log CRITICAL "Could not connect to RabbitMQ broker.";
            Log CRITICAL "Unable to continue; exiting."] [] 0 ∅).
Proof.
  refine (proj1 (proj2 (ephemeral_connect_failure_ends_polling example_int example_config
            "orders:item:42" [{| payload := "events.created:hello" |}]
            [readable two_notifications] (fresh_world [false]) (SystemExit 1) _ _))).
  reflexivity.
Defined.

Lemma emits_attempt_new_events h config key body raw w :
  Forall (on_connection h) (new_events w (attempt h config key body raw w).2).
Proof. apply emits_new_events. by apply emits_attempt. Qed.

(** X10.  In ephemeral mode a notification that splits into key and body
    costs exactly one connection: it is opened before the publish, and
    whether the publish succeeded or raised, [close] is called on it once,
    as the last act of [republish_message].  When the [close] returns,
    [republish_message] returns and the connection is no longer among the
    open ones; when the [close] raises (line 228 is outside any handler),
    [republish_message] raises that exception (the bridge name being in
    the configuration, as [parse_config] ensures). *)
Theorem ephemeral_message_opens_and_closes int (config : config_t) key body w h w1 d name :
  key ≠ EmptyString → body ≠ EmptyString → Str.contains ":" key = false →
  config !! "bridge" = Some d → d !! "name" = Some name →
  connect_rabbitmq int config w = (Normal h, w1) →
  ∃ w2 w',
    attempt h config key body (key +:+ ":" +:+ body) w1 = (Normal (), w2)
    ∧ republish_message int None config (key +:+ ":" +:+ body) w
      = ((if decide (head (script w2) = Some false)
          then Raised (LibraryError (conn_close h)) else Normal ()), w')
    ∧ last (history w')
      = Some (Call (conn_close h) (bool_decide (head (script w2) ≠ Some false)))
    ∧ count_where broker_connected (new_events w w') = 1%nat
    ∧ count_where broker_closed (new_events w w') = 1%nat
    ∧ open_conns w' = (if decide (head (script w2) = Some false)
                       then {[h]} ∪ open_conns w else open_conns w ∖ {[h]}).
Proof.
  intros Hkey Hbody Hcolon Hd Hname Hconn.
  rewrite republish_wellformed by done. simpl.
  rewrite !bind_unfold, Hconn. simpl.
  destruct (returns_attempt h config key body (key +:+ ":" +:+ body) d name Hd Hname w1)
    as ([] & w2 & Hrun).
  destruct (keeps_attempt h config key body (key +:+ ":" +:+ body) w1) as [_ Hopen].
  pose proof (emits_attempt_new_events h config key body (key +:+ ":" +:+ body) w1) as Hon.
  destruct (emits_attempt (λ _, True) h config key body (key +:+ ":" +:+ body)
              ltac:(done) ltac:(done) ltac:(done) ltac:(done) ltac:(done) w1)
    as (evs2 & Hh2 & _).
  rewrite Hrun in Hopen, Hon, Hh2. simpl in Hopen, Hon, Hh2.
  rewrite (new_events_app _ _ _ Hh2) in Hon.
  rewrite (bind_normal _ _ _ _ _ Hrun). exists w2.
  apply connect_rabbitmq_normal in Hconn as (-> & _ & Hopen1 & c & Hc & Hh1).
  assert (∀ ok, count_where broker_connected
                  (new_events w (World (history w2 ++ [Call (conn_close (opened w)) ok])
                                   (tail (script w2)) (opened w2) (open_conns w2))) = 1%nat
                ∧ count_where broker_closed
                    (new_events w (World (history w2 ++ [Call (conn_close (opened w)) ok])
                                     (tail (script w2)) (opened w2) (open_conns w2))) = 1%nat)
    as Hcount.
  { intros ok. erewrite new_events_app; [|simpl; rewrite Hh2, Hh1, <- !app_assoc; reflexivity].
    rewrite !count_where_app, !(count_where_none _ evs2).
    - unfold count_where. by destruct c.
    - eapply Forall_impl; [done|]. intros e He. by apply on_connection_steady in He as [_ ?].
    - eapply Forall_impl; [done|]. intros e He. by apply on_connection_steady in He as [? _]. }
  destruct (close_cases (opened w) w2) as [[Hhead Hc2]|[Hhead Hc2]]; rewrite Hc2;
    destruct (decide (head (script w2) = Some false)) as [Heq|Hne]; try done.
  - rewrite bool_decide_eq_true_2 by done.
    eexists. split; [done|]. split; [done|]. split; [simpl; by rewrite last_snoc|].
    destruct (Hcount true) as [Hc1 Hc0]. split_and!.
    + exact Hc1.
    + exact Hc0.
    + simpl. rewrite Hopen, Hopen1. apply set_eq. intros x.
      rewrite !elem_of_difference, elem_of_union. tauto.
  - rewrite bool_decide_eq_false_2 by (by intros ?).
    eexists. split; [done|]. split; [done|]. split; [simpl; by rewrite last_snoc|].
    destruct (Hcount false) as [Hc1 Hc0]. split_and!.
    + exact Hc1.
    + exact Hc0.
    + simpl. by rewrite Hopen, Hopen1.
Qed.

Lemma ephemeral_message_opens_and_closes_witness :
  (∃ w', republish_message example_int None example_config "orders:item:42"
           (fresh_world [true; false; false]) = (Raised (LibraryError (conn_close 0)), w')
         ∧ last (history w') = Some (Call (conn_close 0) false)
         ∧ open_conns w' = {[0%nat]} ∪ ∅)
  ∧ (∃ w', republish_message example_int None example_config "orders:item:42"
             (fresh_world [true; false]) = (Normal (), w')
           ∧ last (history w') = Some (Call (conn_close 0) true)
           ∧ open_conns w' = ∅ ∖ {[0%nat]}).
Proof.
  split.
  - destruct (ephemeral_message_opens_and_closes example_int example_config "orders"
                "item:42" (fresh_world [true; false; false]) 0%nat
                (World [Log DEBUG "Connecting to the RabbitMQ broker.";
                        Call (pika_BlockingConnection "mq" 5672 "/" "guest" "guest") true;
                        Log INFO "Connection to RabbitMQ established."]
                   [false; false] 1 {[0%nat]})
                {[ "name" := "b1" ]} "b1")
      as (w2 & w' & Hatt & Hrun & Hlast & _ & _ & Hopen); try done.
    vm_compute in Hatt. injection Hatt as <-. exists w'. by split_and!.
  - destruct (ephemeral_message_opens_and_closes example_int example_config "orders"
                "item:42" (fresh_world [true; false]) 0%nat
                (World [Log DEBUG "Connecting to the RabbitMQ broker.";
                        Call (pika_BlockingConnection "mq" 5672 "/" "guest" "guest") true;
                        Log INFO "Connection to RabbitMQ established."]
                   [false] 1 {[0%nat]})
                {[ "name" := "b1" ]} "b1")
      as (w2 & w' & Hatt & Hrun & Hlast & _ & _ & Hopen); try done.
    vm_compute in Hatt. injection Hatt as <-. exists w'. by split_and!.
Defined.

Lemma connect_rabbitmq_succeeds int (config : config_t) d port p w :
  valid_config config →
  config !! "rabbitmq" = Some d → d !! "port" = Some port → int port = Some p →
  cooperative w →
  ∃ w1, connect_rabbitmq int config w = (Normal (opened w), w1)
        ∧ cooperative w1 ∧ opened w1 = S (opened w)
        ∧ open_conns w1 = {[opened w]} ∪ open_conns w
        ∧ ∃ evs, history w1 = (history w ++ evs)%list
                 ∧ Forall (λ e, broker_closed e = false) evs.
Proof.
  intros Hvalid Hd Hport Hint Hw.
  assert (succeeds (connect_rabbitmq int config) (λ _ _, True)) as Hsucc.
  { unfold connect_rabbitmq.
    eapply succeeds_bind; [apply succeeds_logging|]. intros _ ? _.
    eapply succeeds_bind; [|intros conn ? _].
    - apply (succeeds_try_except _ _ (λ _ _, True)).
      eapply succeeds_bind.
      { apply succeeds_getitem2_valid; [done|]. unfold checks. set_solver. }
      intros host ? _.
      eapply succeeds_bind; [by eapply succeeds_getitem2|]. intros ? ? [-> ->].
      rewrite Hint.
      eapply succeeds_bind; [apply succeeds_ret|]. intros ? ? [-> ->].
      eapply succeeds_bind.
      { apply succeeds_getitem2_valid; [done|]. unfold checks. set_solver. }
      intros vhost ? _.
      eapply succeeds_bind.
      { apply succeeds_getitem2_valid; [done|]. unfold checks. set_solver. }
      intros username ? _.
      eapply succeeds_bind.
      { apply succeeds_getitem2_valid; [done|]. unfold checks. set_solver. }
      intros password ? _.
      eapply succeeds_bind; [apply succeeds_fallible|]. intros _ ? _.
      eapply succeeds_mono; [|apply succeeds_new_connection]. done.
    - eapply succeeds_bind; [apply succeeds_logging|]. intros _ ? _.
      eapply succeeds_mono; [|apply succeeds_ret]. done. }
  destruct (Hsucc w Hw) as (h & evs & w1 & Hrun & Hh & Hw1 & _).
  pose proof (connect_rabbitmq_normal _ _ _ _ _ Hrun) as (-> & Ho & Hopen & c & Hc & Hh').
  exists w1. split_and!; try done. eexists. split; [done|].
  rewrite !Forall_cons, Forall_nil. by destruct c.
Qed.

Lemma for_each_malformed_leak int (config : config_t) d port p (l : list Notify) w :
  valid_config config →
  config !! "rabbitmq" = Some d → d !! "port" = Some port → int port = Some p →
  cooperative w → Forall (λ notify, malformed (payload notify)) l →
  ∃ w' evs,
    for_each l (λ notify, republish_message int None config (payload notify)) w
      = (Normal (), w')
    ∧ cooperative w'
    ∧ opened w' = (opened w + length l)%nat
    ∧ open_conns w' = open_conns w ∪ set_seq (opened w) (length l)
    ∧ history w' = (history w ++ evs)%list
    ∧ Forall (λ e, broker_closed e = false) evs.
Proof.
  intros Hvalid Hd Hport Hint Hw Hl. revert w Hw.
  induction Hl as [|notify l Hbad _ IH]; intros w Hw; simpl.
  - exists w, []. rewrite app_nil_r. split_and!; try done; try lia. set_solver.
  - destruct (connect_rabbitmq_succeeds int config d port p w Hvalid Hd Hport Hint Hw)
      as (w1 & Hconn & Hw1 & Ho1 & Hopen1 & evs1 & Hh1 & Hevs1).
    rewrite bind_unfold, (republish_malformed _ _ _ _ Hbad).
    unfold acquire_connection.
    rewrite bind_assoc, (bind_normal _ _ _ _ _ Hconn), bind_unfold.
    cbv beta iota delta [mret py_ret]. rewrite discard_malformed_run.
    set (w2 := World _ _ _ _).
    destruct (IH w2 Hw1) as (w' & evs & Hrun & Hw' & Ho & Hopen & Hh & Hevs).
    exists w', (evs1 ++ [Log WARNING "Improperly formatted message received; discarding.";
                         Log INFO ("Message content: " +:+ payload notify)] ++ evs)%list.
    split_and!; try done.
    + rewrite Ho. unfold w2. simpl. lia.
    + rewrite Hopen. unfold w2. cbn [opened open_conns length]. rewrite Ho1, Hopen1.
      simpl. set_solver.
    + rewrite Hh. unfold w2. simpl. by rewrite Hh1, <- !app_assoc.
    + rewrite !Forall_app, !Forall_cons, Forall_nil. by split_and!.
Qed.

(** X11.  In ephemeral mode every malformed notification leaves one more
    broker connection open: with the broker answering, a drain cycle over
    [n] malformed notifications returns normally having opened [n]
    connections and closed none, all [n] still open afterwards. *)
Theorem ephemeral_malformed_leak_grows int (config : config_t) d port p notifies w :
  valid_config config →
  config !! "rabbitmq" = Some d → d !! "port" = Some port → int port = Some p →
  cooperative w → Forall (λ notify, malformed (payload notify)) notifies →
  ∃ w', drain (republish_message int) None config notifies w = (Normal [], w')
        ∧ opened w' = (opened w + length notifies)%nat
        ∧ open_conns w' = open_conns w ∪ set_seq (opened w) (length notifies)
        ∧ count_where broker_closed (new_events w w') = 0%nat.
Proof.
  intros Hvalid Hd Hport Hint Hw Hbad.
  destruct (for_each_malformed_leak int config d port p (reverse notifies) w
              Hvalid Hd Hport Hint Hw)
    as (w' & evs & Hrun & _ & Ho & Hopen & Hh & Hevs).
  { by apply Forall_reverse. }
  exists w'. rewrite drain_for_each. unfold most_recent_first.
  rewrite (bind_normal _ _ _ _ _ Hrun). rewrite length_reverse in *.
  split_and!; try done. rewrite (new_events_app _ _ _ Hh).
  by apply count_where_none.
Qed.

Lemma ephemeral_malformed_leak_grows_witness :
  ∃ w', drain (republish_message example_int) None example_config two_malformed
          (fresh_world []) = (Normal [], w')
        ∧ opened w' = 2%nat
        ∧ open_conns w' = ∅ ∪ set_seq 0 2
        ∧ count_where broker_closed (new_events (fresh_world []) w') = 0%nat.
Proof.
  refine (ephemeral_malformed_leak_grows example_int example_config _ "5672" 5672
            two_malformed (fresh_world []) example_config_valid _ _ _ _ _).
  - reflexivity.
  - reflexivity.
  - reflexivity.
  - constructor.
  - unfold two_malformed. rewrite !Forall_cons, Forall_nil.
    split_and!; [by left | right; left; by exists "payload" | done].
Defined.

(** ** What a publish sends *)

Lemma getitem2_lookup (config : config_t) section option d v w :
  config !! section = Some d → d !! option = Some v →
  getitem2 config section option w = (Normal v, w).
Proof.
  intros Hd Hv. unfold getitem2, getitem. rewrite bind_unfold. by rewrite Hd, Hv.
Qed.

Lemma getitem_lookup (config : config_t) section d w :
  config !! section = Some d → getitem config section w = (Normal d, w).
Proof. intros Hd. unfold getitem. by rewrite Hd. Qed.

Lemma fallible_cooperative c hst scr o cs :
  Forall (eq true) scr →
  ∃ rest, fallible c (World hst scr o cs)
          = (Normal (), World (hst ++ [Call c true]) rest o cs)
          ∧ Forall (eq true) rest.
Proof.
  intros Hscr. unfold fallible. simpl. destruct scr as [|b rest].
  - by exists [].
  - apply Forall_cons in Hscr as [<- Hrest]. by exists rest.
Qed.

(** One step along a computation in a cooperative world with the
    lookups known. *)
Ltac py_go :=
  rewrite ?bind_unfold;
  lazymatch goal with
  | Hq : ?d !! ?k = Some ?q |- context [bool_decide (is_Some (?d !! ?k))] =>
      rewrite Hq, (bool_decide_eq_true_2 (is_Some (Some q))) by eauto; cbv beta iota
  | Hq : ?d !! ?k = None |- context [bool_decide (is_Some (?d !! ?k))] =>
      rewrite Hq, (bool_decide_eq_false_2 (is_Some None)) by (by intros [? ?]);
      cbv beta iota
  | |- context [fallible ?c (World ?hst ?scr ?o ?cs)] =>
      let rest := fresh "rest" in let H := fresh "H" in let Hr := fresh "Hrest" in
      destruct (fallible_cooperative c hst scr o cs) as (rest & H & Hr);
      [assumption | rewrite H; clear H; cbv beta iota]
  | Hd : ?config !! ?s = Some ?d, Hv : ?d !! ?o = Some ?v
    |- context [getitem2 ?config ?s ?o ?w] =>
      rewrite (getitem2_lookup config s o d v w Hd Hv); cbv beta iota
  | Hd : ?config !! ?s = Some ?d |- context [getitem ?config ?s ?w] =>
      rewrite (getitem_lookup config s d w Hd); cbv beta iota
  end.

(** X12.  When the broker accepts everything, [publish] makes these calls
    in this order, on the one channel: the channel is opened; the
    exchange is declared with the configured type, unless the exchange
    name is empty; the queue is declared if the configuration has a
    [queue] option (whatever its value, the empty name included); the
    message is published to the exchange with the routing key and the
    body; then come the info and the two debug records. *)
Theorem publish_success_trace h (config : config_t) key body d exchange type b name w :
  cooperative w →
  config !! "rabbitmq" = Some d →
  d !! "exchange" = Some exchange → d !! "exchange_type" = Some type →
  config !! "bridge" = Some b → b !! "name" = Some name →
  ∃ w', publish h config key body w = (Normal (), w')
        ∧ cooperative w'
        ∧ new_events w w'
          = ([Call (conn_channel h) true]
             ++ (if Str.truthy exchange
                 then [Call (channel_exchange_declare h exchange type) true] else [])
             ++ match d !! "queue" with
                | Some queue => [Call (channel_queue_declare h queue) true]
                | None => []
                end
             ++ [Call (channel_basic_publish h exchange key body) true;
                 Log INFO ("Message republished via " +:+ dq +:+ name +:+ dq +:+ " bridge.");
                 Log DEBUG ("Routing key: " +:+ key);
                 Log DEBUG ("Message: " +:+ body)])%list.
Proof.
  intros Hw Hd Hex Hty Hb Hname. destruct w as [hst scr o cs].
  unfold cooperative in Hw. simpl in Hw. unfold publish, logging, emit.
  py_go. py_go.
  destruct (Str.truthy exchange); destruct (d !! "queue") as [queue|] eqn:Hqueue;
    cbv beta iota;
    repeat py_go; rewrite ?bind_unfold; cbv beta iota delta [mret py_ret];
    repeat py_go; rewrite ?bind_unfold; cbv beta iota delta [mret py_ret];
    (eexists; split; [reflexivity|]; split; [assumption|]);
    unfold new_events; cbn [history]; rewrite <- !app_assoc, drop_app_length; reflexivity.
Qed.

Lemma publish_success_trace_witness :
  ∃ w', publish 0 (<["rabbitmq" := {[ "exchange" := EmptyString;
                                       "exchange_type" := "direct";
                                       "queue" := "jobs" ]}]> example_config)
          "orders" "item:42" (fresh_world []) = (Normal (), w')
        ∧ cooperative w'
        ∧ new_events (fresh_world []) w'
          = [Call (conn_channel 0) true;
             Call (channel_queue_declare 0 "jobs") true;
             Call (channel_basic_publish 0 EmptyString "orders" "item:42") true;
             Log INFO ("Message republished via " +:+ dq +:+ "b1" +:+ dq +:+ " bridge.");
             Log DEBUG "Routing key: orders";
             Log DEBUG "Message: item:42"].
Proof.
  refine (publish_success_trace 0%nat _ "orders" "item:42"
            {[ "exchange" := EmptyString; "exchange_type" := "direct"; "queue" := "jobs" ]}
            EmptyString "direct" {[ "name" := "b1" ]} "b1" (fresh_world []) _ _ _ _ _ _);
    first [reflexivity | constructor].
Defined.

(** ** The polling loop over many turns *)

Lemma poll_loop_app callback conn_rabbitmq config selects later notifies w :
  poll_loop callback conn_rabbitmq config (selects ++ later) notifies w
  = (poll_loop callback conn_rabbitmq config selects notifies
     ≫= poll_loop callback conn_rabbitmq config later) w.
Proof.
  revert notifies w. induction selects as [|selected selects IH]; intros notifies w.
  - reflexivity.
  - simpl. rewrite bind_assoc, !bind_unfold.
    destruct (poll_iteration callback conn_rabbitmq config selected notifies w)
      as [[ns|e] w1]; [apply IH | done].
Qed.

Lemma poll_iteration_timed_out callback conn_rabbitmq config notifies w :
  poll_iteration callback conn_rabbitmq config timed_out notifies w
  = (Normal notifies,
     World (history w ++ [Log DEBUG "Timed out while polling. (this is normal)"])
           (script w) (opened w) (open_conns w)).
Proof. reflexivity. Qed.

Lemma poll_loop_leaves_empty callback conn_rabbitmq config selects w ns w' :
  poll_loop callback conn_rabbitmq config selects [] w = (Normal ns, w') → ns = [].
Proof.
  revert w. induction selects as [|selected selects IH]; intros w.
  - by intros [= <- _].
  - cbn [poll_loop]. rewrite bind_unfold. destruct selected as [|arrived].
    + rewrite poll_iteration_timed_out. apply IH.
    + cbn [poll_iteration app]. rewrite drain_for_each. unfold most_recent_first.
      rewrite bind_unfold.
      destruct (for_each _ _ w) as [[[]|e] w1]; [|done]. apply IH.
Qed.

(** X13.  The turns of the polling loop compose: running the loop over
    some turns and then over more turns from the state reached is running
    it over all of them (so what is observed after a number of turns is
    a prefix of what is observed after more), a turn that raised ends the
    loop for good, and whenever the loop is between two turns the buffer
    of notifications is empty. *)
Theorem poll_loop_turns_compose callback conn_rabbitmq config selects later w :
  poll_loop callback conn_rabbitmq config (selects ++ later) [] w
  = (poll_loop callback conn_rabbitmq config selects []
     ≫= poll_loop callback conn_rabbitmq config later) w
  ∧ match poll_loop callback conn_rabbitmq config selects [] w with
    | (Normal ns, w') =>
        ns = []
        ∧ poll_loop callback conn_rabbitmq config (selects ++ later) [] w
          = poll_loop callback conn_rabbitmq config later [] w'
    | (Raised e, w') =>
        poll_loop callback conn_rabbitmq config (selects ++ later) [] w = (Raised e, w')
    end.
Proof.
  split; [apply poll_loop_app|]. rewrite poll_loop_app, bind_unfold.
  destruct (poll_loop callback conn_rabbitmq config selects [] w) as [[ns|e] w'] eqn:Hrun;
    [|done].
  apply poll_loop_leaves_empty in Hrun. by subst ns.
Qed.

Lemma returns_poll_loop callback conn_rabbitmq config selects notifies :
  (∀ pg_payload, returns (callback conn_rabbitmq config pg_payload)) →
  returns (poll_loop callback conn_rabbitmq config selects notifies).
Proof.
  intros Hcb. revert notifies.
  induction selects as [|selected selects IH]; intros notifies; simpl.
  - apply returns_ret.
  - apply returns_bind; [|intros; apply IH].
    destruct selected as [|arrived]; simpl.
    + apply returns_bind; [apply returns_logging | intros; apply returns_ret].
    + intros w. rewrite drain_for_each. revert w.
      apply returns_bind; [|intros; apply returns_ret].
      apply returns_for_each. intros; apply Hcb.
Qed.

(** X14.  In persistent mode nothing ends the polling loop: whatever the
    notifications are and whatever the broker answers to each call, the
    loop comes out of every turn normally, with an empty buffer, the same
    connections open, and having used no connection but its own (the
    bridge name being in the configuration, as [parse_config] ensures). *)
Theorem persistent_polling_never_ends int h (config : config_t) d name selects w :
  config !! "bridge" = Some d → d !! "name" = Some name →
  ∃ w', poll_loop (republish_message int) (Some h) config selects [] w = (Normal [], w')
        ∧ opened w' = opened w ∧ open_conns w' = open_conns w
        ∧ Forall (on_connection h) (new_events w w').
Proof.
  intros Hd Hname.
  destruct (returns_poll_loop (republish_message int) (Some h) config selects []
              ltac:(intros; by eapply returns_republish_persistent) w)
    as (ns & w' & Hrun).
  pose proof (poll_loop_leaves_empty _ _ _ _ _ _ _ Hrun) as ->.
  destruct (keeps_poll_persistent int h config selects w) as [Ho Hopen].
  pose proof (emits_new_events _ _ w (emits_poll_persistent int h config selects)) as Hon.
  rewrite Hrun in Ho, Hopen, Hon. by exists w'.
Qed.

Lemma persistent_polling_never_ends_witness :
  ∃ w', poll_loop (republish_message example_int) (Some 0%nat) example_config
          [readable two_notifications; timed_out; readable two_malformed] []
          (fresh_world [false; true; false]) = (Normal [], w')
        ∧ opened w' = 0%nat ∧ open_conns w' = ∅
        ∧ Forall (on_connection 0) (new_events (fresh_world [false; true; false]) w').
Proof.
  by apply (persistent_polling_never_ends example_int 0%nat example_config
              {[ "name" := "b1" ]} "b1").
Defined.

(** ** From a notification to the broker *)

Lemma succeeds_republish int conn (config : config_t) d port p exchange key body :
  valid_config config →
  config !! "rabbitmq" = Some d → d !! "port" = Some port → int port = Some p →
  d !! "exchange" = Some exchange →
  key ≠ EmptyString → body ≠ EmptyString → Str.contains ":" key = false →
  succeeds (republish_message int conn config (key +:+ ":" +:+ body))
    (λ _ evs, ∃ h, Call (channel_basic_publish h exchange key body) true ∈ evs).
Proof.
  intros Hvalid Hd Hport Hint Hex Hkey Hbody Hcolon.
  rewrite republish_wellformed by done.
  eapply (succeeds_bind _ _ (λ _ _, True)).
  { destruct conn as [h|]; simpl.
    - eapply succeeds_mono; [|apply succeeds_ret]. done.
    - eapply succeeds_bind; [by eapply succeeds_connect_rabbitmq|]. intros h ? _.
      eapply succeeds_mono; [|apply succeeds_ret]. done. }
  intros [closing h] evs0 _. simpl.
  eapply succeeds_bind.
  { unfold attempt. apply succeeds_try_except. by eapply publish_succeeds. }
  intros [] evs1 Hin. simpl in Hin. destruct closing.
  - eapply succeeds_mono; [|apply succeeds_close]. intros _ ? ->.
    exists h. rewrite !elem_of_app. tauto.
  - eapply succeeds_mono; [|apply succeeds_ret]. intros _ ? [_ ->].
    exists h. rewrite !elem_of_app. tauto.
Qed.

(** X15.  From end to end: with a configuration that has the required
    options and a port that is a number, and a broker and a database that
    answer, a notification [key:body] (key without colon, neither empty)
    arriving on the channel makes [run], in either mode, start, begin
    polling, and publish the body under the routing key to the configured
    exchange; the turn ends normally with the buffer empty. *)
Theorem notification_reaches_broker int args (config : config_t) d port p exchange
    key body w :
  valid_config config →
  config !! "rabbitmq" = Some d → d !! "port" = Some port → int port = Some p →
  d !! "exchange" = Some exchange →
  key ≠ EmptyString → body ≠ EmptyString → Str.contains ":" key = false →
  cooperative w →
  ∃ w' h before after,
    run int args config [readable [{| payload := key +:+ ":" +:+ body |}]] w
      = (Normal [], w')
    ∧ new_events w w' = (before ++ polling_begins :: after)%list
    ∧ Call (channel_basic_publish h exchange key body) true ∈ after.
Proof.
  intros Hvalid Hd Hport Hint Hex Hkey Hbody Hcolon Hw.
  assert (succeeds (run int args config [readable [{| payload := key +:+ ":" +:+ body |}]])
            (λ ns evs, ns = [] ∧ ∃ h before after,
               evs = (before ++ polling_begins :: after)%list
               ∧ Call (channel_basic_publish h exchange key body) true ∈ after)) as Hrun.
  { unfold run.
    eapply succeeds_bind; [apply succeeds_getitem2_valid; checked|]. intros name ? ->.
    eapply succeeds_bind; [apply succeeds_logging|]. intros _ evs1 _.
    eapply (succeeds_bind _ _ (λ _ _, True)).
    { destruct (persistent args).
      - eapply succeeds_bind; [by eapply succeeds_connect_rabbitmq|]. intros h ? _.
        eapply succeeds_mono; [|apply succeeds_ret]. done.
      - eapply succeeds_mono; [|apply succeeds_ret]. done. }
    intros conn_rabbitmq evs2 _.
    eapply succeeds_bind; [by apply succeeds_connect_postgres|]. intros _ evs3 _.
    eapply succeeds_bind; [by apply succeeds_register_listen|]. intros _ evs4 _.
    unfold poll.
    eapply succeeds_bind; [apply succeeds_logging|]. intros _ ? ->.
    intros w0 Hw0. cbn [poll_loop poll_iteration app].
    rewrite bind_unfold.
    rewrite (drain_snoc _ _ _ [] {| payload := key +:+ ":" +:+ body |}).
    rewrite bind_unfold. cbn [payload].
    destruct (succeeds_republish int conn_rabbitmq config d port p exchange key body
                Hvalid Hd Hport Hint Hex Hkey Hbody Hcolon w0 Hw0)
      as ([] & evs5 & w1 & Hrun & Hh & Hw1 & h & Hin).
    rewrite Hrun, drain_nil. cbv beta iota delta [mret py_ret].
    exists [], evs5, w1. split_and!; try done.
    exists h, ([] ++ evs1 ++ evs2 ++ evs3 ++ evs4)%list, evs5.
    split; [|done]. rewrite <- !app_assoc. reflexivity. }
  destruct (Hrun w Hw) as (ns & evs & w' & Hr & Hh & _ & -> & h & before & after & -> & Hin).
  exists w', h, before, after. split_and!; try done. by apply new_events_app.
Qed.

Lemma notification_reaches_broker_witness :
  ∃ w' h before after,
    run example_int ephemeral_args example_config
      [readable [{| payload := "events.created:hello" |}]] (fresh_world [])
      = (Normal [], w')
    ∧ new_events (fresh_world []) w' = (before ++ polling_begins :: after)%list
    ∧ Call (channel_basic_publish h "ex1" "events.created" "hello") true ∈ after.
Proof.
  refine (notification_reaches_broker example_int ephemeral_args example_config _
            "5672" 5672 "ex1" "events.created" "hello" (fresh_world [])
            example_config_valid _ _ _ _ _ _ _ _);
    first [reflexivity | done | constructor].
Defined.

(** ** Stopping at the first failure *)

Lemma fail_stop_bind {A B} (m : py A) (f : A → py B) :
  fail_stop m → emits (λ e, published e = false) m → (∀ a, fail_stop (f a)) →
  fail_stop (m ≫= f).
Proof.
  intros Hm Hquiet Hf w. rewrite bind_unfold. destruct (Hm w) as (evs1 & Hh1 & H1).
  destruct (Hquiet w) as (evs1' & Hh1' & Hq1).
  assert (evs1' = evs1) as -> by (rewrite Hh1 in Hh1'; by apply app_inv_head in Hh1').
  destruct (m w) as [[a|e] w1]; simpl in *; [|by exists evs1].
  destruct (Hf a w1) as (evs2 & Hh2 & H2).
  exists (evs1 ++ evs2)%list. split; [by rewrite Hh2, Hh1, app_assoc|].
  destruct (f a w1) as [[b|[| |c|status|]] w2]; simpl in *;
    try (by apply Forall_app).
  destruct H2 as (before & -> & Hbefore).
  exists (evs1 ++ before)%list. split; [by rewrite app_assoc|].
  apply Forall_app. split; [|done].
  apply Forall_forall. intros e He. rewrite Forall_forall in H1, Hq1. by split; auto.
Qed.

Lemma fail_stop_last {A B} (m : py A) (f : A → py B) :
  fail_stop m →
  (∀ a, emits (λ e, failed_call e = false) (f a)) →
  (∀ a w c, (f a w).1 ≠ Raised (LibraryError c)) →
  fail_stop (m ≫= f).
Proof.
  intros Hm Hf Hlib w. rewrite bind_unfold. destruct (Hm w) as (evs1 & Hh1 & H1).
  destruct (m w) as [[a|e] w1]; simpl in *; [|by exists evs1].
  destruct (Hf a w1) as (evs2 & Hh2 & H2). specialize (Hlib a w1).
  exists (evs1 ++ evs2)%list. split; [by rewrite Hh2, Hh1, app_assoc|].
  destruct (f a w1) as [[b|[| |c|status|]] w2]; simpl in *;
    try (by apply Forall_app).
  by destruct (Hlib c).
Qed.

Lemma fail_stop_fallible c : fail_stop (fallible c).
Proof.
  intros w. unfold fallible. destruct (script w) as [|[] rest]; simpl.
  - exists [Call c true]. split; [done|]. by repeat constructor.
  - exists [Call c true]. split; [done|]. by repeat constructor.
  - exists [Call c false]. split; [done|]. exists []. by split.
Qed.

Lemma fail_stop_silent {A} (m : py A) :
  emits (λ e, failed_call e = false) m →
  (∀ w c, (m w).1 ≠ Raised (LibraryError c)) →
  fail_stop m.
Proof.
  intros Hm Hlib w. destruct (Hm w) as (evs & Hh & Hevs).
  exists evs. split; [done|]. specialize (Hlib w).
  destruct ((m w).1) as [a|[| |c|status|]]; try done. by destruct (Hlib c).
Qed.

Lemma getitem2_not_library config section option w c :
  (getitem2 config section option w).1 ≠ Raised (LibraryError c).
Proof.
  intros Heq. destruct (getitem2_cases config section option w) as [[v Hv]|[k Hk]];
    [rewrite Hv in Heq | rewrite Hk in Heq]; done.
Qed.

Lemma fail_stop_getitem2 config section option : fail_stop (getitem2 config section option).
Proof.
  apply fail_stop_silent; [apply emits_getitem2|]. intros. apply getitem2_not_library.
Qed.

Lemma fail_stop_getitem config section : fail_stop (getitem config section).
Proof.
  apply fail_stop_silent; [apply emits_getitem|]. intros w c. unfold getitem.
  by destruct (config !! section).
Qed.

Lemma fail_stop_ret {A} (a : A) : fail_stop (mret a).
Proof. apply fail_stop_silent; [apply emits_ret | done]. Qed.

Lemma fail_stop_publish h config key body : fail_stop (publish h config key body).
Proof.
  unfold publish.
  apply fail_stop_bind; [apply fail_stop_fallible | by apply emits_fallible |]. intros _.
  apply fail_stop_bind; [apply fail_stop_getitem2 | apply emits_getitem2 |].
  intros exchange.
  apply fail_stop_bind.
  { destruct (Str.truthy exchange); [|apply fail_stop_ret].
    apply fail_stop_bind; [apply fail_stop_getitem2 | apply emits_getitem2 |]. intros ?.
    apply fail_stop_bind; [apply fail_stop_getitem2 | apply emits_getitem2 |]. intros ?.
    apply fail_stop_fallible. }
  { emits_auto ltac:(done). }
  intros _.
  apply fail_stop_bind; [apply fail_stop_getitem | apply emits_getitem |]. intros rabbitmq.
  apply fail_stop_bind.
  { destruct (bool_decide (is_Some (rabbitmq !! "queue"))); [|apply fail_stop_ret].
    apply fail_stop_bind; [apply fail_stop_getitem2 | apply emits_getitem2 |]. intros ?.
    apply fail_stop_fallible. }
  { emits_auto ltac:(done). }
  intros _.
  apply fail_stop_bind; [apply fail_stop_getitem2 | apply emits_getitem2 |]. intros ?.
  apply fail_stop_last; [apply fail_stop_fallible | |].
  - intros _. emits_auto ltac:(done).
  - intros _ w c. rewrite bind_unfold.
    pose proof (getitem2_not_library config "bridge" "name" w c) as Hget.
    destruct (getitem2 config "bridge" "name" w) as [[name|e] w1].
    + unfold logging, emit. rewrite !bind_unfold. simpl. discriminate.
    + simpl in *. intros [= ->]. by apply Hget.
Qed.

(** X16.  [publish] stops at the first call that the broker refuses: when
    it comes out with the exception of a library call, that call is the
    last thing it did, no call before it had failed, and unless it is the
    [basic_publish] itself nothing was published; in every other case no
    call failed.  So a message is never published after its channel or
    one of its declarations failed. *)
Theorem publish_stops_at_first_failure h config key body w :
  match publish h config key body w with
  | (Raised (LibraryError c), w') =>
      last (new_events w w') = Some (Call c false)
      ∧ count_where failed_call (new_events w w') = 1%nat
      ∧ (published (Call c false) = false →
         count_where published (new_events w w') = 0%nat)
  | (_, w') => count_where failed_call (new_events w w') = 0%nat
  end.
Proof.
  destruct (fail_stop_publish h config key body w) as (evs & Hh & Hevs).
  destruct (publish h config key body w) as [[[]|[| |c|status|]] w']; simpl in *;
    rewrite (new_events_app _ _ _ Hh);
    try (by apply count_where_none).
  destruct Hevs as (before & -> & Hbefore). split_and!.
  - by rewrite last_snoc.
  - rewrite count_where_app, (count_where_none _ before); [done|].
    eapply Forall_impl; [done|]. by intros ? [? _].
  - intros Hc. rewrite count_where_app, (count_where_none _ before).
    + unfold count_where. simpl. by rewrite Hc.
    + eapply Forall_impl; [done|]. by intros ? [_ ?].
Qed.

(** ** An ephemeral bridge without notifications *)

Lemma emits_poll_loop_idle P callback conn_rabbitmq config selects :
  (∀ lvl msg, P (Log lvl msg)) →
  Forall idle selects →
  emits P (poll_loop callback conn_rabbitmq config selects []).
Proof.
  intros Hlog Hidle. induction Hidle as [|selected selects [->| ->] _ IH].
  - apply emits_ret.
  - intros w. cbn [poll_loop]. rewrite bind_unfold, poll_iteration_timed_out.
    destruct (IH (World (history w ++ [Log DEBUG "Timed out while polling. (this is normal)"])
                        (script w) (opened w) (open_conns w))) as (evs & Hh & Hevs).
    exists (Log DEBUG "Timed out while polling. (this is normal)" :: evs).
    split; [rewrite Hh; simpl; by rewrite <- app_assoc | by constructor].
  - intros w. cbn [poll_loop poll_iteration app]. rewrite bind_unfold, drain_nil.
    apply IH.
Qed.

(** X17.  In ephemeral mode a bridge to which no notification comes never
    calls the broker library: [run] connects to the database and listens,
    and its idle turns, however many, leave the broker alone (so a broker
    that is down goes unnoticed until the first notification). *)
Theorem idle_ephemeral_bridge_leaves_broker_alone int args config selects w :
  persistent args = false → Forall idle selects →
  count_where broker_call (new_events w (run int args config selects w).2) = 0%nat.
Proof.
  intros Hp Hidle. apply count_where_none, emits_new_events.
  unfold run. rewrite Hp.
  apply emits_bind; [apply emits_getitem2|]. intros name.
  apply emits_bind; [by apply emits_logging|]. intros _.
  apply emits_bind; [apply emits_ret|]. intros conn_rabbitmq.
  apply emits_bind; [by apply emits_connect_postgres|]. intros _.
  apply emits_bind; [by apply emits_register_listen|]. intros _.
  unfold poll. apply emits_bind; [by apply emits_logging|]. intros _.
  by apply emits_poll_loop_idle.
Qed.

Lemma idle_ephemeral_bridge_leaves_broker_alone_witness :
  count_where broker_call
    (new_events (fresh_world [])
       (run example_int ephemeral_args example_config
          [timed_out; readable []; timed_out] (fresh_world [])).2) = 0%nat.
Proof.
  apply idle_ephemeral_bridge_leaves_broker_alone; [reflexivity|].
  unfold idle. rewrite !Forall_cons, Forall_nil. tauto.
Defined.
